(** * DictaChat / datagov: the resource-matching engine

    A shallow embedding of [datagov/query_builder.py] (tokenizer,
    morphological variants, bidirectional synonym index, query
    decomposition, scoring, rephrasing, field matching) and of the
    aggregate calculator and the front of [datagov_query] in
    [datagov/server.py], followed by the properties of the engine.

    Conventions of the embedding.
    - A Python [str] is the list of its code points ([pystr]); literals are
      written [u "..."] and decoded from UTF-8.
    - The scores of the matcher are exact rationals ([Q]), and [round(x, n)]
      on them rounds half to even, as CPython does.  The floats of the
      aggregate calculator are IEEE 754 binary64 numbers ([spec_float] at
      precision 53), with their rounding, their infinities and their nan.
    - A [dict] used as a map is a [gmap], a [set] a [gset]; [list(s)] of a set
      is [elements s], whose order is as unspecified as CPython's: no
      statement below depends on it.
    - The module-level caches ([_enterprise_schemas], [_field_index], the
      keyword index) are loaded once and never written again; they are the
      fields of the record [env], and the derived indices are functions of it. *)

From Stdlib Require Import QArith Qround Qabs Lqa Lia DecimalString SpecFloat.
From stdpp Require Import gmap strings list fin_maps sorting.

#[local] Open Scope Z_scope.
#[local] Open Scope N_scope.
#[local] Open Scope nat_scope.
#[local] Open Scope list_scope.

(** ** Python built-ins on strings *)

Module Py.

(** A string is its sequence of code points. *)
Abbreviation pystr := (list N).

(** UTF-8 decoding, used for literals only. *)
Fixpoint utf8_decode (bs : list N) : pystr :=
  match bs with
  | [] => []
  | b :: r =>
      if (b <? 128)%N then b :: utf8_decode r
      else if (b <? 224)%N then
        match r with
        | b1 :: r1 => ((b - 192) * 64 + (b1 - 128))%N :: utf8_decode r1
        | _ => []
        end
      else if (b <? 240)%N then
        match r with
        | b1 :: b2 :: r2 =>
            ((b - 224) * 4096 + (b1 - 128) * 64 + (b2 - 128))%N :: utf8_decode r2
        | _ => []
        end
      else
        match r with
        | b1 :: b2 :: b3 :: r3 =>
            ((b - 240) * 262144 + (b1 - 128) * 4096 + (b2 - 128) * 64 + (b3 - 128))%N
              :: utf8_decode r3
        | _ => []
        end
  end.

Definition u (s : string) : pystr :=
  utf8_decode (map Byte.to_N (String.list_byte_of_string s)).

(** [len(s)], [not s]. *)
Definition len (s : pystr) : nat := length s.
Definition empty (s : pystr) : bool := match s with [] => true | _ => false end.

Definition eqb (a b : pystr) : bool := bool_decide (a = b).

(** [x in xs] for a list, tuple or set of strings. *)
Definition mem (x : pystr) (xs : list pystr) : bool := bool_decide (x ∈ xs).

(** [str.lower()]: the ASCII letters.  Hebrew has no case; the cased
    letters beyond ASCII are left as they are. *)
Definition lower_cp (c : N) : N :=
  if ((65 <=? c) && (c <=? 90))%N then (c + 32)%N else c.
Definition lower (s : pystr) : pystr := map lower_cp s.

(** [str.upper()], likewise. *)
Definition upper_cp (c : N) : N :=
  if ((97 <=? c) && (c <=? 122))%N then (c - 32)%N else c.
Definition upper (s : pystr) : pystr := map upper_cp s.

(** [c.isspace()], which is also the regular expression class [\s]. *)
Definition isspace_cp (c : N) : bool :=
  ((9 <=? c) && (c <=? 13) || (28 <=? c) && (c <=? 32)
   || (c =? 133) || (c =? 160) || (c =? 5760)
   || (8192 <=? c) && (c <=? 8202) || (c =? 8232) || (c =? 8233)
   || (c =? 8239) || (c =? 8287) || (c =? 12288))%N.

(** [s.isdigit()]: non-empty and decimal digits only (the ASCII ones). *)
Definition isdigit_cp (c : N) : bool := ((48 <=? c) && (c <=? 57))%N.
Definition isdigit (s : pystr) : bool := negb (empty s) && forallb isdigit_cp s.

(** [s.isascii()]. *)
Definition isascii (s : pystr) : bool := forallb (fun c => (c <? 128)%N) s.

(** [s.startswith(p)], [s.endswith(p)]. *)
Fixpoint startswith (s p : pystr) : bool :=
  match p, s with
  | [], _ => true
  | _ :: _, [] => false
  | a :: p', b :: s' => (a =? b)%N && startswith s' p'
  end.
Definition endswith (s p : pystr) : bool := startswith (rev s) (rev p).

(** [needle in hay] on strings: a contiguous occurrence. *)
Fixpoint contains (hay needle : pystr) : bool :=
  startswith hay needle
  || match hay with
     | [] => false
     | _ :: hay' => contains hay' needle
     end.

(** [sep.join(parts)]. *)
Fixpoint join (sep : pystr) (parts : list pystr) : pystr :=
  match parts with
  | [] => []
  | [p] => p
  | p :: rest => p ++ sep ++ join sep rest
  end.

(** [re.split(r'[...]+', s)] for a character class [p]: the pieces between
    the maximal runs of separators, the empty ones at both ends included. *)
Fixpoint re_split_go (p : N -> bool) (s : pystr) (cur : pystr) (in_run : bool)
  : list pystr :=
  match s with
  | [] => [rev cur]
  | c :: r =>
      if p c then
        if in_run then re_split_go p r cur true
        else rev cur :: re_split_go p r [] true
      else re_split_go p r (c :: cur) false
  end.
Definition re_split (p : N -> bool) (s : pystr) : list pystr :=
  re_split_go p s [] false.

(** [s.split()]: the words between runs of white space, none empty. *)
Definition split (s : pystr) : list pystr :=
  filter (fun w => negb (empty w) = true) (re_split isspace_cp s).

(** [s.replace(c, "")] for a one-character [c]. *)
Definition remove_cp (c : N) (s : pystr) : pystr :=
  filter (fun d => d ≠ c) s.

(** [xs[:n]] for a Python integer [n]: a negative [n] counts from the end. *)
Definition slice_to {A} (n : Z) (xs : list A) : list A :=
  if (0 <=? n)%Z then take (Z.to_nat n) xs
  else take (length xs - Z.to_nat (- n)) xs.

(** [a or b] on strings that may be [None]. *)
Definition or_str (a : option pystr) (b : pystr) : pystr :=
  match a with
  | Some s => if empty s then b else s
  | None => b
  end.

(** [round(x, n)], half to even. *)
Definition round_half_even (x : Q) : Z :=
  let f := Qfloor x in
  let d := (x - inject_Z f)%Q in
  match (d ?= 1 # 2)%Q with
  | Lt => f
  | Gt => (f + 1)%Z
  | Eq => if Z.even f then f else (f + 1)%Z
  end.
Definition round (x : Q) (n : nat) : Q :=
  let s := (10 ^ Z.of_nat n)%Z in
  Qmake (round_half_even (x * inject_Z s)) (Z.to_pos s).

Definition qmin (a b : Q) : Q := if Qle_bool a b then a else b.
Definition qlt (a b : Q) : bool := negb (Qle_bool b a).

End Py.
Import Py.

(** ** Module constants of [query_builder.py] *)

(** [HEBREW_PREFIXES]: the module assigns it twice; every function reads the
    global at call time, that is the second assignment (a set). *)
Definition HEBREW_PREFIXES : list pystr :=
  [ u "ב"; u "ל"; u "מ"; u "ה"; u "ו"; u "כ"; u "ש"; u "וב"; u "ול"; u "ומ";
    u "וה"; u "וכ"; u "וש"; u "שב"; u "של"; u "שמ" ].

(** [HEBREW_PLURAL_SUFFIXES]. *)
Definition HEBREW_PLURAL_SUFFIXES : list pystr :=
  [ u "ים"; u "ות" ].

(** [STOP_WORDS] (a set: membership only). *)
Definition STOP_WORDS : list pystr :=
  [ u "של"; u "את"; u "על"; u "עם"; u "לא"; u "או"; u "גם"; u "כי"; u "מה";
    u "זה"; u "הוא"; u "היא"; u "אני"; u "אנחנו"; u "ב"; u "ל"; u "מ"; u "ה";
    u "ו"; u "כ"; u "ש"; u "the"; u "a"; u "an"; u "in"; u "on"; u "at";
    u "to"; u "for"; u "of"; u "and"; u "or"; u "is"; u "are"; u "was";
    u "were"; u "be"; u "been"; u "being"; u "have"; u "has"; u "had";
    u "do"; u "does"; u "did"; u "will"; u "would"; u "could"; u "should";
    u "may"; u "might"; u "must"; u "can"; u "this"; u "that"; u "these";
    u "those"; u "i"; u "you"; u "he"; u "she"; u "it"; u "we"; u "they";
    u "me"; u "him"; u "her"; u "us"; u "them"; u "my"; u "your"; u "his";
    u "its"; u "our"; u "their"; u "what"; u "which"; u "who"; u "whom";
    u "use"; u "using"; u "show"; u "display"; u "find"; u "search"; u "get";
    u "list"; u "give"; u "want"; u "provide"; u "each"; u "every"; u "all";
    u "with"; u "from"; u "by" ].

(** [ISRAELI_LOCATIONS] (a set, listed in the order of the source). *)
Definition ISRAELI_LOCATIONS : list pystr :=
  [ u "jerusalem"; u "ירושלים"; u "tel aviv"; u "תל אביב"; u "haifa";
    u "חיפה"; u "beer sheva"; u "באר שבע"; u "beersheba"; u "netanya";
    u "נתניה"; u "ashdod"; u "אשדוד"; u "rishon"; u "ראשון לציון";
    u "petah tikva"; u "פתח תקווה"; u "holon"; u "חולון"; u "bnei brak";
    u "בני ברק"; u "ramat gan"; u "רמת גן"; u "ashkelon"; u "אשקלון";
    u "rehovot"; u "רחובות"; u "bat yam"; u "בת ים"; u "herzliya";
    u "הרצליה"; u "kfar saba"; u "כפר סבא"; u "ra'anana"; u "רעננה";
    u "modi'in"; u "מודיעין"; u "lod"; u "לוד"; u "ramla"; u "רמלה";
    u "nazareth"; u "נצרת"; u "acre"; u "עכו"; u "akko"; u "eilat"; u "אילת";
    u "tiberias"; u "טבריה"; u "safed"; u "צפת"; u "kiryat"; u "קריית";
    u "dimona"; u "דימונה"; u "arad"; u "ערד"; u "nahariya"; u "נהריה";
    u "north"; u "צפון"; u "south"; u "דרום"; u "center"; u "מרכז";
    u "galilee"; u "גליל"; u "negev"; u "נגב"; u "golan"; u "גולן";
    u "sharon"; u "שרון"; u "shfela"; u "שפלה"; u "coastal"; u "חוף";
    u "tel aviv district"; u "מחוז תל אביב"; u "jerusalem district";
    u "מחוז ירושלים"; u "northern district"; u "מחוז צפון";
    u "southern district"; u "מחוז דרום"; u "central district";
    u "מחוז מרכז"; u "haifa district"; u "מחוז חיפה" ].

(** [HEBREW_STOPWORDS] (a set: membership only). *)
Definition HEBREW_STOPWORDS : list pystr :=
  [ u "את"; u "של"; u "על"; u "עם"; u "אל"; u "מה"; u "איך"; u "למה"; u "מי";
    u "היכן"; u "מתי"; u "האם"; u "יש"; u "אין"; u "כל"; u "גם"; u "או";
    u "אם"; u "לא"; u "כי"; u "זה"; u "זו"; u "זאת"; u "הוא"; u "היא";
    u "הם"; u "הן"; u "אני"; u "אנחנו"; u "אתה"; u "שלי"; u "שלך"; u "שלו";
    u "בו"; u "בה"; u "בהם"; u "בהן"; u "לו"; u "לה"; u "להם"; u "להן";
    u "ממנו"; u "ממנה"; u "מידע"; u "נתונים"; u "רשימה"; u "רשימת";
    u "פרטים"; u "פרטי"; u "כמות"; u "סטטיסטיקה" ].

(** [ENGLISH_STOPWORDS] (a set: membership only). *)
Definition ENGLISH_STOPWORDS : list pystr :=
  [ u "the"; u "a"; u "an"; u "is"; u "are"; u "was"; u "were"; u "be";
    u "been"; u "being"; u "have"; u "has"; u "had"; u "do"; u "does";
    u "did"; u "will"; u "would"; u "could"; u "should"; u "what"; u "where";
    u "when"; u "why"; u "how"; u "which"; u "who"; u "whom"; u "in"; u "on";
    u "at"; u "to"; u "for"; u "of"; u "with"; u "by"; u "from"; u "about";
    u "into"; u "through"; u "during"; u "before"; u "after"; u "above";
    u "below"; u "all"; u "any"; u "both"; u "each"; u "few"; u "more";
    u "most"; u "other"; u "some"; u "data"; u "information"; u "list";
    u "details"; u "statistics"; u "numbers" ].

(** [_BASE_SUBJECT_EXPANSIONS], the items in insertion order. *)
Definition _BASE_SUBJECT_EXPANSIONS : list (pystr * list pystr) :=
  [ (u "court",
      [ u "בית משפט"; u "בתי משפט"; u "משפט"; u "שופט"; u "שפיטה"; u "תיקים" ]);
    (u "courts",
      [ u "בית משפט"; u "בתי משפט"; u "משפט"; u "שופט"; u "שפיטה"; u "תיקים" ]);
    (u "judge",
      [ u "שופט"; u "שופטים"; u "בית משפט" ]);
    (u "legal",
      [ u "משפטי"; u "חוקי"; u "משפט" ]);
    (u "law",
      [ u "חוק"; u "חוקים"; u "משפט"; u "חקיקה" ]);
    (u "hospital",
      [ u "בית חולים"; u "בתי חולים"; u "רפואי"; u "רפואה"; u "אשפוז" ]);
    (u "hospitals",
      [ u "בית חולים"; u "בתי חולים"; u "רפואי"; u "רפואה"; u "אשפוז" ]);
    (u "clinic",
      [ u "מרפאה"; u "מרפאות"; u "קופת חולים" ]);
    (u "health",
      [ u "בריאות"; u "רפואי"; u "רפואה" ]);
    (u "medical",
      [ u "רפואי"; u "רפואה"; u "בריאות" ]);
    (u "trauma",
      [ u "טראומה"; u "מרכז טראומה"; u "פציעות" ]);
    (u "doctor",
      [ u "רופא"; u "רופאים"; u "רפואה" ]);
    (u "pharmacy",
      [ u "בית מרקחת"; u "תרופות"; u "רוקחות" ]);
    (u "school",
      [ u "בית ספר"; u "בתי ספר"; u "חינוך"; u "לימודים"; u "מוסד חינוך";
        u "מוסדות חינוך" ]);
    (u "schools",
      [ u "בית ספר"; u "בתי ספר"; u "חינוך"; u "לימודים"; u "מוסד חינוך";
        u "מוסדות חינוך" ]);
    (u "high school",
      [ u "תיכון"; u "תיכונים"; u "בית ספר תיכון"; u "בתי ספר תיכוניים";
        u "חטיבה עליונה"; u "מוסדות חינוך" ]);
    (u "highschool",
      [ u "תיכון"; u "תיכונים"; u "בית ספר תיכון"; u "בתי ספר תיכוניים";
        u "חטיבה עליונה" ]);
    (u "תיכון",
      [ u "תיכון"; u "תיכונים"; u "high school"; u "חטיבה עליונה";
        u "מוסדות חינוך" ]);
    (u "תיכוניים",
      [ u "תיכון"; u "תיכונים"; u "high school"; u "חטיבה עליונה";
        u "מוסדות חינוך" ]);
    (u "elementary",
      [ u "יסודי"; u "בית ספר יסודי"; u "חטיבת ביניים"; u "מוסדות חינוך" ]);
    (u "university",
      [ u "אוניברסיטה"; u "אוניברסיטאות"; u "השכלה גבוהה" ]);
    (u "college",
      [ u "מכללה"; u "מכללות"; u "השכלה" ]);
    (u "education",
      [ u "חינוך"; u "לימודים"; u "הוראה"; u "מוסדות חינוך"; u "בתי ספר" ]);
    (u "student",
      [ u "תלמיד"; u "תלמידים"; u "סטודנט" ]);
    (u "kindergarten",
      [ u "גן ילדים"; u "גני ילדים"; u "גנים" ]);
    (u "ministry",
      [ u "משרד"; u "משרדים"; u "ממשלתי" ]);
    (u "government",
      [ u "ממשלה"; u "ממשלתי"; u "ציבורי" ]);
    (u "municipality",
      [ u "עירייה"; u "עיריות"; u "רשות מקומית" ]);
    (u "office",
      [ u "משרד"; u "לשכה"; u "מוסד" ]);
    (u "police",
      [ u "משטרה"; u "משטרתי"; u "שוטר" ]);
    (u "fire",
      [ u "כבאות"; u "כבאי"; u "מכבי אש" ]);
    (u "bus",
      [ u "אוטובוס"; u "תחבורה ציבורית"; u "קווים" ]);
    (u "train",
      [ u "רכבת"; u "תחנת רכבת"; u "רכבות" ]);
    (u "airport",
      [ u "שדה תעופה"; u "נמל תעופה"; u "טיסות" ]);
    (u "road",
      [ u "כביש"; u "כבישים"; u "דרך" ]);
    (u "traffic",
      [ u "תנועה"; u "תחבורה"; u "פקקים" ]);
    (u "business",
      [ u "עסק"; u "עסקים"; u "חברה"; u "חברות" ]);
    (u "company",
      [ u "חברה"; u "חברות"; u "עסק" ]);
    (u "license",
      [ u "רישיון"; u "רישוי"; u "היתר" ]);
    (u "permit",
      [ u "היתר"; u "רישיון"; u "אישור" ]);
    (u "tax",
      [ u "מס"; u "מיסים"; u "מסוי" ]);
    (u "budget",
      [ u "תקציב"; u "תקציבי"; u "כספים" ]);
    (u "water",
      [ u "מים"; u "מקורות מים"; u "ביוב" ]);
    (u "air",
      [ u "אוויר"; u "זיהום אוויר"; u "איכות אוויר" ]);
    (u "environment",
      [ u "סביבה"; u "איכות הסביבה"; u "אקולוגי" ]);
    (u "weather",
      [ u "מזג אוויר"; u "גשם"; u "טמפרטורה" ]);
    (u "park",
      [ u "פארק"; u "גן ציבורי"; u "שטח פתוח" ]);
    (u "welfare",
      [ u "רווחה"; u "סעד"; u "שירותי רווחה" ]);
    (u "elderly",
      [ u "קשישים"; u "זקנים"; u "גיל הזהב" ]);
    (u "disability",
      [ u "נכות"; u "נכים"; u "מוגבלות" ]);
    (u "housing",
      [ u "דיור"; u "שיכון"; u "מגורים" ]);
    (u "population",
      [ u "אוכלוסייה"; u "דמוגרפיה"; u "תושבים" ]);
    (u "census",
      [ u "מפקד"; u "מפקד אוכלוסין"; u "סטטיסטיקה" ]);
    (u "statistics",
      [ u "סטטיסטיקה"; u "נתונים"; u "מדדים" ]) ].

(** [FIELD_INTENT_MAPPING], the items in insertion order. *)
Definition FIELD_INTENT_MAPPING : list (pystr * list pystr) :=
  [ (u "address",
      [ u "כתובת"; u "address"; u "רחוב"; u "street"; u "מיקום";
        u "location"; u "כתובת_מלאה" ]);
    (u "addresses",
      [ u "כתובת"; u "address"; u "רחוב"; u "street"; u "מיקום"; u "location" ]);
    (u "כתובת",
      [ u "כתובת"; u "address"; u "רחוב"; u "street"; u "מיקום"; u "location" ]);
    (u "phone",
      [ u "טלפון"; u "phone"; u "tel"; u "telephone"; u "פקס"; u "fax";
        u "נייד"; u "mobile" ]);
    (u "phones",
      [ u "טלפון"; u "phone"; u "tel"; u "telephone"; u "פקס"; u "fax" ]);
    (u "טלפון",
      [ u "טלפון"; u "phone"; u "tel"; u "telephone" ]);
    (u "contact",
      [ u "איש_קשר"; u "contact"; u "אימייל"; u "email"; u "טלפון"; u "phone" ]);
    (u "email",
      [ u "אימייל"; u "email"; u "דואר"; u "mail" ]);
    (u "name",
      [ u "שם"; u "name"; u "שם_מלא"; u "full_name"; u "כותרת"; u "title" ]);
    (u "שם",
      [ u "שם"; u "name"; u "שם_מלא"; u "full_name" ]);
    (u "city",
      [ u "עיר"; u "city"; u "יישוב"; u "town"; u "רשות"; u "municipality" ]);
    (u "עיר",
      [ u "עיר"; u "city"; u "יישוב"; u "town" ]);
    (u "district",
      [ u "מחוז"; u "district"; u "אזור"; u "region" ]);
    (u "מחוז",
      [ u "מחוז"; u "district"; u "אזור"; u "region" ]);
    (u "type",
      [ u "סוג"; u "type"; u "קטגוריה"; u "category"; u "תחום"; u "domain" ]);
    (u "סוג",
      [ u "סוג"; u "type"; u "קטגוריה"; u "category" ]);
    (u "status",
      [ u "סטטוס"; u "status"; u "מצב"; u "state" ]);
    (u "link",
      [ u "קישור"; u "link"; u "url"; u "אתר"; u "website" ]);
    (u "url",
      [ u "קישור"; u "link"; u "url"; u "אתר"; u "website" ]);
    (u "date",
      [ u "תאריך"; u "date"; u "יום"; u "day"; u "שנה"; u "year" ]);
    (u "תאריך",
      [ u "תאריך"; u "date"; u "יום"; u "day" ]);
    (u "hours",
      [ u "שעות"; u "hours"; u "שעות_פתיחה"; u "opening_hours"; u "זמנים" ]);
    (u "שעות",
      [ u "שעות"; u "hours"; u "שעות_פתיחה"; u "opening_hours" ]) ].

(** ** Dictionaries and sorting *)

(** [d.get(k)] on the items of a dict. *)
Fixpoint dict_get {V} (d : list (pystr * V)) (k : pystr) : option V :=
  match d with
  | [] => None
  | (k', v) :: rest => if eqb k' k then Some v else dict_get rest k
  end.

(** [{**a, **b}]: the keys of [a] in their order, with the value [b] gives
    them when it has one, then the keys only [b] has. *)
Definition dict_merge {V} (a b : list (pystr * V)) : list (pystr * V) :=
  map (fun kv => (kv.1, default kv.2 (dict_get b kv.1))) a
  ++ filter (fun kv => dict_get a kv.1 = None) b.

(** [xs.sort(key=..., reverse=True)] and [sorted(xs, key=..., reverse=True)]:
    a stable sort into descending order of the key; [gt y x] says that the
    key of [y] is greater than the key of [x]. *)
Fixpoint insert_desc {A} (gt : A -> A -> bool) (x : A) (l : list A) : list A :=
  match l with
  | [] => [x]
  | y :: l' => if gt y x then y :: insert_desc gt x l' else x :: y :: l'
  end.
Definition sort_desc {A} (gt : A -> A -> bool) (l : list A) : list A :=
  foldr (insert_desc gt) [] l.

(** ** The data the engine reads *)

(** A dataset of [enterprise_schemas.json]. *)
Record schema_resource := { sr_resource_id : option pystr }.
Record schema_dataset := {
  sd_title : pystr;
  sd_keywords : list pystr;
  sd_categories : list pystr;
  sd_field_availability : gmap pystr bool;
  sd_resources : list schema_resource }.

(** An entry of [_enterprise_schema_index]. *)
Record schema_entry := {
  se_categories : list pystr;
  se_keywords : list pystr;
  se_field_availability : gmap pystr bool }.

(** What the module finds on disk when it is imported:
    [enterprise_expansions.py] (the empty table when the import fails),
    [enterprise_schemas.json] and [schemas/_field_index.json] ([None] when
    the file is missing or does not load). *)
Record env := {
  ENTERPRISE_SUBJECT_EXPANSIONS : list (pystr * list pystr);
  enterprise_schemas_json : option (list schema_dataset);
  field_index_json : option (gmap pystr (gmap pystr bool)) }.

(** The module-level globals, once loaded. *)
Record globals := {
  SUBJECT_EXPANSIONS : list (pystr * list pystr);
  _BIDIRECTIONAL_EXPANSIONS : gmap pystr (gset pystr);
  _enterprise_schema_index : option (gmap pystr schema_entry);
  _keyword_to_resources : gmap pystr (list pystr);
  _field_index : option (gmap pystr (gmap pystr bool)) }.

(** A resource and a dataset of [resources_map.json]; a field that is
    absent or [null] is [None]. *)
Record resource := {
  r_id : option pystr;
  r_title : option pystr;
  r_name : option pystr;
  r_format : option pystr }.
Record dataset := {
  ds_id : option pystr;
  ds_title : option pystr;
  ds_name : option pystr;
  ds_tags : list pystr;
  ds_organization : option pystr;
  ds_resources : list resource }.

(** ** Bidirectional expansion index *)

(** The inner loop of [_build_bidirectional_index]: every term of the group
    is mapped to the whole group, added to what it already maps to. *)
Definition index_group (index : gmap pystr (gset pystr)) (group : gset pystr)
  : gmap pystr (gset pystr) :=
  foldl (fun idx term => <[term := default ∅ (idx !! term) ∪ group]> idx)
        index (elements group).

Definition _build_bidirectional_index (table : list (pystr * list pystr))
  : gmap pystr (gset pystr) :=
  foldl (fun idx kv => index_group idx (list_to_set kv.2 ∪ {[kv.1]})) ∅ table.

(** [get_all_synonyms], over the index [idx]. *)
Definition get_all_synonyms (idx : gmap pystr (gset pystr)) (term : pystr)
  : list pystr :=
  let term_lower := lower term in
  let synonyms := default ∅ (idx !! term_lower) in
  let synonyms :=
    if decide (synonyms = ∅) then default ∅ (idx !! term) else synonyms in
  if decide (synonyms = ∅) then [term] else elements synonyms.

(** ** Keyword index and enterprise schemas *)

Definition resource_ids_of (ds : schema_dataset) : list pystr :=
  omap (fun r => match sr_resource_id r with
                 | Some rid => if empty rid then None else Some rid
                 | None => None
                 end) (sd_resources ds).

(** [_enterprise_schema_index], as [_load_enterprise_schemas] builds it. *)
Definition build_schema_index (dss : list schema_dataset)
  : gmap pystr schema_entry :=
  foldl (fun idx ds =>
           foldl (fun idx rid =>
                    <[rid := {| se_categories := sd_categories ds;
                                se_keywords := sd_keywords ds;
                                se_field_availability := sd_field_availability ds |}]> idx)
                 idx (resource_ids_of ds))
        ∅ dss.

Definition extend_bucket (index : gmap pystr (list pystr)) (key : pystr)
    (rids : list pystr) : gmap pystr (list pystr) :=
  <[key := default [] (index !! key) ++ rids]> index.

(** [_keyword_to_resources], as [_load_keyword_index] builds it. *)
Definition build_keyword_index (dss : list schema_dataset)
  : gmap pystr (list pystr) :=
  foldl (fun idx ds =>
           let title := lower (sd_title ds) in
           let resource_ids := resource_ids_of ds in
           match resource_ids with
           | [] => idx
           | _ =>
               let idx := foldl (fun idx kw => extend_bucket idx (lower kw) resource_ids)
                                idx (sd_keywords ds) in
               foldl (fun idx word =>
                        if (2 <? len word) then extend_bucket idx word resource_ids
                        else idx)
                     idx (Py.split title)
           end)
        ∅ dss.

(** The globals as the module sets them on import and first use. *)
Definition module_load (e : env) : globals :=
  let table := dict_merge _BASE_SUBJECT_EXPANSIONS (ENTERPRISE_SUBJECT_EXPANSIONS e) in
  {| SUBJECT_EXPANSIONS := table;
     _BIDIRECTIONAL_EXPANSIONS := _build_bidirectional_index table;
     _enterprise_schema_index := build_schema_index <$> enterprise_schemas_json e;
     _keyword_to_resources :=
       match enterprise_schemas_json e with
       | Some dss => build_keyword_index dss
       | None => ∅
       end;
     _field_index := field_index_json e |}.

Definition get_resource_schema (g : globals) (resource_id : pystr)
  : option schema_entry :=
  match _enterprise_schema_index g with
  | None => None
  | Some index => index !! resource_id
  end.

(** ** Morphological variants *)

Definition is_hebrew_cp (c : N) : bool := ((1424 <=? c) && (c <=? 1535))%N.
Definition has_hebrew (word : pystr) : bool := existsb is_hebrew_cp word.

Definition len_gt (a b : pystr) : bool := len b <? len a.

(** The first prefix, longer ones first, that [word] starts with and that
    leaves at least two characters. *)
Fixpoint strip_first_prefix (word : pystr) (prefixes : list pystr) : pystr :=
  match prefixes with
  | [] => word
  | prefix :: rest =>
      if startswith word prefix && (len prefix + 1 <? len word)
      then drop (len prefix) word
      else strip_first_prefix word rest
  end.

Definition add_singulars (variants : gset pystr) (base : pystr) : gset pystr :=
  foldl (fun vs suffix =>
           if endswith base suffix && (len suffix + 1 <? len base) then
             let singular := take (len base - len suffix) base in
             let vs := vs ∪ {[singular]} in
             if eqb suffix (u "ים") then vs ∪ {[singular ++ u "ה"]} else vs
           else vs)
        variants HEBREW_PLURAL_SUFFIXES.

Definition get_hebrew_variants (word : pystr) : list pystr :=
  if empty word || (len word <? 2) then
    (if empty word then [] else [word])
  else
    let variants : gset pystr := {[word]} ∪ {[lower word]} in
    if negb (has_hebrew word) then elements variants
    else
      let stripped := strip_first_prefix word (sort_desc len_gt HEBREW_PREFIXES) in
      (* [stripped] is [word], which [variants] holds, when no prefix applies *)
      let variants := variants ∪ {[stripped]} in
      elements (foldl add_singulars variants [word; stripped]).

(** ** Tokenizer *)

Definition is_location_like (stripped_lower : pystr) : bool :=
  existsb (fun loc => eqb stripped_lower (lower loc) || contains (lower loc) stripped_lower)
          ISRAELI_LOCATIONS.

(** One round of the loop [for prefix_len in [2, 1]] of
    [_strip_hebrew_prefix]: [Some] is a [return]. *)
Definition strip_prefix_len (word : pystr) (force : bool) (prefix_len : nat)
  : option pystr :=
  if prefix_len + 2 <? len word then
    let prefix := take prefix_len word in
    if mem prefix HEBREW_PREFIXES then
      let stripped := drop prefix_len word in
      if 3 <=? len stripped then
        if negb force then
          if is_location_like (lower stripped) then Some stripped else None
        else Some stripped
      else None
    else None
  else None.

Definition _strip_hebrew_prefix (word : pystr) (force : bool) : pystr :=
  if empty word || (len word <? 4) then word
  else if negb (has_hebrew word) then word
  else
    match strip_prefix_len word force 2 with
    | Some stripped => stripped
    | None =>
        match strip_prefix_len word force 1 with
        | Some stripped => stripped
        | None => word
        end
    end.

(** The character class of the regular expression of [_tokenize_hebrew]:
    white space, comma, full stop, hyphen, colon, semicolon, exclamation and
    question mark, the three pairs of brackets, both quotes and the slash. *)
Definition is_separator (c : N) : bool :=
  isspace_cp c
  || bool_decide (c ∈ [44; 46; 45; 58; 59; 33; 63; 40; 41; 91; 93; 123; 125; 34; 39; 47]%N).

(** The body of the loop over the pieces in [_tokenize_hebrew]. *)
Definition keep_token (strip_prefixes : bool) (result : list pystr) (t : pystr)
  : list pystr :=
  if empty t || (len t <=? 1) || mem t STOP_WORDS then result
  else if strip_prefixes then
    let stripped := _strip_hebrew_prefix t false in
    if negb (empty stripped) && (1 <? len stripped) then result ++ [stripped]
    else if negb (empty t) && (1 <? len t) then result ++ [t]
    else result
  else if 1 <? len t then result ++ [t]
  else result.

Definition _tokenize_hebrew (text : pystr) (strip_prefixes : bool) : list pystr :=
  if empty text then []
  else
    let tokens := re_split is_separator (lower text) in
    foldl (keep_token strip_prefixes) [] tokens.

(** ** Query decomposition *)

Record decomposition := {
  subject_tokens : list pystr;
  location_tokens : list pystr;
  location_tokens_original : list pystr;
  expanded_subjects : list pystr;
  all_tokens : list pystr }.

(** [s == loc or s in loc or loc in s] for some gazetteer entry [loc]. *)
Definition is_known_location (s_lower : pystr) : bool :=
  existsb (fun loc =>
             let loc_lower := lower loc in
             eqb s_lower loc_lower || contains loc_lower s_lower
             || contains s_lower loc_lower)
          ISRAELI_LOCATIONS.

(** The synonyms found for a subject token, with its variants. *)
Definition found_synonyms (g : globals) (token : pystr) : gset pystr :=
  let variants := get_hebrew_variants token in
  let found :=
    foldl (fun (found : gset pystr) variant =>
             let synonyms := get_all_synonyms (_BIDIRECTIONAL_EXPANSIONS g) variant in
             if 1 <? length synonyms then found ∪ list_to_set synonyms else found)
          ∅ variants in
  found ∪ list_to_set variants.

(** The body of the loop over the tokens in [_decompose_query]; the state
    is the four lists the loop appends to. *)
Definition decompose_token (g : globals)
    (st : list pystr * list pystr * list pystr * list pystr) (token : pystr)
  : list pystr * list pystr * list pystr * list pystr :=
  let '(subject, location, location_original, expanded) := st in
  let token_lower := lower token in
  if is_known_location token_lower then
    (subject, location ++ [token], location_original ++ [token], expanded)
  else
    let stripped := _strip_hebrew_prefix token true in
    if negb (eqb stripped token) && is_known_location (lower stripped) then
      (subject, location ++ [stripped], location_original ++ [token], expanded)
    else
      let found := found_synonyms g token in
      (subject ++ [token], location, location_original,
       if decide (found = ∅) then expanded else expanded ++ elements found).

(** The last loop of [_decompose_query]: gazetteer entries that occur in the
    query and are not yet among the location tokens. *)
Definition add_multiword_locations (query_lower : pystr)
    (st : list pystr * list pystr) : list pystr * list pystr :=
  foldl (fun '(location, location_original) loc =>
           let loc_lower := lower loc in
           if contains query_lower loc_lower
              && negb (mem loc location)
              && negb (mem loc_lower (map lower location))
           then (location ++ [loc], location_original ++ [loc])
           else (location, location_original))
        st ISRAELI_LOCATIONS.

Definition _decompose_query (g : globals) (query : pystr) : decomposition :=
  let tokens := _tokenize_hebrew query false in
  let query_lower := lower query in
  let '(subject, location, location_original, expanded) :=
    foldl (decompose_token g) ([], [], [], []) tokens in
  let '(location, location_original) :=
    add_multiword_locations query_lower (location, location_original) in
  {| subject_tokens := subject;
     location_tokens := location;
     location_tokens_original := location_original;
     expanded_subjects := elements (list_to_set expanded : gset pystr);
     all_tokens := tokens |}.

(** ** Rephrasing *)

(** The variant of [token] with the most synonyms, among those with more
    than one; [token] itself when there is none. *)
Definition best_variant (g : globals) (token : pystr) : pystr :=
  fst (foldl (fun '(best, best_score) v =>
                if len v <? 2 then (best, best_score)
                else
                  let synonyms := get_all_synonyms (_BIDIRECTIONAL_EXPANSIONS g) v in
                  if (1 <? length synonyms) && (best_score <? length synonyms)
                  then (v, length synonyms)
                  else (best, best_score))
             (token, 0) (get_hebrew_variants token)).

Definition normalize_tokens (g : globals) (tokens : list pystr) : list pystr :=
  foldl (fun normalized token =>
           if (len token <? 2) || isdigit token then normalized
           else normalized ++ [best_variant g token])
        [] tokens.

Definition is_core_subject (token : pystr) : bool :=
  let token_lower := lower token in
  if mem token_lower HEBREW_STOPWORDS || mem token_lower ENGLISH_STOPWORDS then false
  else if mem token ISRAELI_LOCATIONS
          || existsb (fun loc => eqb (lower loc) token_lower) ISRAELI_LOCATIONS then false
  else if isdigit token then false
  else 2 <=? len token.

(** Strategy 3: the loop over the first two core subjects, left at the first
    term that is appended. *)
Fixpoint category_keyword (g : globals) (rephrased : list pystr)
    (tokens : list pystr) : list pystr :=
  match tokens with
  | [] => rephrased
  | token :: rest =>
      let synonyms := get_all_synonyms (_BIDIRECTIONAL_EXPANSIONS g) token in
      if 1 <? length synonyms then
        match filter (fun s => isascii s && (2 <? len s) = true) synonyms with
        | eng_term :: _ =>
            if negb (mem eng_term rephrased) then rephrased ++ [eng_term]
            else category_keyword g rephrased rest
        | [] => category_keyword g rephrased rest
        end
      else category_keyword g rephrased rest
  end.

Definition rephrase_query (g : globals) (query : pystr) : list pystr :=
  let tokens := _tokenize_hebrew query false in
  match tokens with
  | [] => []
  | _ =>
      let normalized := normalize_tokens g tokens in
      let rephrased :=
        match normalized with
        | [] => []
        | _ =>
            let norm_query := join (u " ") normalized in
            if negb (eqb norm_query query)
               && negb (empty (filter (fun c => isspace_cp c = false) norm_query))
            then [norm_query] else []
        end in
      let core_subjects := filter (fun t => is_core_subject t = true) normalized in
      let rephrased :=
        if negb (length core_subjects =? 0)
           && (length core_subjects <? length normalized) then
          let core_query := join (u " ") (take 3 core_subjects) in
          if negb (empty core_query) && negb (mem core_query rephrased)
          then rephrased ++ [core_query] else rephrased
        else rephrased in
      let rephrased := category_keyword g rephrased (take 2 core_subjects) in
      take 3 rephrased
  end.

(** The text [get_category_suggestion] returns for a vague query. *)
Definition VAGUE_SUGGESTION : pystr :=
  u "Query is too vague. Please specify a domain:" ++ [10%N]
  ++ u "• בריאות (health) - hospitals, clinics, medical data" ++ [10%N]
  ++ u "• חינוך (education) - schools, students, academic" ++ [10%N]
  ++ u "• תחבורה (transport) - vehicles, roads, traffic" ++ [10%N]
  ++ u "• תקציב (budget) - government spending, finance" ++ [10%N]
  ++ u "• מים (water) - water quality, supply" ++ [10%N]
  ++ u "• סביבה (environment) - pollution, nature, climate".

Definition meaningful_tokens (query : pystr) : list pystr :=
  filter (fun t => (2 <? len t) && negb (mem (lower t) HEBREW_STOPWORDS) = true)
         (_tokenize_hebrew query false).

Definition get_category_suggestion (query : pystr) : option pystr :=
  if length (meaningful_tokens query) <? 1 then Some VAGUE_SUGGESTION else None.

(** ** Keyword matches *)

Definition add_score (matches : gmap pystr Q) (score : Q) (rids : list pystr)
  : gmap pystr Q :=
  foldl (fun m rid => <[rid := (default 0 (m !! rid) + score)%Q]> m) matches rids.

(** The two loops of [find_matching_resources] for one token; the state is
    [resource_matches] and [variants_checked]. *)
Definition match_token (g : globals) (resource_matches : gmap pystr Q)
    (token : pystr) : gmap pystr Q :=
  let token_lower := lower token in
  let variants := get_hebrew_variants token in
  let direct :=
    foldl (fun '(matches, checked) variant =>
             let variant_lower := lower variant in
             if decide (variant_lower ∈ (checked : gset pystr)) then (matches, checked)
             else
               let score := if eqb variant_lower token_lower then 1%Q else 0.8%Q in
               (add_score matches score
                          (default [] (_keyword_to_resources g !! variant_lower)),
                checked ∪ {[variant_lower]}))
          (resource_matches, ∅) variants in
  fst (foldl (fun st variant =>
                foldl (fun '(matches, checked) syn =>
                         let syn_lower := lower syn in
                         if decide (syn_lower ∈ (checked : gset pystr)) then (matches, checked)
                         else
                           (add_score matches 0.5%Q
                                      (default [] (_keyword_to_resources g !! syn_lower)),
                            checked ∪ {[syn_lower]}))
                      st (get_all_synonyms (_BIDIRECTIONAL_EXPANSIONS g) variant))
             direct variants).

Definition find_matching_resources (g : globals) (query_tokens : list pystr)
  : gmap pystr Q :=
  if decide (_keyword_to_resources g = ∅) then ∅
  else foldl (match_token g) ∅ query_tokens.

(** ** Scores *)

(** The body of the loop over the subject tokens in
    [_calculate_subject_match]; the state is [matches] and [total_checks]. *)
Definition check_subject_token (text_lower : pystr) (text_tokens : list pystr)
    (acc : Q * Q) (st : pystr) : Q * Q :=
  let '(matches, total_checks) := acc in
  (if mem st text_tokens then matches + 1
   else if contains text_lower st then matches + 0.7
   else matches,
   total_checks + 1)%Q.

(** The body of the loop over the expansions. *)
Definition check_expansion (text_lower : pystr) (acc : Q * Q) (exp : pystr) : Q * Q :=
  let '(matches, total_checks) := acc in
  let exp_lower := lower exp in
  (if contains text_lower exp_lower then matches + 0.8
   else if existsb (fun word => (2 <? len word) && contains text_lower word)
                   (Py.split exp_lower)
        then matches + 0.4
        else matches,
   total_checks + 0.5)%Q.

Definition _calculate_subject_match (subject_tokens expanded_subjects : list pystr)
    (text : pystr) : Q :=
  if empty text then 0%Q
  else if (length subject_tokens =? 0) && (length expanded_subjects =? 0) then 0%Q
  else
    let text_lower := lower text in
    let text_tokens := _tokenize_hebrew text false in
    let checked :=
      foldl (check_subject_token text_lower text_tokens) (0%Q, 0%Q) subject_tokens in
    let '(matches, total_checks) :=
      foldl (check_expansion text_lower) checked expanded_subjects in
    if Qeq_bool total_checks 0 then 0%Q
    else qmin 1 (matches / total_checks).

Definition _calculate_location_match (location_tokens : list pystr) (text : pystr) : Q :=
  if (length location_tokens =? 0) || empty text then 0%Q
  else
    let text_lower := lower text in
    let matches :=
      foldl (fun matches lt => if contains text_lower lt then (matches + 1)%Q else matches)
            0%Q location_tokens in
    qmin 1 (matches / inject_Z (Z.of_nat (length location_tokens))).

(** ** Suggestion *)

Record candidate := {
  dataset_id : option pystr;
  dataset_title : pystr;
  dataset_name : pystr;
  resource_id : option pystr;
  resource_title : pystr;
  format : pystr;
  organization : pystr;
  tags : list pystr;
  score : Q;
  subject_score : Q;
  location_score : Q }.

(** The [decomposition] entry of the result. *)
Record reported_decomposition := {
  rd_subject_tokens : list pystr;
  rd_location_tokens : list pystr;
  rd_expanded_subjects : list pystr;
  rd_all_tokens : list pystr }.

(** The result of [suggest_for_query].  The templates and the message, which
    are rendered from [candidates] and read by nobody in the engine, are
    left out. *)
Record suggestion := {
  sg_query : pystr;
  sg_decomposition : reported_decomposition;
  candidates : list candidate;
  total_matched : nat }.

Definition fmt_bonus (fmt : pystr) : Q :=
  default 0%Q
    (dict_get [ (u "CSV", 0.15); (u "XLSX", 0.12); (u "JSON", 0.10);
                (u "XML", 0.05); (u "PDF", 0.02); (u "API", 0.08) ]%Q fmt).

(** The loop over the categories of the schema: it is left at the first
    category that occurs in the query; a category with an expansion that
    occurs in the query adds its bonus and the loop goes on. *)
Fixpoint category_bonus (g : globals) (query_lower : pystr) (resource_score : Q)
    (categories : list pystr) : Q :=
  match categories with
  | [] => resource_score
  | cat :: rest =>
      if contains query_lower (lower cat) then (resource_score + 0.12)%Q
      else
        let cat_expansions := default [] (dict_get (SUBJECT_EXPANSIONS g) cat) in
        let resource_score :=
          if existsb (fun exp => contains query_lower (lower exp)) cat_expansions
          then (resource_score + 0.10)%Q else resource_score in
        category_bonus g query_lower resource_score rest
  end.

(** The keywords that match, counted up to three. *)
Fixpoint count_keyword_matches (query_lower : pystr) (keyword_matches : nat)
    (keywords : list pystr) : nat :=
  match keywords with
  | [] => keyword_matches
  | kw :: rest =>
      if contains query_lower (lower kw) || contains (lower kw) query_lower then
        if 3 <=? S keyword_matches then S keyword_matches
        else count_keyword_matches query_lower (S keyword_matches) rest
      else count_keyword_matches query_lower keyword_matches rest
  end.

Definition truthy_id (rid : option pystr) : option pystr :=
  match rid with
  | Some s => if empty s then None else Some s
  | None => None
  end.

Definition all_ds_text (ds : dataset) : pystr :=
  let title := or_str (ds_title ds) (or_str (ds_name ds) []) in
  let name := or_str (ds_name ds) [] in
  let org := or_str (ds_organization ds) [] in
  title ++ u " " ++ name ++ u " " ++ join (u " ") (ds_tags ds) ++ u " " ++ org.

Definition score_gt (a b : candidate) : bool := qlt (score b) (score a).

(** The loop of [suggest_for_query] over the datasets, for a query that has
    been decomposed and looked up in the keyword index. *)
Section ScoreLoop.
Variable g : globals.
Variable query : pystr.
Variable decomposed : decomposition.
Variable keyword_resource_scores : gmap pystr Q.

Definition min_subject_threshold : Q :=
  match subject_tokens decomposed with [] => 0 | _ => 0.15 end%Q.

(** The score of one resource of a dataset whose base score is
    [base_score]. *)
Definition resource_score (base_score : Q) (r : resource) : Q :=
  let rt := or_str (r_title r) (or_str (r_name r) []) in
  let fmt := upper (or_str (r_format r) []) in
  let resource_score := base_score in
  let res_subject_score :=
    _calculate_subject_match (subject_tokens decomposed)
                             (expanded_subjects decomposed) rt in
  let resource_score := (resource_score + res_subject_score * 0.15)%Q in
  let resource_score := (resource_score + fmt_bonus fmt)%Q in
  let rid := truthy_id (r_id r) in
  let resource_score :=
    match rid with
    | Some rid' =>
        match get_resource_schema g rid' with
        | Some schema_info =>
            let query_lower := lower query in
            let resource_score :=
              category_bonus g query_lower resource_score (se_categories schema_info) in
            let keyword_matches :=
              count_keyword_matches query_lower 0 (take 25 (se_keywords schema_info)) in
            if 0 <? keyword_matches
            then (resource_score
                  + qmin 0.10 (inject_Z (Z.of_nat keyword_matches) * 0.04))%Q
            else resource_score
        | None => resource_score
        end
    | None => resource_score
    end in
  match rid with
  | Some rid' =>
      match keyword_resource_scores !! rid' with
      | Some s => (resource_score + qmin 0.25 (s * 0.08))%Q
      | None => resource_score
      end
  | None => resource_score
  end.

(** The body of the loop over the datasets: the candidates one dataset
    contributes, none when it is skipped. *)
Definition dataset_candidates (ds : dataset) : list candidate :=
  let title := or_str (ds_title ds) (or_str (ds_name ds) []) in
  let name := or_str (ds_name ds) [] in
  let org := or_str (ds_organization ds) [] in
  let subject_score :=
    _calculate_subject_match (subject_tokens decomposed)
                             (expanded_subjects decomposed) (all_ds_text ds) in
  if negb (length (subject_tokens decomposed) =? 0)
     && qlt subject_score min_subject_threshold
  then []
  else
    let location_score :=
      _calculate_location_match (location_tokens decomposed) (all_ds_text ds) in
    let base_score := (subject_score * 0.7 + location_score * 0.1)%Q in
    omap (fun r =>
            let rs := resource_score base_score r in
            if qlt 0.1 rs then
              Some {| dataset_id := ds_id ds;
                      dataset_title := title;
                      dataset_name := name;
                      resource_id := r_id r;
                      resource_title := or_str (r_title r) (or_str (r_name r) []);
                      format := upper (or_str (r_format r) []);
                      organization := org;
                      tags := take 5 (ds_tags ds);
                      score := Py.round (qmin 1 rs) 3;
                      subject_score := Py.round subject_score 3;
                      location_score := Py.round location_score 3 |}
            else None)
         (ds_resources ds).

End ScoreLoop.

Definition suggest_for_query (g : globals) (query : pystr) (map_data : list dataset)
    (limit : Z) : suggestion :=
  let decomposed := _decompose_query g query in
  let keyword_resource_scores :=
    find_matching_resources g (subject_tokens decomposed ++ expanded_subjects decomposed) in
  let candidates :=
    flat_map (dataset_candidates g query decomposed keyword_resource_scores) map_data in
  let candidates := sort_desc score_gt candidates in
  let top := slice_to limit candidates in
  {| sg_query := query;
     sg_decomposition :=
       {| rd_subject_tokens := subject_tokens decomposed;
          rd_location_tokens := location_tokens decomposed;
          rd_expanded_subjects := take 10 (expanded_subjects decomposed);
          rd_all_tokens := all_tokens decomposed |};
     candidates := top;
     total_matched := length candidates |}.

(** ** Field availability *)

Definition intent_mapping : list (pystr * pystr) :=
  [ (u "phone", u "has_phone"); (u "phones", u "has_phone");
    (u "address", u "has_address"); (u "addresses", u "has_address");
    (u "location", u "has_location"); (u "city", u "has_location");
    (u "email", u "has_email"); (u "date", u "has_date");
    (u "contact", u "has_phone") ].

Definition check_field_availability (g : globals) (resource_id : pystr)
    (intent : pystr) : bool :=
  match dict_get intent_mapping (lower intent) with
  | None => true
  | Some key =>
      let from_schema :=
        match get_resource_schema g resource_id with
        | None => true
        | Some schema => default true (se_field_availability schema !! key)
        end in
      match _field_index g with
      | Some field_index =>
          if decide (field_index = ∅) then from_schema
          else match field_index !! resource_id with
               | Some flags => default true (flags !! key)
               | None => from_schema
               end
      | None => from_schema
      end
  end.

(** The availability key an intent word of the query stands for. *)
Definition relevant_intent (intent : pystr) : option pystr :=
  let intent_lower := lower intent in
  if mem intent_lower [u "phone"; u "phones"; u "telephone"; u "טלפון"; u "contact"]
  then Some (u "phone")
  else if mem intent_lower [u "address"; u "addresses"; u "כתובת"; u "location"; u "מיקום"]
  then Some (u "address")
  else if mem intent_lower [u "email"; u "אימייל"; u "mail"]
  then Some (u "email")
  else if mem intent_lower [u "date"; u "תאריך"; u "time"]
  then Some (u "date")
  else if mem intent_lower [u "city"; u "עיר"; u "district"; u "מחוז"]
  then Some (u "location")
  else None.

Definition all_available (g : globals) (relevant_intents : list pystr)
    (c : candidate) : bool :=
  match truthy_id (resource_id c) with
  | None => false
  | Some rid => forallb (check_field_availability g rid) relevant_intents
  end.

Definition filter_by_field_availability (g : globals) (candidates : list candidate)
    (field_intents : list pystr) : list candidate :=
  match field_intents with
  | [] => candidates
  | _ =>
      let relevant_intents := omap relevant_intent field_intents in
      match relevant_intents with
      | [] => candidates
      | _ =>
          let filtered := filter (fun c => all_available g relevant_intents c = true) candidates in
          match filtered with
          | [] => candidates
          | _ => filtered
          end
      end
  end.

(** ** Field intents and schema fields *)

Definition excluded_fields : list pystr :=
  [ u "x"; u "y"; u "lat"; u "lon"; u "lng"; u "latitude"; u "longitude";
    u "_id"; u "id"; u "itm_x"; u "itm_y"; u "utm_x"; u "utm_y"; u "e_ord";
    u "n_ord" ].

(** [schema_lower[k]] for [schema_lower = {f.lower(): f for f in schema_fields}]:
    the last field whose lower-case form is [k]. *)
Definition schema_lower (schema_fields : list pystr) (k : pystr) : option pystr :=
  last (filter (fun f => lower f = k) schema_fields).

(** The partial match of one pattern: the first field it overlaps. *)
Definition partial_match (pattern_lower : pystr) (schema_fields : list pystr)
  : option pystr :=
  head (filter (fun schema_field =>
                  let field_lower := lower schema_field in
                  negb (mem field_lower excluded_fields || (len field_lower <? 3))
                  && (3 <=? len pattern_lower)
                  && (contains field_lower pattern_lower
                      || contains pattern_lower field_lower) = true)
               schema_fields).

(** The loop over the patterns of one intent: the field that is appended to
    [matched], if one is found. *)
Fixpoint match_patterns (patterns : list pystr) (schema_fields : list pystr)
  : option pystr :=
  match patterns with
  | [] => None
  | pattern :: rest =>
      let pattern_lower := lower pattern in
      let exact :=
        match schema_lower schema_fields pattern_lower with
        | Some field => if negb (mem (lower field) excluded_fields) then Some field else None
        | None => None
        end in
      match exact with
      | Some field => Some field
      | None =>
          match partial_match pattern_lower schema_fields with
          | Some field => Some field
          | None => match_patterns rest schema_fields
          end
      end
  end.

Definition match_intent (intent : pystr) (schema_fields : list pystr) : option pystr :=
  match_patterns (default [intent] (dict_get FIELD_INTENT_MAPPING intent)) schema_fields.

Record field_match := {
  matched_fields : list pystr;
  missing_intents : list pystr;
  all_schema_fields : list pystr }.

Definition match_fields_to_schema (intents : list pystr) (schema_fields : list pystr)
  : field_match :=
  let '(matched, missing) :=
    foldl (fun '(matched, missing) intent =>
             match match_intent intent schema_fields with
             | Some field => (matched ++ [field], missing)
             | None => (matched, missing ++ [intent])
             end)
          ([], []) intents in
  {| matched_fields := elements (list_to_set matched : gset pystr);
     missing_intents := missing;
     all_schema_fields := schema_fields |}.

(** ** [server.py]: the front of [datagov_query] *)

(** The calls into the engine that a request makes, in order. *)
Inductive call :=
| SuggestForQuery (query : pystr)
| RephraseQuery (query : pystr)
| GetCategorySuggestion (query : pystr).

(** What [datagov_query] has decided when it reaches the field intents:
    one of its early returns, or the suggestion it goes on with. *)
Inductive response :=
| ErrorQueryRequired
| ErrorMapNotLoaded
| StatusQueryTooVague (message : pystr)
| StatusNotInDatagov (d : reported_decomposition)
| Continue (result : suggestion) (used_rephrase : option pystr).

(** The [status] entry of a returned dict. *)
Definition status (r : response) : option pystr :=
  match r with
  | StatusQueryTooVague _ => Some (u "query_too_vague")
  | StatusNotInDatagov _ => Some (u "not_in_datagov")
  | _ => None
  end.

Definition MIN_CONFIDENCE : Q := 0.35.

(** [not cs or cs[0].get("score", 0) < MIN_CONFIDENCE]. *)
Definition low_confidence (cs : list candidate) : bool :=
  match cs with
  | [] => true
  | c :: _ => qlt (score c) MIN_CONFIDENCE
  end.

(** The loop over the rephrased queries, left at the first one whose best
    candidate reaches [MIN_CONFIDENCE]. *)
Fixpoint try_rephrased (g : globals) (map_data : list dataset) (alts : list pystr)
  : list call * option (suggestion * pystr) :=
  match alts with
  | [] => ([], None)
  | alt_query :: rest =>
      let alt_result := suggest_for_query g alt_query map_data 5 in
      if negb (low_confidence (candidates alt_result))
      then ([SuggestForQuery alt_query], Some (alt_result, alt_query))
      else
        let '(calls, found) := try_rephrased g map_data rest in
        (SuggestForQuery alt_query :: calls, found)
  end.

Definition datagov_query_front (g : globals) (RESOURCES_MAP : option (list dataset))
    (query : pystr) : list call * response :=
  if empty (filter (fun c => isspace_cp c = false) query) then ([], ErrorQueryRequired)
  else
    match RESOURCES_MAP with
    | None => ([], ErrorMapNotLoaded)
    | Some map_data =>
        let initial := suggest_for_query g query map_data 5 in
        let calls := [SuggestForQuery query] in
        let '(calls, result, used_rephrase) :=
          if low_confidence (candidates initial) then
            let '(tried, found) := try_rephrased g map_data (rephrase_query g query) in
            let calls := calls ++ RephraseQuery query :: tried in
            match found with
            | Some (alt_result, alt_query) => (calls, alt_result, Some alt_query)
            | None => (calls, initial, None)
            end
          else (calls, initial, None) in
        if low_confidence (candidates result) then
          let calls := calls ++ [GetCategorySuggestion query] in
          match get_category_suggestion query with
          | Some vague_suggestion =>
              if negb (empty vague_suggestion)
              then (calls, StatusQueryTooVague vague_suggestion)
              else (calls, StatusNotInDatagov (sg_decomposition result))
          | None => (calls, StatusNotInDatagov (sg_decomposition result))
          end
        else (calls, Continue result used_rephrase)
    end.

(** ** Python floats *)

(** A Python [float] is an IEEE 754 binary64 number: a signed zero, a
    finite number [±m·2^e], an infinity or a nan.  The operations are the
    ones of the standard library's specification of IEEE 754 arithmetic,
    at the precision and the exponent range of binary64, rounding to
    nearest with ties to even. *)
Module Float.

Definition prec : Z := 53.
Definition emax : Z := 1024.

(** [x + y]. *)
Definition add (x y : spec_float) : spec_float := SFadd prec emax x y.

(** The float nearest to the integer [z]; the infinity it gives for an
    integer out of range stands for the [OverflowError] of [float(z)]. *)
Definition of_Z (z : Z) : spec_float := binary_normalize prec emax z 0 false.

(** The float nearest to the fraction [num / den]. *)
Definition nearest (num : Z) (den : positive) : spec_float :=
  match num with
  | Z0 => S754_zero false
  | Zpos p => SFdiv prec emax (S754_finite false p 0) (S754_finite false den 0)
  | Zneg p => SFdiv prec emax (S754_finite true p 0) (S754_finite false den 0)
  end.

Definition is_finite (x : spec_float) : bool :=
  match x with
  | S754_zero _ | S754_finite _ _ _ => true
  | S754_infinity _ | S754_nan => false
  end.

(** The sign bit: [true] for a negative number and for [-0.0]. *)
Definition sign (x : spec_float) : bool :=
  match x with
  | S754_zero s | S754_infinity s | S754_finite s _ _ => s
  | S754_nan => false
  end.

(** The number a finite float stands for. *)
Definition value (x : spec_float) : Q :=
  match x with
  | S754_finite s m e =>
      let z := if s then Zneg m else Zpos m in
      if (0 <=? e)%Z then inject_Z (z * 2 ^ e) else z # Z.to_pos (2 ^ (- e))
  | _ => 0%Q
  end.

End Float.

(** ** [server.py]: the aggregate calculator *)

(** A cell of a fetched record, as JSON gives it. *)
Inductive cell :=
| CNull
| CInt (z : Z)
| CFloat (x : spec_float)
| CStr (s : pystr)
| CBool (b : bool)
| COther.

(** A field of the datastore result: its [id] and its [type]. *)
Record field := { f_id : pystr; f_type : option pystr }.

(** A reported sum: an [int] or a [float]. *)
Inductive number :=
| NInt (z : Z)
| NFloat (x : spec_float).

Record aggregate := { agg_sum : number; agg_count : nat }.

(** What [float(val)] does inside the [try]: it gives a float, it raises
    one of the two exceptions that are caught, or it raises the
    [OverflowError] of an integer out of range, which is not caught. *)
Inductive conversion :=
| Converted (x : spec_float)
| Rejected
| Overflowed.

Definition NUMERIC_TYPES : list pystr :=
  [ u "int"; u "int4"; u "int8"; u "float"; u "float8"; u "numeric";
    u "integer"; u "number" ].

(** [str(z)] for an integer. *)
Definition str_of_int (z : Z) : pystr :=
  u (DecimalString.NilZero.string_of_int (Z.to_int z)).

(** [int(x)]: towards zero. *)
Definition py_int (x : Q) : Z :=
  if Qle_bool 0 x then Qfloor x else Qceiling x.

(** [float(z)] for an integer. *)
Definition float_of_int (z : Z) : conversion :=
  if Float.is_finite (Float.of_Z z) then Converted (Float.of_Z z) else Overflowed.

(** [round(x, 2)] of the finite float with the sign bit [s] and the value
    [q]: the float nearest to [q] rounded half to even at the second
    decimal; a zero keeps the sign. *)
Definition round_to_cents (s : bool) (q : Q) : spec_float :=
  match round_half_even (q * 100) with
  | Z0 => S754_zero s
  | z => Float.nearest z 100
  end.

Section Aggregates.
(** The two conversions of floats from and to text are Python's own:
    [float(s)] for a string [s], [None] when it raises [ValueError], and
    [str(x)] for a float [x].  [float(s)] may be an infinity or a nan. *)
Variable float_of_str : pystr -> option spec_float.
Variable str_of_float : spec_float -> pystr.

(** [r.get(fid)]: [None] for a missing key and for [null]. *)
Definition get_cell (r : gmap pystr cell) (fid : pystr) : option cell :=
  match r !! fid with
  | Some CNull | None => None
  | Some c => Some c
  end.

(** [str(val)]. *)
Definition str_of_cell (c : cell) : pystr :=
  match c with
  | CNull => u "None"
  | CInt z => str_of_int z
  | CFloat x => str_of_float x
  | CStr s => s
  | CBool true => u "True"
  | CBool false => u "False"
  | COther => u "[]"
  end.

(** [float(val)], after the commas of a string are removed. *)
Definition float_of_cell (c : cell) : conversion :=
  match c with
  | CNull => Rejected
  | CInt z => float_of_int z
  | CFloat x => Converted x
  | CStr s =>
      match float_of_str (remove_cp 44 s) with
      | Some x => Converted x
      | None => Rejected
      end
  | CBool b => Converted (Float.of_Z (if b then 1 else 0))
  | COther => Rejected
  end.

Definition looks_numeric (c : cell) : bool :=
  isdigit (remove_cp 45 (remove_cp 46 (remove_cp 44 (str_of_cell c)))).

Definition numeric_fields (records : list (gmap pystr cell)) (fields : list field)
  : list pystr :=
  foldl (fun numeric f =>
           let fid := f_id f in
           let ftype := lower (or_str (f_type f) []) in
           if eqb fid (u "_id") then numeric
           else if mem ftype NUMERIC_TYPES then numeric ++ [fid]
           else if existsb (fun r => match get_cell r fid with
                                     | Some val => looks_numeric val
                                     | None => false
                                     end) (take 5 records)
                then numeric ++ [fid]
                else numeric)
        [] fields.

(** One turn of the loop over the records for one field. *)
Definition add_cell (fid : pystr) (acc : spec_float * nat) (r : gmap pystr cell)
  : option (spec_float * nat) :=
  let '(total, count) := acc in
  match get_cell r fid with
  | Some val =>
      match float_of_cell val with
      | Converted x => Some (Float.add total x, S count)
      | Rejected => Some (total, count)
      | Overflowed => None
      end
  | None => Some (total, count)
  end.

(** The loop over the records for one field: [total] and [count], or
    [None] when a cell raises.  [total] starts as the integer 0, which
    the first addition turns into the float [0.0]. *)
Definition column_total (records : list (gmap pystr cell)) (fid : pystr)
  : option (spec_float * nat) :=
  foldl (fun acc r => acc ≫= fun acc => add_cell fid acc r)
        (Some (S754_zero false, 0)) records.

(** [int(total) if total == int(total) else round(total, 2)]; [None] is
    the exception [int(total)] raises on an infinity and on a nan. *)
Definition reported_sum (total : spec_float) : option number :=
  if Float.is_finite total then
    let q := Float.value total in
    if Qeq_bool q (inject_Z (py_int q)) then Some (NInt (py_int q))
    else Some (NFloat (round_to_cents (Float.sign total) q))
  else None.

(** The entry of one numeric field, added to [sums]. *)
Definition add_field (records : list (gmap pystr cell))
    (sums : gmap pystr aggregate) (fid : pystr) : option (gmap pystr aggregate) :=
  column_total records fid ≫= fun '(total, count) =>
  if 0 <? count
  then reported_sum total ≫= fun s =>
       Some (<[fid := {| agg_sum := s; agg_count := count |}]> sums)
  else Some sums.

(** [None] when the function raises. *)
Definition _calculate_aggregates (records : list (gmap pystr cell))
    (fields : list field) : option (gmap pystr aggregate) :=
  match records with
  | [] => Some ∅
  | _ =>
      foldl (fun sums fid => sums ≫= fun sums => add_field records sums fid)
            (Some ∅) (numeric_fields records fields)
  end.

End Aggregates.

(** ** Vocabulary of the statements *)

(** The group of a raw entry: its key and its expansions. *)
Definition entry_group (kv : pystr * list pystr) : gset pystr :=
  list_to_set kv.2 ∪ {[kv.1]}.

(** Two terms share a group of the raw table. *)
Definition share_group (table : list (pystr * list pystr)) (x y : pystr) : Prop :=
  ∃ kv, kv ∈ table ∧ x ∈ entry_group kv ∧ y ∈ entry_group kv.


Abbreviation synset idx x := (default (∅ : gset pystr) (idx !! x)).

(** The keyword scores [suggest_for_query] looks a query up with. *)
Definition keyword_scores (g : globals) (query : pystr) : gmap pystr Q :=
  let d := _decompose_query g query in
  find_matching_resources g (subject_tokens d ++ expanded_subjects d).

(** The subject score of a dataset for a query. *)
Definition dataset_subject_score (g : globals) (query : pystr) (ds : dataset) : Q :=
  let d := _decompose_query g query in
  _calculate_subject_match (subject_tokens d) (expanded_subjects d) (all_ds_text ds).

(** The score the loop computes for a resource of a dataset. *)
Definition scored (g : globals) (query : pystr) (ds : dataset) (r : resource) : Q :=
  let d := _decompose_query g query in
  let subject_score := dataset_subject_score g query ds in
  let location_score := _calculate_location_match (location_tokens d) (all_ds_text ds) in
  resource_score g query d (keyword_scores g query)
                 (subject_score * 0.7 + location_score * 0.1)%Q r.

(** Descending order of the reported score. *)
Abbreviation by_score := (fun a b : candidate => (score b <= score a)%Q).

(** [text'] keeps what [text] offers to the matcher: every substring of
    its lower-case form and every token. *)
Definition extends_text (text text' : pystr) : Prop :=
  (∀ s, contains (lower text) s = true → contains (lower text') s = true)
  ∧ (∀ t, t ∈ _tokenize_hebrew text false → t ∈ _tokenize_hebrew text' false).

(** The floats of a column that take part in its aggregate: the cells
    that are not null and that [float] converts, in the order of the
    records. *)
Definition numeric_values (float_of_str : pystr → option spec_float)
    (records : list (gmap pystr cell)) (fid : pystr) : list spec_float :=
  omap (fun r => get_cell r fid ≫= fun c =>
                 match float_of_cell float_of_str c with
                 | Converted x => Some x
                 | _ => None
                 end) records.

(** A cell of the column holds an integer that is out of the range of
    [float]. *)
Definition overflows (records : list (gmap pystr cell)) (fid : pystr) : Prop :=
  ∃ r z, r ∈ records ∧ get_cell r fid = Some (CInt z)
         ∧ Float.is_finite (Float.of_Z z) = false.

(** The floats added one after the other, from the left, as the loop adds
    them: every addition rounds. *)
Definition running_total (values : list spec_float) : spec_float :=
  foldl Float.add (S754_zero false) values.

(** The arithmetic sum of a list of numbers. *)
Definition Qsum (values : list Q) : Q := foldr Qplus 0%Q values.

(** The arithmetic sum of the numbers a list of floats stands for. *)
Definition exact_sum (values : list spec_float) : Q := Qsum (Float.value <$> values).

(** A number with no fractional part. *)
Definition integral (x : Q) : Prop := (x == inject_Z (Qfloor x))%Q.

(** A float that is a whole number. *)
Definition whole (x : spec_float) : Prop :=
  Float.is_finite x = true ∧ integral (Float.value x).

(** The column makes [_calculate_aggregates] raise: [float] overflows on one
    of its integers, or the total of its counted cells is an infinity or a
    nan, which [int(total)] does not take. *)
Definition raises (float_of_str : pystr → option spec_float)
    (records : list (gmap pystr cell)) (fid : pystr) : Prop :=
  overflows records fid
  ∨ (numeric_values float_of_str records fid ≠ []
     ∧ Float.is_finite (running_total (numeric_values float_of_str records fid)) = false).

(** The sum of the absolute values of the numbers a list of floats stands
    for. *)
Definition abs_sum (values : list spec_float) : Q :=
  Qsum ((fun x => Qabs (Float.value x)) <$> values).

(** The mantissa [M] at the exponent [e] stands for the integer [S]:
    [M·2^e = S]. *)
Definition stands_for (M e S : Z) : Prop :=
  ((0 ≤ e)%Z → (M * 2 ^ e)%Z = S) ∧ ((e < 0)%Z → M = (S * 2 ^ (- e))%Z).

(** [query.strip()] is not empty. *)
Definition not_blank (query : pystr) : Prop :=
  filter (fun c => isspace_cp c = false) query ≠ [].

(** ** Inputs of the examples *)

(** The module as it loads when [enterprise_expansions.py] cannot be
    imported and no schema file is found. *)
Definition bare_env : env :=
  {| ENTERPRISE_SUBJECT_EXPANSIONS := [];
     enterprise_schemas_json := None;
     field_index_json := None |}.
Definition bare : globals := module_load bare_env.

(** A raw table in which [B] is listed under [a] while its lower-case
    form [b] has a group of its own. *)
Definition mixed_case_table : list (pystr * list pystr) :=
  [ (u "a", [u "B"]); (u "b", [u "c"]) ].

(** The module as it loads when [enterprise_expansions.py] holds that
    table and no schema file is found. *)
Definition mixed_case_env : env :=
  {| ENTERPRISE_SUBJECT_EXPANSIONS := mixed_case_table;
     enterprise_schemas_json := None;
     field_index_json := None |}.

(** Two candidates for the field-availability filter, and a schema in which
    only the first has a phone field. *)
Definition plain_candidate (rid : pystr) (s : Q) : candidate :=
  {| dataset_id := Some (u "ds"); dataset_title := u "clinics"; dataset_name := [];
     resource_id := Some rid; resource_title := []; format := u "CSV";
     organization := []; tags := []; score := s; subject_score := s;
     location_score := 0 |}.
Definition phone_globals : globals :=
  module_load
    {| ENTERPRISE_SUBJECT_EXPANSIONS := [];
       enterprise_schemas_json := None;
       field_index_json :=
         Some (<[u "r1" := {[u "has_phone" := true]}]>
                 (<[u "r2" := {[u "has_phone" := false]}]> ∅)) |}.

(** The corpus of the example of the specification: public hospitals, with
    a CSV resource, and road maintenance in Jerusalem; and a third dataset
    on hospital beds. *)
Definition csv_resource (rid : pystr) : resource :=
  {| r_id := Some rid; r_title := None; r_name := None; r_format := Some (u "CSV") |}.
Definition hospitals_ds : dataset :=
  {| ds_id := Some (u "d1"); ds_title := Some (u "בתי חולים ציבוריים");
     ds_name := None; ds_tags := [u "health"; u "hospital"];
     ds_organization := None; ds_resources := [csv_resource (u "r1")] |}.
Definition roads_ds : dataset :=
  {| ds_id := Some (u "d2"); ds_title := Some (u "Road Maintenance Jerusalem");
     ds_name := None; ds_tags := [u "jerusalem"];
     ds_organization := Some (u "jerusalem"); ds_resources := [csv_resource (u "r2")] |}.
Definition beds_ds : dataset :=
  {| ds_id := Some (u "d3"); ds_title := Some (u "hospitals beds");
     ds_name := None; ds_tags := []; ds_organization := None;
     ds_resources := [csv_resource (u "r3")] |}.

(** Two datasets that differ in one word of the title: the second adds the
    subject token [courts] to a title that holds every Hebrew expansion
    of it. *)
Definition courts_he_ds : dataset :=
  {| ds_id := Some (u "d4"); ds_title := Some (u "בית משפט בתי משפט שופט שפיטה תיקים");
     ds_name := None; ds_tags := []; ds_organization := None;
     ds_resources := [csv_resource (u "r4")] |}.
Definition courts_he_en_ds : dataset :=
  {| ds_id := Some (u "d4");
     ds_title := Some (u "בית משפט בתי משפט שופט שפיטה תיקים courts");
     ds_name := None; ds_tags := []; ds_organization := None;
     ds_resources := [csv_resource (u "r4")] |}.

(** The road dataset with the word [courts] put in front of its title. *)
Definition courts_roads_ds : dataset :=
  {| ds_id := Some (u "d2"); ds_title := Some (u "courts Road Maintenance Jerusalem");
     ds_name := None; ds_tags := [u "jerusalem"];
     ds_organization := Some (u "jerusalem"); ds_resources := [csv_resource (u "r2")] |}.

(** One fetched record with the value 0.001 in a column of type [float]. *)
Definition milli_records : list (gmap pystr cell) :=
  [ {[u "x" := CFloat (Float.nearest 1 1000)]} ].
Definition milli_fields : list field :=
  [ {| f_id := u "_id"; f_type := Some (u "int") |};
    {| f_id := u "x"; f_type := Some (u "float") |} ].

(** Three records with [10^16], [1.0] and [-10^16] in the column [x]. *)
Definition cancelling_records : list (gmap pystr cell) :=
  [ {[u "x" := CInt (10 ^ 16)]}; {[u "x" := CFloat (Float.of_Z 1)]};
    {[u "x" := CInt (- 10 ^ 16)]} ].

(** Records with a number, a number written as text with a comma, text, a
    null and a missing cell in the column [n]. *)
Definition mixed_records : list (gmap pystr cell) :=
  [ {[u "n" := CInt 40]}; {[u "n" := CStr (u "1,5")]}; {[u "n" := CStr (u "n/a")]};
    {[u "n" := CNull]}; ∅; {[u "n" := CFloat (Float.nearest 1 2)]} ].
Definition mixed_fields : list field := [ {| f_id := u "n"; f_type := Some (u "numeric") |} ].

(** One record with the text [nan], and one with the integer [10^400], in
    the column [n]. *)
Definition nan_records : list (gmap pystr cell) := [ {[u "n" := CStr (u "nan")]} ].
Definition huge_records : list (gmap pystr cell) := [ {[u "n" := CInt (10 ^ 400)]} ].

(** Conversions for the examples: [float] of a string of decimal digits
    and of the text [nan], and a [str] that no example calls. *)
Definition digits_float_of_str (s : pystr) : option spec_float :=
  if isdigit s
  then Some (Float.of_Z (Z.of_N (foldl (fun n c => (n * 10 + (c - 48))%N) 0%N s)))
  else if eqb s (u "nan") then Some S754_nan
  else None.
Definition unused_str_of_float (x : spec_float) : pystr := [].

(** A dataset whose title is the two-letter word [zz]. *)
Definition zz_ds : dataset :=
  {| ds_id := Some (u "d5"); ds_title := Some (u "zz"); ds_name := None;
     ds_tags := []; ds_organization := None;
     ds_resources := [ {| r_id := Some (u "r5"); r_title := Some (u "zz");
                          r_name := None; r_format := Some (u "CSV") |} ] |}.

(** ** Further functions of [query_builder.py] *)

(** [get_resources_by_keyword]. *)
Definition get_resources_by_keyword (g : globals) (keyword : pystr) : list pystr :=
  if decide (_keyword_to_resources g = ∅) then []
  else default [] (_keyword_to_resources g !! lower keyword).

(** [_category_to_resources], as [_load_keyword_index] builds it beside the
    keyword index. *)
Definition build_category_index (dss : list schema_dataset)
  : gmap pystr (list pystr) :=
  foldl (fun idx ds =>
           let resource_ids := resource_ids_of ds in
           match resource_ids with
           | [] => idx
           | _ => foldl (fun idx cat => extend_bucket idx (lower cat) resource_ids)
                        idx (sd_categories ds)
           end)
        ∅ dss.

(** [get_resources_by_category], for the schemas the module found. *)
Definition get_resources_by_category (e : env) (category : pystr) : list pystr :=
  match enterprise_schemas_json e with
  | None => []
  | Some dss => default [] (build_category_index dss !! lower category)
  end.

(** [extract_field_intents]: the loop appends an intent when its own name
    occurs in the query, and again at its first pattern that occurs. *)
Definition intents_found (query_lower : pystr) : list pystr :=
  foldl (fun intents '(intent, patterns) =>
           let intents :=
             if contains query_lower intent then intents ++ [intent] else intents in
           if existsb (fun pattern => contains query_lower pattern) patterns
           then intents ++ [intent] else intents)
        [] FIELD_INTENT_MAPPING.

Definition extract_field_intents (query : pystr) : list pystr :=
  elements (list_to_set (intents_found (lower query)) : gset pystr).

(** A field of a schema of [enterprise_schemas.json]. *)
Record schema_field := {
  fd_name : option pystr;
  fd_id : option pystr;
  fd_semantic : option pystr }.

(** [get_semantic_field_name]; [schema] is what [get_resource_schema] returns
    for the resource, as the list of its [fields].  The result is [None] also
    when the field that is found has no name. *)
Definition get_semantic_field_name (schema : option (list schema_field))
    (semantic_type : pystr) : option pystr :=
  match schema with
  | None => None
  | Some fields =>
      match filter (fun f => fd_semantic f = Some semantic_type) fields with
      | f :: _ => fd_name f
      | [] => None
      end
  end.

(** [get_all_semantic_fields]: a later field with the same tag replaces an
    earlier one. *)
Definition get_all_semantic_fields (schema : option (list schema_field))
  : gmap pystr (option pystr) :=
  match schema with
  | None => ∅
  | Some fields =>
      foldl (fun result f =>
               match fd_semantic f with
               | Some semantic =>
                   if empty semantic then result else <[semantic := fd_name f]> result
               | None => result
               end)
            ∅ fields
  end.

(** [LOCATION_FILTER_VALUES] of [query_builder.py], the items in insertion
    order. *)
Definition LOCATION_FILTER_VALUES : list (pystr * list pystr) :=
  [ (u "jerusalem", [ u "ירושלים"; u "Jerusalem"; u "JERUSALEM"; u "3" ]);
    (u "ירושלים", [ u "ירושלים"; u "Jerusalem"; u "JERUSALEM"; u "3" ]);
    (u "tel aviv", [ u "תל אביב"; u "Tel Aviv"; u "TEL AVIV"; u "5"; u "תל-אביב" ]);
    (u "תל אביב", [ u "תל אביב"; u "Tel Aviv"; u "TEL AVIV"; u "5"; u "תל-אביב" ]);
    (u "haifa", [ u "חיפה"; u "Haifa"; u "HAIFA"; u "6" ]);
    (u "חיפה", [ u "חיפה"; u "Haifa"; u "HAIFA"; u "6" ]);
    (u "beer sheva", [ u "באר שבע"; u "Beer Sheva"; u "BEER SHEVA"; u "2"; u "באר-שבע" ]);
    (u "באר שבע", [ u "באר שבע"; u "Beer Sheva"; u "BEER SHEVA"; u "2"; u "באר-שבע" ]);
    (u "netanya", [ u "נתניה"; u "Netanya"; u "NETANYA" ]);
    (u "נתניה", [ u "נתניה"; u "Netanya"; u "NETANYA" ]);
    (u "ashdod", [ u "אשדוד"; u "Ashdod"; u "ASHDOD" ]);
    (u "אשדוד", [ u "אשדוד"; u "Ashdod"; u "ASHDOD" ]);
    (u "north", [ u "צפון"; u "North"; u "NORTH"; u "7" ]);
    (u "צפון", [ u "צפון"; u "North"; u "NORTH"; u "7" ]);
    (u "south", [ u "דרום"; u "South"; u "SOUTH"; u "2" ]);
    (u "דרום", [ u "דרום"; u "South"; u "SOUTH"; u "2" ]);
    (u "center", [ u "מרכז"; u "Center"; u "CENTRAL"; u "4" ]);
    (u "מרכז", [ u "מרכז"; u "Center"; u "CENTRAL"; u "4" ]) ].

(** ** Further functions of [server.py] *)

(** [_clamp_limit], for the two limits the server reads from its
    environment. *)
Definition _clamp_limit (DEFAULT_LIMIT MAX_LIMIT : Z) (value : option Z) : Z :=
  let v := match value with
           | Some v => if (v =? 0)%Z then DEFAULT_LIMIT else v
           | None => DEFAULT_LIMIT
           end in
  let v := if (v <=? 0)%Z then DEFAULT_LIMIT else v in
  if (MAX_LIMIT <? v)%Z then MAX_LIMIT else v.

(** [_score_resource]; the date of the last change is not read. *)
Definition _score_resource (query : option pystr) (ds_title res_title fmt : option pystr)
    (tags : list (option pystr)) : Q :=
  let q := lower (or_str query []) in
  let base :=
    if empty q then 0%Q
    else
      let base := if contains (lower (or_str ds_title [])) q then (0 + 0.4)%Q else 0%Q in
      let base := if contains (lower (or_str res_title [])) q then (base + 0.3)%Q else base in
      if existsb (fun t => contains (lower (or_str t [])) q) tags
      then (base + 0.2)%Q else base in
  let fmt_bonus :=
    default 0%Q
      (dict_get [ (u "CSV", 0.3); (u "XLSX", 0.25); (u "JSON", 0.15);
                  (u "XML", 0.1); (u "PDF", 0.05) ]%Q (upper (or_str fmt []))) in
  qmin 1 (base + fmt_bonus).

(** The field names [_fetch_resource_schema] takes from a schema that is
    found in [enterprise_schemas.json]. *)
Definition precomputed_field_names (fields : list schema_field) : list pystr :=
  omap (fun f =>
          let name := or_str (fd_name f) (or_str (fd_id f) []) in
          if negb (empty name) && negb (eqb name (u "_id")) then Some name else None)
       fields.

(** Step 2 of [datagov_query]: the first candidate in CSV, JSON or XLSX
    with a score above 0.1, else the first candidate; [None] is the
    [IndexError] of [candidates[0]] on an empty list. *)
Definition select_best (cands : list candidate) : option candidate :=
  match filter (fun c => mem (upper (format c)) [u "CSV"; u "JSON"; u "XLSX"]
                         && qlt 0.1 (score c) = true) cands with
  | best :: _ => Some best
  | [] => head cands
  end.

(** What [datagov_query] has when it turns to the schema of the resource. *)
Inductive selection :=
| SelectionIndexError
| ErrorNoResourceId
| Selected (best : candidate) (resource_id : pystr).

(** From the suggestion the front goes on with to the selected resource:
    the early filter by field availability, then step 2. *)
Definition select_resource (g : globals) (result : suggestion) (query : pystr)
  : selection :=
  let early_field_intents := extract_field_intents query in
  let cands :=
    match early_field_intents with
    | [] => candidates result
    | _ => filter_by_field_availability g (candidates result) early_field_intents
    end in
  match select_best cands with
  | None => SelectionIndexError
  | Some best =>
      match truthy_id (resource_id best) with
      | Some rid => Selected best rid
      | None => ErrorNoResourceId
      end
  end.

(** The loop of [datagov_query] over the field intents: the semantic tag of
    the schema first, the patterns of [match_fields_to_schema] else.  The
    state is [matched_fields] and [missing_intents]. *)
Definition match_field_intents (schema : option (list schema_field))
    (field_intents schema_fields : list pystr) : list pystr * list pystr :=
  foldl (fun '(matched, missing) intent =>
           let pattern_matched :=
             matched_fields (match_fields_to_schema [intent] schema_fields) in
           match get_semantic_field_name schema intent with
           | Some semantic_name =>
               if negb (empty semantic_name) && mem semantic_name schema_fields
               then (matched ++ [semantic_name], missing)
               else match pattern_matched with
                    | [] => (matched, missing ++ [intent])
                    | _ => (matched ++ pattern_matched, missing)
                    end
           | None =>
               match pattern_matched with
               | [] => (matched, missing ++ [intent])
               | _ => (matched ++ pattern_matched, missing)
               end
           end)
        ([], []) field_intents.

(** [selected_fields]: the columns the request names, [None] to fetch
    them all. *)
Definition selected_fields (schema : option (list schema_field))
    (field_intents schema_fields : list pystr) : option (list pystr) :=
  match field_intents, schema_fields with
  | [], _ | _, [] => None
  | _, _ =>
      match (match_field_intents schema field_intents schema_fields).1 with
      | [] => None
      | matched => Some matched
      end
  end.

(** The values [datagov_query] collects for the location filter: the
    entry of [LOCATION_FILTER_VALUES] for a token it lists, case folded,
    and the token itself otherwise. *)
Definition location_filter_values (location_tokens : list pystr) : list pystr :=
  foldl (fun values loc =>
           match dict_get LOCATION_FILTER_VALUES (lower loc) with
           | Some listed => values ++ listed
           | None => values ++ [loc]
           end)
        [] location_tokens.

(** The first value with a character beyond ASCII. *)
Definition hebrew_location (values : list pystr) : option pystr :=
  head (filter (fun val => existsb (fun c => (127 <? c)%N) val = true) values).

(** The [q] parameter of the datastore request, when one is set. *)
Definition q_param (location_tokens : list pystr) : option pystr :=
  match location_filter_values location_tokens with
  | [] => None
  | values =>
      match hebrew_location values with
      | Some val => if empty val then None else Some val
      | None => None
      end
  end.

(** The [filter_applied] entry of the metadata. *)
Definition filter_applied (location_tokens : list pystr) : bool :=
  match location_filter_values location_tokens with [] => false | _ => true end.

(** ** Vocabulary of the further statements *)

(** A token as the tokenizer leaves it: two characters or more, no
    separator in it, in lower case. *)
Definition well_formed_token (t : pystr) : Prop :=
  2 ≤ len t ∧ (∀ c, c ∈ t → is_separator c = false) ∧ lower t = t.

(** The bucket of a key in an index from keys to lists of resource ids. *)
Abbreviation bucket idx key := (default ([] : list pystr) (idx !! key)).

(** The keys [_load_keyword_index] files a dataset under: its keywords in
    lower case, and the words of its lower-case title that are longer than
    two characters. *)
Definition keyword_of (ds : schema_dataset) (key : pystr) : Prop :=
  key ∈ map lower (sd_keywords ds)
  ∨ (key ∈ Py.split (lower (sd_title ds)) ∧ 2 < len key).

(** A resource is reached from a query token through the keyword index:
    it is filed under the lower-case form of a variant of the token, or of
    a synonym of a variant. *)
Definition reached_from (g : globals) (token rid : pystr) : Prop :=
  ∃ variant kw,
    variant ∈ get_hebrew_variants token
    ∧ (kw = lower variant
       ∨ ∃ syn, syn ∈ get_all_synonyms (_BIDIRECTIONAL_EXPANSIONS g) variant
                ∧ kw = lower syn)
    ∧ rid ∈ bucket (_keyword_to_resources g) kw.

(** The candidates of a query in the order of the corpus, before they are
    sorted and cut. *)
Definition matched_in_corpus_order (g : globals) (query : pystr)
    (map_data : list dataset) : list candidate :=
  flat_map (dataset_candidates g query (_decompose_query g query) (keyword_scores g query))
           map_data.

(** The candidates of a list that have the score [s]. *)
Definition with_score (s : Q) (cs : list candidate) : list candidate :=
  filter (fun c => Qeq_bool (score c) s = true) cs.

(** A call is a search of the corpus. *)
Definition is_search (c : call) : bool :=
  match c with SuggestForQuery _ => true | _ => false end.

(** Every resource of the corpus has an id that is not empty. *)
Definition resources_have_ids (map_data : list dataset) : Prop :=
  ∀ ds r, ds ∈ map_data → r ∈ ds_resources ds → truthy_id (r_id r) ≠ None.

(** An expansion occurs in a lower-case text: as it is, case folded, or
    through one of its words that is longer than two characters. *)
Definition expansion_occurs (text_lower exp : pystr) : Prop :=
  contains text_lower (lower exp) = true
  ∨ ∃ word, word ∈ Py.split (lower exp) ∧ 2 < len word
            ∧ contains text_lower word = true.

(** ** Inputs of the further examples *)

(** A schema file with one dataset, which lists one resource with an id
    and one without. *)
Definition clinics_schema : schema_dataset :=
  {| sd_title := u "Health Clinics";
     sd_keywords := [u "Clinic"];
     sd_categories := [u "Health"];
     sd_field_availability := {[u "has_phone" := true]};
     sd_resources := [ {| sr_resource_id := Some (u "r1") |};
                       {| sr_resource_id := None |} ] |}.
Definition clinics_env : env :=
  {| ENTERPRISE_SUBJECT_EXPANSIONS := [];
     enterprise_schemas_json := Some [clinics_schema];
     field_index_json := None |}.

(** * Properties *)

(** ** The bidirectional index *)

Lemma index_terms_lookup (group : gset pystr) (terms : list pystr)
    (idx : gmap pystr (gset pystr)) (x : pystr) :
  synset (foldl (fun idx term => <[term := synset idx term ∪ group]> idx) idx terms) x
  = if decide (x ∈ terms) then synset idx x ∪ group else synset idx x.
Proof.
  revert idx. induction terms as [|t terms IH]; intros idx; simpl.
  - destruct (decide (x ∈ [])) as [H|H]; [by apply not_elem_of_nil in H | done].
  - rewrite IH. destruct (decide (t = x)) as [->|Hne].
    + rewrite lookup_insert_eq. simpl.
      rewrite (decide_True (P := x ∈ x :: terms)) by left.
      case_decide; set_solver.
    + rewrite lookup_insert_ne by done.
      repeat case_decide; try done; set_solver.
Qed.

Lemma index_group_lookup idx group x :
  synset (index_group idx group) x
  = if decide (x ∈ group) then synset idx x ∪ group else synset idx x.
Proof.
  unfold index_group. rewrite index_terms_lookup.
  repeat case_decide; try done; set_solver.
Qed.

(** What the index holds: [y] is a synonym of [x] exactly when some raw
    entry has both in its group. *)
Lemma build_index_spec_from table idx x y :
  y ∈ synset (foldl (fun idx kv => index_group idx (list_to_set kv.2 ∪ {[kv.1]})) idx table) x
  ↔ y ∈ synset idx x ∨ share_group table x y.
Proof.
  revert idx. induction table as [|kv table IH]; intros idx; simpl.
  - split; [by left|]. intros [?|(kv & H & _)]; [done|]. by apply not_elem_of_nil in H.
  - rewrite IH, index_group_lookup. fold (entry_group kv). split.
    + intros [H|(kv' & ? & ? & ?)].
      * case_decide as Hx.
        -- apply elem_of_union in H as [H|H]; [by left|].
           right. exists kv. split; [left|done].
        -- by left.
      * right. exists kv'. split; [by right|done].
    + intros [H|(kv' & Hin & Hx & Hy)].
      * left. case_decide; set_solver.
      * apply elem_of_cons in Hin as [->|Hin].
        -- left. rewrite decide_True by done. set_solver.
        -- right. by exists kv'.
Qed.

Lemma build_index_spec table x y :
  y ∈ synset (_build_bidirectional_index table) x ↔ share_group table x y.
Proof.
  unfold _build_bidirectional_index. rewrite build_index_spec_from.
  rewrite lookup_empty. simpl. set_solver.
Qed.

Lemma share_group_sym table x y : share_group table x y → share_group table y x.
Proof. intros (kv & ? & ? & ?). by exists kv. Qed.

Lemma share_group_refl_l table x y : share_group table x y → share_group table x x.
Proof. intros (kv & ? & ? & ?). by exists kv. Qed.

(** A term of the index is its own synonym, so its entry is not empty. *)
Lemma build_index_self table x :
  synset (_build_bidirectional_index table) x ≠ ∅
  → x ∈ synset (_build_bidirectional_index table) x.
Proof.
  intros H. apply set_choose_L in H as [y Hy].
  apply build_index_spec in Hy. apply build_index_spec.
  by eapply share_group_refl_l.
Qed.


(** C8. [get_all_synonyms] is total and never returns the empty list: it
    returns the entry of the case-folded term when the index has one, else
    the entry of the term as it is written, and the one-element list of the
    term itself when the index has neither. *)
Theorem get_all_synonyms_never_empty (idx : gmap pystr (gset pystr)) (t : pystr) :
  get_all_synonyms idx t ≠ []
  ∧ (∀ s, idx !! lower t = Some s ∧ s ≠ ∅ → get_all_synonyms idx t = elements s)
  ∧ (∀ s, synset idx (lower t) = ∅ ∧ idx !! t = Some s ∧ s ≠ ∅
          → get_all_synonyms idx t = elements s)
  ∧ (synset idx (lower t) = ∅ ∧ synset idx t = ∅ → get_all_synonyms idx t = [t]).
Proof.
  assert (Hne : ∀ s : gset pystr, s ≠ ∅ → elements s ≠ []).
  { intros s Hs He. apply Hs. by apply elements_empty_inv, leibniz_equiv in He. }
  unfold get_all_synonyms. cbv zeta. split; [|split; [|split]].
  - repeat case_decide; try done; by apply Hne.
  - intros s [H Hs]. rewrite H. simpl.
    destruct (decide (s = ∅)); [done|]. by destruct (decide (s = ∅)).
  - intros s (H1 & H2 & Hs). rewrite H1, H2. simpl.
    destruct (decide (∅ = ∅)); [|done]. by destruct (decide (s = ∅)).
  - intros [H1 H2]. rewrite H1, H2.
    destruct (decide (∅ = ∅)); [|done]. by destruct (decide (∅ = ∅)).
Qed.

(** C2.  The index is symmetric for every raw table, and two terms are in
    each other's entry exactly when they share a group; but the lookup of
    [get_all_synonyms] is not symmetric.  With the entries [a: [B]] and
    [b: [c]] in [enterprise_expansions.py], merged over the base table as
    the module does on import, [a] and [B] share a group and [B] is a
    synonym of [a], while the lookup of [B] is diverted to the entry of its
    lower-case form [b] and returns the group of [b], which does not hold
    [a]. *)
Theorem get_all_synonyms_not_symmetric :
  (∀ table x term,
     let idx := _build_bidirectional_index table in
     (term ∈ synset idx x ↔ x ∈ synset idx term)
     ∧ (term ∈ synset idx x ↔ share_group table x term))
  ∧ (let g := module_load mixed_case_env in
     let idx := _BIDIRECTIONAL_EXPANSIONS g in
     share_group (SUBJECT_EXPANSIONS g) (u "a") (u "B")
     ∧ synset idx (u "B") = {[u "a"; u "B"]}
     ∧ u "B" ∈ get_all_synonyms idx (u "a")
     ∧ u "a" ∉ get_all_synonyms idx (u "B")
     ∧ get_all_synonyms idx (u "B") = get_all_synonyms idx (u "b")
     ∧ (∀ t, t ∈ get_all_synonyms idx (u "B") ↔ t = u "b" ∨ t = u "c")).
Proof.
  split.
  - intros table x term idx. subst idx. rewrite !build_index_spec.
    split; [split; apply share_group_sym|done].
  - cbv zeta. split_and!.
    + exists (u "a", [u "B"]). split; [|by vm_compute].
      apply (bool_decide_unpack _). by vm_compute.
    + apply (bool_decide_unpack _). by vm_compute.
    + apply (bool_decide_unpack _). by vm_compute.
    + apply (bool_decide_unpack _). by vm_compute.
    + by vm_compute.
    + intros t.
      assert (get_all_synonyms (_BIDIRECTIONAL_EXPANSIONS (module_load mixed_case_env)) (u "B")
              ≡ₚ [u "b"; u "c"]) as ->.
      { apply (bool_decide_unpack _). by vm_compute. }
      rewrite !elem_of_cons, elem_of_nil. tauto.
Qed.



(** Both directions hold on the base table: each of the two terms is a
    synonym of the other. *)
Example synonym_lookup_base_table :
  let idx := _build_bidirectional_index (SUBJECT_EXPANSIONS bare) in
  u "משפט" ∈ get_all_synonyms idx (u "court")
  ∧ u "court" ∈ get_all_synonyms idx (u "משפט")
  ∧ get_all_synonyms idx (u "Court") = get_all_synonyms idx (u "court")
  ∧ get_all_synonyms idx (u "zebra") = [u "zebra"].
Proof.
  cbv zeta. split_and!; try (apply (bool_decide_unpack _)); by vm_compute.
Qed.

(** ** Field availability *)

(** C3. Filtering by field availability never empties a non-empty list of
    candidates: when no intent maps to an availability key, or no candidate
    has all the requested fields, the candidates come back unchanged;
    otherwise the candidates that have them all come back. *)
Theorem filter_by_field_availability_graceful (g : globals)
    (cands : list candidate) (field_intents : list pystr) :
  cands ≠ [] →
  filter_by_field_availability g cands field_intents ≠ []
  ∧ (let relevant_intents := omap relevant_intent field_intents in
     let passing := filter (fun c => all_available g relevant_intents c = true) cands in
     (relevant_intents = [] ∨ passing = []
      → filter_by_field_availability g cands field_intents = cands)
     ∧ (relevant_intents ≠ [] ∧ passing ≠ []
        → filter_by_field_availability g cands field_intents = passing)).
Proof.
  intros Hne. unfold filter_by_field_availability.
  destruct field_intents as [|i rest]; [simpl; split; [done|split; [done|tauto]]|].
  set (relevant := omap relevant_intent (i :: rest)).
  destruct relevant as [|r rs] eqn:Hrel; [split; [done|split; [done|tauto]]|].
  set (passing := filter _ cands).
  destruct passing as [|c cs] eqn:Hpass.
  - split; [done|]. split; [done|]. by intros [_ ?].
  - split; [done|]. split; [|done]. by intros [?|?].
Qed.

Lemma filter_by_field_availability_graceful_witness :
  [plain_candidate (u "r1") 0.5; plain_candidate (u "r2") 0.4] ≠ []
  ∧ filter_by_field_availability phone_globals
      [plain_candidate (u "r1") 0.5; plain_candidate (u "r2") 0.4] [u "phone"] ≠ [].
Proof.
  split; [discriminate|].
  apply (filter_by_field_availability_graceful phone_globals
           [plain_candidate (u "r1") 0.5; plain_candidate (u "r2") 0.4] [u "phone"]).
  discriminate.
Defined.

(** The filter at work: the candidate without a phone field is dropped,
    and when no candidate has one they all stay. *)
Example filter_by_field_availability_drops :
  filter_by_field_availability phone_globals
    [plain_candidate (u "r1") 0.5; plain_candidate (u "r2") 0.4] [u "phone"]
  = [plain_candidate (u "r1") 0.5]
  ∧ filter_by_field_availability phone_globals
      [plain_candidate (u "r2") 0.4] [u "phone"]
    = [plain_candidate (u "r2") 0.4].
Proof. split; by vm_compute. Qed.

(** ** Field intents against a schema *)

Lemma schema_lower_Some fields k f :
  schema_lower fields k = Some f → f ∈ fields ∧ lower f = k.
Proof.
  unfold schema_lower. intros H. apply last_Some in H as [l H].
  assert (Hin : f ∈ filter (fun f => lower f = k) fields).
  { rewrite H. apply elem_of_app. right. left. }
  by apply list_elem_of_filter in Hin as [? ?].
Qed.

Lemma partial_match_Some pattern_lower fields f :
  partial_match pattern_lower fields = Some f
  → f ∈ fields ∧ mem (lower f) excluded_fields = false.
Proof.
  unfold partial_match. intros H. apply head_Some in H as [l H].
  match type of H with filter ?P _ = _ =>
    assert (Hin : f ∈ filter P fields) by (rewrite H; left) end.
  apply list_elem_of_filter in Hin as [Hp ?]. split; [done|].
  apply andb_true_iff in Hp as [Hp _]. apply andb_true_iff in Hp as [Hp _].
  apply negb_true_iff, orb_false_iff in Hp as [? _]. done.
Qed.

Lemma match_patterns_Some patterns fields f :
  match_patterns patterns fields = Some f
  → f ∈ fields ∧ mem (lower f) excluded_fields = false.
Proof.
  induction patterns as [|p ps IH]; simpl; [done|].
  destruct (schema_lower fields (lower p)) as [f'|] eqn:Hex.
  - destruct (mem (lower f') excluded_fields) eqn:Hexcl; simpl.
    + destruct (partial_match (lower p) fields) eqn:Hpart; [|done].
      intros [= ->]. by eapply partial_match_Some.
    + intros [= ->]. split; [|done]. by apply schema_lower_Some in Hex as [? _].
  - destruct (partial_match (lower p) fields) eqn:Hpart; [|done].
    intros [= ->]. by eapply partial_match_Some.
Qed.

(** The loop over the intents appends the field of every intent that finds
    one, and the intent itself otherwise. *)
Lemma match_loop_spec fields intents matched missing :
  foldl (fun '(matched, missing) intent =>
           match match_intent intent fields with
           | Some field => (matched ++ [field], missing)
           | None => (matched, missing ++ [intent])
           end) (matched, missing) intents
  = (matched ++ omap (fun i => match_intent i fields) intents,
     missing ++ filter (fun i => match_intent i fields = None) intents).
Proof.
  revert matched missing. induction intents as [|i rest IH]; intros matched missing; simpl.
  - by rewrite !app_nil_r.
  - destruct (match_intent i fields) as [f|] eqn:Hi; rewrite IH.
    + rewrite filter_cons_False by (by rewrite Hi). by rewrite <- app_assoc.
    + rewrite filter_cons_True by done. by rewrite <- app_assoc.
Qed.

(** C10. The matched fields are listed once each, every one of them is a
    field of the schema that an intent matched and none is a coordinate or
    internal field; every intent either contributed its field to the
    matched fields or is reported missing. *)
Theorem match_fields_to_schema_invariant (intents schema_fields : list pystr) :
  let r := match_fields_to_schema intents schema_fields in
  NoDup (matched_fields r)
  ∧ (∀ f, f ∈ matched_fields r
          ↔ ∃ intent, intent ∈ intents ∧ match_intent intent schema_fields = Some f)
  ∧ (∀ f, f ∈ matched_fields r → f ∈ schema_fields ∧ lower f ∉ excluded_fields)
  ∧ (∀ intent, intent ∈ intents →
       (∃ f, match_intent intent schema_fields = Some f ∧ f ∈ matched_fields r)
       ∨ intent ∈ missing_intents r)
  ∧ (∀ intent, intent ∈ missing_intents r
               ↔ intent ∈ intents ∧ match_intent intent schema_fields = None)
  ∧ all_schema_fields r = schema_fields.
Proof.
  unfold match_fields_to_schema. rewrite match_loop_spec. simpl.
  assert (Hm : ∀ f, f ∈ elements (list_to_set
                 (omap (fun i => match_intent i schema_fields) intents) : gset pystr)
               ↔ ∃ intent, intent ∈ intents ∧ match_intent intent schema_fields = Some f).
  { intros f. rewrite elem_of_elements, elem_of_list_to_set, list_elem_of_omap. done. }
  split; [apply NoDup_elements|]. split; [done|]. split; [|split; [|split; [|done]]].
  - intros f Hf. apply Hm in Hf as (i & _ & Hi).
    apply match_patterns_Some in Hi as [? Hex]. split; [done|].
    unfold mem in Hex. by apply bool_decide_eq_false in Hex.
  - intros i Hi. destruct (match_intent i schema_fields) as [f|] eqn:Hf.
    + left. exists f. split; [done|]. apply Hm. by exists i.
    + right. by apply list_elem_of_filter.
  - intros i. by rewrite list_elem_of_filter, (and_comm (_ = None)).
Qed.

(** An intent matched through the pattern list, and one that is missing. *)
Example match_fields_to_schema_example :
  match_fields_to_schema [u "phone"; u "email"] [u "_id"; u "Name"; u "Telephone"]
  = {| matched_fields := [u "Telephone"];
       missing_intents := [u "email"];
       all_schema_fields := [u "_id"; u "Name"; u "Telephone"] |}.
Proof. by vm_compute. Qed.

(** ** Rationals, rounding, sorting and slicing *)

Lemma qlt_true a b : qlt a b = true ↔ (a < b)%Q.
Proof.
  unfold qlt. rewrite negb_true_iff. split.
  - intros H. apply Qnot_le_lt. intros Hle. apply Qle_bool_iff in Hle. congruence.
  - intros H. destruct (Qle_bool b a) eqn:E; [|done].
    apply Qle_bool_iff in E. by apply Qlt_not_le in H.
Qed.

Lemma qlt_false a b : qlt a b = false ↔ (b <= a)%Q.
Proof. unfold qlt. rewrite negb_false_iff. apply Qle_bool_iff. Qed.

Lemma qmin_cases a b :
  ((a <= b)%Q ∧ qmin a b = a) ∨ ((b < a)%Q ∧ qmin a b = b).
Proof.
  unfold qmin. destruct (Qle_bool a b) eqn:E.
  - left. split; [by apply Qle_bool_iff|done].
  - right. split; [|done]. apply Qnot_le_lt. intros H.
    apply Qle_bool_iff in H. congruence.
Qed.

Lemma qmin_le_l a b : (qmin a b <= a)%Q.
Proof.
  unfold qmin. destruct (Qle_bool a b) eqn:E; [apply Qle_refl|].
  apply Qlt_le_weak, Qnot_le_lt. intros H. apply Qle_bool_iff in H. congruence.
Qed.

Lemma qmin_glb c a b : (c <= a)%Q → (c <= b)%Q → (c <= qmin a b)%Q.
Proof. unfold qmin. by destruct (Qle_bool a b). Qed.

(** Rounding half to even stays between the integers that bound its
    argument. *)
Lemma round_half_even_bounds (a b : Z) (y : Q) :
  (inject_Z a <= y)%Q → (y <= inject_Z b)%Q →
  (a ≤ round_half_even y ≤ b)%Z.
Proof.
  intros Ha Hb.
  assert (Hfa : (a ≤ Qfloor y)%Z).
  { rewrite <- (Qfloor_Z a). by apply Qfloor_resp_le. }
  assert (Hfb : (Qfloor y ≤ b)%Z).
  { rewrite <- (Qfloor_Z b). by apply Qfloor_resp_le. }
  assert (Hup : (y - inject_Z (Qfloor y) > 0)%Q → (Qfloor y + 1 ≤ b)%Z).
  { intros Hd. destruct (Z.eq_dec (Qfloor y) b) as [Heq|]; [|lia].
    exfalso. rewrite Heq in Hd. lra. }
  unfold round_half_even.
  destruct (y - inject_Z (Qfloor y) ?= 1 # 2)%Q eqn:Hc.
  - apply Qeq_alt in Hc. destruct (Z.even (Qfloor y)); [lia|].
    split; [lia|]. apply Hup. lra.
  - lia.
  - apply Qgt_alt in Hc. split; [lia|]. apply Hup. lra.
Qed.

Lemma round_unit_interval (x : Q) (n : nat) :
  (0 <= x)%Q → (x <= 1)%Q → (0 <= Py.round x n)%Q ∧ (Py.round x n <= 1)%Q.
Proof.
  intros H0 H1. unfold Py.round.
  set (s := (10 ^ Z.of_nat n)%Z).
  assert (Hs : (0 < s)%Z) by (apply Z.pow_pos_nonneg; lia).
  assert (Hsq : (0 < inject_Z s)%Q).
  { unfold Qlt. simpl. lia. }
  destruct (round_half_even_bounds 0 s (x * inject_Z s)) as [Hl Hu].
  - change (inject_Z 0) with 0%Q. nra.
  - nra.
  - unfold Qle. simpl. rewrite Z2Pos.id by done. lia.
Qed.

Lemma insert_desc_elem_of {A} (gt : A → A → bool) x y l :
  y ∈ insert_desc gt x l ↔ y = x ∨ y ∈ l.
Proof.
  induction l as [|z l IH]; simpl.
  - rewrite list_elem_of_singleton. set_solver.
  - destruct (gt z x); rewrite !elem_of_cons; [rewrite IH|]; tauto.
Qed.

Lemma sort_desc_elem_of {A} (gt : A → A → bool) y l :
  y ∈ sort_desc gt l ↔ y ∈ l.
Proof.
  induction l as [|x l IH]; simpl; [done|].
  rewrite insert_desc_elem_of, IH, elem_of_cons. tauto.
Qed.

Lemma insert_desc_length {A} (gt : A → A → bool) x l :
  length (insert_desc gt x l) = S (length l).
Proof. induction l as [|z l IH]; simpl; [done|]. destruct (gt z x); simpl; lia. Qed.

Lemma sort_desc_length {A} (gt : A → A → bool) l :
  length (sort_desc gt l) = length l.
Proof. induction l as [|x l IH]; simpl; [done|]. by rewrite insert_desc_length, IH. Qed.

Lemma insert_by_score_sorted x l :
  StronglySorted by_score l → StronglySorted by_score (insert_desc score_gt x l).
Proof.
  induction 1 as [|y l Hl IH Hy]; simpl.
  - repeat constructor.
  - destruct (score_gt y x) eqn:Hgt.
    + constructor; [done|]. apply Forall_forall. intros z Hz.
      apply insert_desc_elem_of in Hz as [->|Hz].
      * apply qlt_true in Hgt. by apply Qlt_le_weak.
      * by eapply Forall_forall in Hy.
    + apply qlt_false in Hgt. constructor; [by constructor|].
      constructor; [done|]. eapply Forall_impl; [exact Hy|].
      simpl. intros z Hz. by eapply Qle_trans.
Qed.

Lemma sort_by_score_sorted l : StronglySorted by_score (sort_desc score_gt l).
Proof.
  induction l as [|x l IH]; simpl; [constructor|]. by apply insert_by_score_sorted.
Qed.

Lemma take_elem_of {A} (n : nat) (l : list A) x : x ∈ take n l → x ∈ l.
Proof.
  revert n. induction l as [|y l IH]; intros [|n]; simpl; try by inversion 1.
  rewrite !elem_of_cons. intros [?|?]; [by left|right; eauto].
Qed.

Lemma StronglySorted_take {A} (R : A → A → Prop) n l :
  StronglySorted R l → StronglySorted R (take n l).
Proof.
  intros H. revert n. induction H as [|x l Hl IH Hx]; intros [|n]; simpl;
    try constructor; [done|].
  apply Forall_forall. intros y Hy. eapply Forall_forall in Hx; [done|].
  by eapply take_elem_of.
Qed.

Lemma slice_to_elem_of {A} (n : Z) (l : list A) x : x ∈ slice_to n l → x ∈ l.
Proof. unfold slice_to. destruct (0 <=? n)%Z; apply take_elem_of. Qed.

Lemma slice_to_sorted {A} (R : A → A → Prop) n l :
  StronglySorted R l → StronglySorted R (slice_to n l).
Proof. unfold slice_to. destruct (0 <=? n)%Z; apply StronglySorted_take. Qed.

Lemma slice_to_length_neg {A} (n : Z) (l : list A) :
  (n < 0)%Z → length (slice_to n l) = length l - Z.to_nat (- n).
Proof.
  intros Hn. unfold slice_to.
  destruct (0 <=? n)%Z eqn:E; [apply Z.leb_le in E; lia|].
  rewrite length_take. lia.
Qed.

Lemma slice_to_length {A} (n : Z) (l : list A) :
  (0 ≤ n)%Z → (Z.of_nat (length (slice_to n l)) ≤ n)%Z.
Proof.
  intros Hn. unfold slice_to. rewrite (proj2 (Z.leb_le 0 n)) by done.
  rewrite length_take. lia.
Qed.

(** ** The subject-first filter and the candidates of a suggestion *)

Lemma dataset_candidates_skipped g query ds :
  subject_tokens (_decompose_query g query) ≠ [] →
  (dataset_subject_score g query ds < 0.15)%Q →
  dataset_candidates g query (_decompose_query g query) (keyword_scores g query) ds = [].
Proof.
  unfold dataset_subject_score, dataset_candidates, min_subject_threshold. cbv zeta.
  intros Hne Hlt. destruct (subject_tokens (_decompose_query g query)); [done|].
  simpl. by rewrite (proj2 (qlt_true _ _) Hlt).
Qed.

(** C1. When the query has subject tokens, a dataset whose subject score is
    below 0.15 contributes no candidate: the result is the one the corpus
    without that dataset gives, whatever the location tokens match. *)
Theorem subject_first_hard_filter (g : globals) (query : pystr)
    (before after : list dataset) (ds : dataset) (limit : Z) :
  subject_tokens (_decompose_query g query) ≠ [] →
  (dataset_subject_score g query ds < 0.15)%Q →
  dataset_candidates g query (_decompose_query g query) (keyword_scores g query) ds = []
  ∧ suggest_for_query g query (before ++ ds :: after) limit
    = suggest_for_query g query (before ++ after) limit.
Proof.
  intros Hne Hlt.
  pose proof (dataset_candidates_skipped g query ds Hne Hlt) as Hskip.
  split; [done|]. unfold suggest_for_query. cbv zeta.
  fold (keyword_scores g query).
  rewrite !flat_map_app. simpl. by rewrite Hskip.
Qed.

Lemma subject_first_hard_filter_witness :
  subject_tokens (_decompose_query bare (u "hospitals in jerusalem")) ≠ []
  ∧ (dataset_subject_score bare (u "hospitals in jerusalem") roads_ds < 0.15)%Q
  ∧ suggest_for_query bare (u "hospitals in jerusalem") ([hospitals_ds] ++ roads_ds :: []) 10
    = suggest_for_query bare (u "hospitals in jerusalem") ([hospitals_ds] ++ []) 10.
Proof.
  assert (H1 : subject_tokens (_decompose_query bare (u "hospitals in jerusalem")) ≠ [])
    by (by vm_compute).
  assert (H2 : (dataset_subject_score bare (u "hospitals in jerusalem") roads_ds < 0.15)%Q)
    by (by vm_compute).
  split; [exact H1|]. split; [exact H2|].
  apply (subject_first_hard_filter bare (u "hospitals in jerusalem")
           [hospitals_ds] [] roads_ds 10 H1 H2).
Defined.

(** The road dataset matches the location of the query in its title, its
    tags and its organization, and is skipped all the same. *)
Example location_match_does_not_rescue :
  let d := _decompose_query bare (u "hospitals in jerusalem") in
  subject_tokens d = [u "hospitals"]
  ∧ location_tokens d = [u "jerusalem"]
  ∧ _calculate_location_match (location_tokens d) (all_ds_text roads_ds) = 1%Q
  ∧ map resource_id
        (candidates (suggest_for_query bare (u "hospitals in jerusalem")
                                       [hospitals_ds; roads_ds] 10))
    = [Some (u "r1")].
Proof. cbv zeta. split_and!; by vm_compute. Qed.

(** Where a candidate comes from. *)
Lemma dataset_candidates_elem_of g query ds c :
  c ∈ dataset_candidates g query (_decompose_query g query) (keyword_scores g query) ds →
  ∃ r, r ∈ ds_resources ds
       ∧ (0.1 < scored g query ds r)%Q
       ∧ score c = Py.round (qmin 1 (scored g query ds r)) 3
       ∧ resource_id c = r_id r ∧ dataset_id c = ds_id ds.
Proof.
  unfold dataset_candidates. cbv zeta.
  destruct (_ && _); [by intros ?%not_elem_of_nil|].
  intros (r & Hr & Hc)%list_elem_of_omap. exists r. split; [done|].
  fold (dataset_subject_score g query ds) in Hc. fold (scored g query ds r) in Hc.
  destruct (qlt 0.1 (scored g query ds r)) eqn:Hgt; [|done].
  apply qlt_true in Hgt. injection Hc as <-. done.
Qed.

(** C7.  Every candidate of a result is a resource of the corpus whose
    score exceeds 0.1, and reports that score capped at 1 and rounded; the
    reported scores lie in [0,1]; the candidates are in descending order of
    score; and there are at most as many as the limit, which is a count.
    A limit below zero is not a count: the cut then drops that many
    candidates from the end of the ranking. *)
Theorem suggest_for_query_candidates (g : globals) (query : pystr)
    (map_data : list dataset) (limit : Z) :
  let result := suggest_for_query g query map_data limit in
  (∀ c, c ∈ candidates result →
        ∃ ds r, ds ∈ map_data ∧ r ∈ ds_resources ds
                ∧ (0.1 < scored g query ds r)%Q
                ∧ score c = Py.round (qmin 1 (scored g query ds r)) 3
                ∧ resource_id c = r_id r ∧ dataset_id c = ds_id ds)
  ∧ (∀ c, c ∈ candidates result → (0 <= score c)%Q ∧ (score c <= 1)%Q)
  ∧ StronglySorted by_score (candidates result)
  ∧ ((0 ≤ limit)%Z → (Z.of_nat (length (candidates result)) ≤ limit)%Z)
  ∧ ((limit < 0)%Z →
     length (candidates result) = total_matched result - Z.to_nat (- limit)).
Proof.
  cbv zeta.
  assert (Hfrom : ∀ c, c ∈ candidates (suggest_for_query g query map_data limit) →
        ∃ ds r, ds ∈ map_data ∧ r ∈ ds_resources ds
                ∧ (0.1 < scored g query ds r)%Q
                ∧ score c = Py.round (qmin 1 (scored g query ds r)) 3
                ∧ resource_id c = r_id r ∧ dataset_id c = ds_id ds).
  { unfold suggest_for_query. cbv zeta. simpl. intros c Hc.
    apply slice_to_elem_of, sort_desc_elem_of in Hc.
    apply list_elem_of_In, in_flat_map in Hc as (ds & Hds & Hc).
    apply list_elem_of_In in Hds, Hc.
    apply dataset_candidates_elem_of in Hc as (r & ?). by exists ds, r. }
  split; [exact Hfrom|]. split; [|split; [|split]].
  - intros c (ds & r & _ & _ & Hgt & -> & _)%Hfrom.
    apply round_unit_interval; [|apply qmin_le_l].
    apply qmin_glb; lra.
  - unfold suggest_for_query. cbv zeta. simpl.
    apply slice_to_sorted, sort_by_score_sorted.
  - unfold suggest_for_query. cbv zeta. simpl. apply slice_to_length.
  - unfold suggest_for_query. cbv zeta. simpl. apply slice_to_length_neg.
Qed.

Lemma suggest_for_query_candidates_witness :
  (0 ≤ 1)%Z
  ∧ (Z.of_nat (length (candidates
        (suggest_for_query bare (u "hospitals") [hospitals_ds; beds_ds] 1))) ≤ 1)%Z.
Proof.
  split; [lia|].
  destruct (suggest_for_query_candidates bare (u "hospitals") [hospitals_ds; beds_ds] 1)
    as (_ & _ & _ & H & _).
  apply H. lia.
Defined.

(** With the limit -1 the last of the two candidates is dropped. *)
Example suggest_for_query_negative_limit :
  map resource_id
      (candidates (suggest_for_query bare (u "hospitals") [hospitals_ds; beds_ds] (-1)))
  = [Some (u "r3")].
Proof. by vm_compute. Qed.

(** The two candidates in order, and the first of them alone. *)
Example suggest_for_query_ranked :
  map (fun c => (resource_id c, score c))
      (candidates (suggest_for_query bare (u "hospitals") [hospitals_ds; beds_ds] 10))
  = [(Some (u "r3"), 0.465%Q); (Some (u "r1"), 0.360%Q)]
  ∧ map resource_id
        (candidates (suggest_for_query bare (u "hospitals") [hospitals_ds; beds_ds] 1))
    = [Some (u "r3")].
Proof. split; by vm_compute. Qed.

(** ** Monotonicity of the subject score *)

Section SubjectScore.
Variables text text' : pystr.
Hypothesis Hext : extends_text text text'.

#[local] Abbreviation tl := (lower text).
#[local] Abbreviation tl' := (lower text').
#[local] Abbreviation tt := (_tokenize_hebrew text false).
#[local] Abbreviation tt' := (_tokenize_hebrew text' false).

Lemma mem_tokens_mono s : mem s tt = true → mem s tt' = true.
Proof.
  unfold mem. rewrite !bool_decide_eq_true. apply (proj2 Hext).
Qed.

Lemma check_subject_token_mono (gap m m' t : Q) (s : pystr) :
  (m + gap <= m')%Q →
  (fst (check_subject_token tl tt (m, t) s) + gap
   <= fst (check_subject_token tl' tt' (m', t) s))%Q
  ∧ snd (check_subject_token tl tt (m, t) s)
    = snd (check_subject_token tl' tt' (m', t) s).
Proof.
  intros Hm. unfold check_subject_token. simpl. split; [|done].
  destruct (mem s tt) eqn:Hs.
  - rewrite (mem_tokens_mono s Hs). lra.
  - destruct (contains tl s) eqn:Hc.
    + rewrite (proj1 Hext s Hc). destruct (mem s tt'); lra.
    + destruct (mem s tt'); [lra|]. destruct (contains tl' s); lra.
Qed.

(** A subject token that is a token of [text'] and not of [text] gains at
    least 0.3. *)
Lemma check_subject_token_gain (m m' t : Q) (s : pystr) :
  s ∉ tt → s ∈ tt' → (m <= m')%Q →
  (fst (check_subject_token tl tt (m, t) s) + 0.3
   <= fst (check_subject_token tl' tt' (m', t) s))%Q.
Proof.
  intros Hn Hy Hm. unfold check_subject_token. simpl.
  assert (H1 : mem s tt = false) by (by apply bool_decide_eq_false).
  assert (H2 : mem s tt' = true) by (by apply bool_decide_eq_true).
  rewrite H1, H2. destruct (contains tl s); lra.
Qed.

Lemma check_expansion_mono (gap m m' t : Q) (e : pystr) :
  (m + gap <= m')%Q →
  (fst (check_expansion tl (m, t) e) + gap <= fst (check_expansion tl' (m', t) e))%Q
  ∧ snd (check_expansion tl (m, t) e) = snd (check_expansion tl' (m', t) e).
Proof.
  intros Hm. unfold check_expansion. simpl. split; [|done].
  destruct (contains tl (lower e)) eqn:Hc.
  - rewrite (proj1 Hext _ Hc). lra.
  - destruct (existsb _ (Py.split (lower e))) eqn:Hw.
    + assert (Hw' : existsb (fun word => (2 <? len word) && contains tl' word)
                            (Py.split (lower e)) = true).
      { apply existsb_exists in Hw as (w & Hin & Hw). apply existsb_exists.
        exists w. split; [done|]. apply andb_true_iff in Hw as [-> Hw].
        simpl. by apply (proj1 Hext). }
      rewrite Hw'. destruct (contains tl' (lower e)); lra.
    + repeat match goal with
             | |- context [if ?b then _ else _] => destruct b
             end; lra.
Qed.

Lemma subject_loop_mono (gap : Q) (l : list pystr) (m m' t : Q) :
  (m + gap <= m')%Q →
  (fst (foldl (check_subject_token tl tt) (m, t) l) + gap
   <= fst (foldl (check_subject_token tl' tt') (m', t) l))%Q
  ∧ snd (foldl (check_subject_token tl tt) (m, t) l)
    = snd (foldl (check_subject_token tl' tt') (m', t) l).
Proof.
  revert m m' t. induction l as [|s l IH]; intros m m' t Hm; cbn [foldl]; [done|].
  destruct (check_subject_token_mono gap m m' t s Hm) as [H1 H2].
  destruct (check_subject_token tl tt (m, t) s) as [m1 t1].
  destruct (check_subject_token tl' tt' (m', t) s) as [m1' t1'].
  cbn [fst snd] in *. subst t1'. by apply IH.
Qed.

Lemma subject_loop_gain (st : pystr) (l : list pystr) (m m' t : Q) :
  st ∈ l → st ∉ tt → st ∈ tt' → (m <= m')%Q →
  (fst (foldl (check_subject_token tl tt) (m, t) l) + 0.3
   <= fst (foldl (check_subject_token tl' tt') (m', t) l))%Q.
Proof.
  intros Hin Hn Hy. revert m m' t.
  induction l as [|s l IH]; intros m m' t Hm; [by apply not_elem_of_nil in Hin|].
  cbn [foldl]. destruct (decide (s = st)) as [-> | Hne].
  - pose proof (check_subject_token_gain m m' t st Hn Hy Hm) as H1.
    assert (Hm0 : (m + 0 <= m')%Q) by lra.
    destruct (check_subject_token_mono 0 m m' t st Hm0) as [_ H2].
    destruct (check_subject_token tl tt (m, t) st) as [m1 t1].
    destruct (check_subject_token tl' tt' (m', t) st) as [m1' t1'].
    cbn [fst snd] in *. subst t1'. by apply subject_loop_mono.
  - apply elem_of_cons in Hin as [?|Hin]; [done|].
    assert (Hm0 : (m + 0 <= m')%Q) by lra.
    destruct (check_subject_token_mono 0 m m' t s Hm0) as [H1 H2].
    destruct (check_subject_token tl tt (m, t) s) as [m1 t1].
    destruct (check_subject_token tl' tt' (m', t) s) as [m1' t1'].
    cbn [fst snd] in *. subst t1'. apply IH; [done|lra].
Qed.

Lemma expansion_loop_mono (gap : Q) (l : list pystr) (m m' t : Q) :
  (m + gap <= m')%Q →
  (fst (foldl (check_expansion tl) (m, t) l) + gap
   <= fst (foldl (check_expansion tl') (m', t) l))%Q
  ∧ snd (foldl (check_expansion tl) (m, t) l)
    = snd (foldl (check_expansion tl') (m', t) l).
Proof.
  revert m m' t. induction l as [|s l IH]; intros m m' t Hm; cbn [foldl]; [done|].
  destruct (check_expansion_mono gap m m' t s Hm) as [H1 H2].
  destruct (check_expansion tl (m, t) s) as [m1 t1].
  destruct (check_expansion tl' (m', t) s) as [m1' t1'].
  cbn [fst snd] in *. subst t1'. by apply IH.
Qed.

End SubjectScore.

(** The number of checks grows along both loops, and the matches are never
    negative. *)
Lemma subject_loop_checks tl tt l m t :
  (t <= snd (foldl (check_subject_token tl tt) (m, t) l))%Q
  ∧ (l ≠ [] → (t + 1 <= snd (foldl (check_subject_token tl tt) (m, t) l))%Q)
  ∧ ((0 <= m)%Q → (0 <= fst (foldl (check_subject_token tl tt) (m, t) l))%Q).
Proof.
  revert m t. induction l as [|s l IH]; intros m t; cbn [foldl].
  - cbn [fst snd]. split; [lra|]. split; [done|auto].
  - destruct (check_subject_token tl tt (m, t) s) as [m1 t1] eqn:Hs.
    destruct (IH m1 t1) as (H1 & _ & H3).
    unfold check_subject_token in Hs. injection Hs as <- <-.
    split; [lra|]. split; [intros _; lra|].
    intros Hm. apply H3.
    destruct (mem s tt); [lra|]. destruct (contains tl s); lra.
Qed.

Lemma expansion_loop_checks tl l m t :
  (t <= snd (foldl (check_expansion tl) (m, t) l))%Q
  ∧ ((0 <= m)%Q → (0 <= fst (foldl (check_expansion tl) (m, t) l))%Q).
Proof.
  revert m t. induction l as [|s l IH]; intros m t; cbn [foldl].
  - cbn [fst snd]. split; [lra|auto].
  - destruct (check_expansion tl (m, t) s) as [m1 t1] eqn:Hs.
    destruct (IH m1 t1) as (H1 & H3).
    unfold check_expansion in Hs. injection Hs as <- <-.
    split; [lra|]. intros Hm. apply H3.
    repeat match goal with
           | |- context [if ?b then _ else _] => destruct b
           end; lra.
Qed.

(** A word put in front of a text, with a blank after it, takes nothing
    away from what the text offers. *)
Lemma startswith_app s t p : startswith s p = true → startswith (s ++ t) p = true.
Proof.
  revert s. induction p as [|a p IH]; intros s.
  - intros _. by destruct (s ++ t).
  - destruct s as [|b s]; simpl; [done|]. destruct (a =? b)%N; simpl; auto.
Qed.

Lemma contains_app_r a b s : contains b s = true → contains (a ++ b) s = true.
Proof.
  induction a as [|c a IH]; [done|]. intros H. simpl.
  rewrite (IH H). apply orb_true_r.
Qed.

Lemma re_split_skip_empty p b x :
  x ∈ re_split_go p b [] false → x ≠ [] → x ∈ re_split_go p b [] true.
Proof.
  destruct b as [|c r]; simpl.
  - intros ->%list_elem_of_singleton. done.
  - destruct (p c); [|done]. intros [->|?]%elem_of_cons; done.
Qed.

Lemma re_split_after_separator p a c b cur in_run x :
  p c = true → (in_run = true → cur = []) →
  x ∈ re_split_go p b [] true → x ∈ re_split_go p (a ++ c :: b) cur in_run.
Proof.
  intros Hc. revert cur in_run. induction a as [|d a IH]; intros cur in_run Hinv Hx; simpl.
  - rewrite Hc. destruct in_run; [by rewrite Hinv|by right].
  - destruct (p d).
    + destruct in_run; [by apply IH|]. right. by apply IH.
    + by apply IH.
Qed.

(** The tokens of a text are the pieces between separators that are longer
    than one character and are not stop words. *)
Lemma tokenize_loop_spec (pieces result : list pystr) :
  foldl (keep_token false) result pieces
  = result ++ filter (fun t => (1 <? len t) && negb (mem t STOP_WORDS) = true) pieces.
Proof.
  revert result. induction pieces as [|t pieces IH]; intros result; cbn [foldl].
  - by rewrite app_nil_r.
  - rewrite IH. unfold keep_token. destruct t as [|c [|c' t]].
    + by rewrite filter_cons_False by (by simpl).
    + by rewrite filter_cons_False by (by simpl).
    + destruct (mem (c :: c' :: t) STOP_WORDS) eqn:Hm; simpl.
      * rewrite filter_cons_False; [done|]. simpl. by rewrite Hm.
      * rewrite filter_cons_True; [|simpl; by rewrite Hm].
        by rewrite <- app_assoc.
Qed.

Lemma tokenize_elem_of text t :
  t ∈ _tokenize_hebrew text false
  ↔ text ≠ [] ∧ t ∈ re_split is_separator (lower text)
    ∧ (1 <? len t) && negb (mem t STOP_WORDS) = true.
Proof.
  unfold _tokenize_hebrew. destruct text as [|c text]; simpl empty; cbv iota.
  - split; [by intros ?%not_elem_of_nil|by intros [? _]].
  - rewrite tokenize_loop_spec. simpl app. rewrite list_elem_of_filter.
    split; [intros [? ?]|intros (_ & ? & ?)]; done.
Qed.

Lemma extends_text_prepend (word text : pystr) :
  extends_text text (word ++ u " " ++ text).
Proof.
  split.
  - intros s Hs. unfold lower. rewrite !map_app. by apply contains_app_r, contains_app_r.
  - intros t (Hne & Hin & Hkeep)%tokenize_elem_of. apply tokenize_elem_of.
    split; [by destruct word|]. split; [|done].
    unfold lower. rewrite map_app. change (map lower_cp (u " " ++ text))
      with (32%N :: map lower_cp text).
    apply re_split_after_separator; [done..|].
    apply re_split_skip_empty; [done|].
    intros ->. done.
Qed.

(** C6 fails as stated: [courts_he_en_ds] is [courts_he_ds] with the
    subject token [courts] added to the title, as a word of its own, and
    both have the subject score 1, the cap. *)
Lemma subject_score_monotone_counterexample :
  subject_tokens (_decompose_query bare (u "courts")) = [u "courts"]
  ∧ (u "courts" ∉ _tokenize_hebrew (all_ds_text courts_he_ds) false)
  ∧ (u "courts" ∈ _tokenize_hebrew (all_ds_text courts_he_en_ds) false)
  ∧ (dataset_subject_score bare (u "courts") courts_he_ds == 1)%Q
  ∧ (dataset_subject_score bare (u "courts") courts_he_en_ds == 1)%Q
  ∧ ¬ (dataset_subject_score bare (u "courts") courts_he_ds
       < dataset_subject_score bare (u "courts") courts_he_en_ds)%Q.
Proof.
  split; [by vm_compute|].
  split; [apply (bool_decide_unpack _); by vm_compute|].
  split; [apply (bool_decide_unpack _); by vm_compute|].
  split; [by vm_compute|]. split; [by vm_compute|].
  by vm_compute.
Qed.

(** C6, amended.  When a text gains an exact occurrence of a subject token
    it did not have as a token, and loses no substring and no token by it,
    the subject score does not decrease, and it increases strictly unless
    it was already at its cap 1. *)
Theorem subject_score_monotone (subject expanded : list pystr)
    (text text' st : pystr) :
  extends_text text text' →
  st ∈ subject →
  st ∉ _tokenize_hebrew text false →
  st ∈ _tokenize_hebrew text' false →
  (_calculate_subject_match subject expanded text
   <= _calculate_subject_match subject expanded text')%Q
  ∧ ((_calculate_subject_match subject expanded text < 1)%Q →
     (_calculate_subject_match subject expanded text
      < _calculate_subject_match subject expanded text')%Q).
Proof.
  intros Hext Hst Hn Hy.
  assert (Hsub : (length subject =? 0) = false).
  { destruct subject; [by apply not_elem_of_nil in Hst|done]. }
  assert (Htext' : empty text' = false).
  { destruct text'; [by apply not_elem_of_nil in Hy|done]. }
  (* the two runs of the loops *)
  pose proof (subject_loop_gain text text' Hext st subject 0 0 0 Hst Hn Hy
                ltac:(lra)) as Hgain.
  pose proof (proj2 (subject_loop_mono text text' Hext 0 subject 0 0 0 ltac:(lra)))
    as Htot.
  pose proof (subject_loop_checks (lower text) (_tokenize_hebrew text false)
                subject 0 0) as (_ & Hone & Hpos).
  destruct (foldl (check_subject_token (lower text) (_tokenize_hebrew text false))
                  (0%Q, 0%Q) subject) as [m0 t0] eqn:Hrun0.
  destruct (foldl (check_subject_token (lower text') (_tokenize_hebrew text' false))
                  (0%Q, 0%Q) subject) as [m0' t0'] eqn:Hrun'.
  cbn [fst snd] in *. subst t0'.
  assert (Ht0 : (1 <= t0)%Q).
  { assert (H : (0 + 1 <= t0)%Q) by (apply Hone; by destruct subject). lra. }
  assert (Hm0 : (0 <= m0)%Q) by (apply Hpos; lra).
  pose proof (expansion_loop_mono text text' Hext 0.3 expanded m0 m0' t0 Hgain)
    as [Hgain2 Htot2].
  pose proof (expansion_loop_checks (lower text) expanded m0 t0) as [Hge Hpos2].
  destruct (foldl (check_expansion (lower text)) (m0, t0) expanded) as [m t] eqn:Hrun.
  destruct (foldl (check_expansion (lower text')) (m0', t0) expanded) as [m' t'] eqn:Hrun2.
  cbn [fst snd] in *. subst t'.
  assert (Ht : (0 < t)%Q) by lra.
  assert (Hm : (0 <= m)%Q) by auto.
  assert (Hit : (0 < / t)%Q) by (by apply Qinv_lt_0_compat).
  assert (Hz : Qeq_bool t 0 = false).
  { destruct (Qeq_bool t 0) eqn:E; [|done]. apply Qeq_bool_iff in E. lra. }
  (* the score of [text'] *)
  assert (Hs' : _calculate_subject_match subject expanded text' = qmin 1 (m' / t)).
  { unfold _calculate_subject_match. rewrite Htext', Hsub. cbn [andb].
    rewrite Hrun', Hrun2, Hz. done. }
  (* the score of [text] is at most the capped ratio, and is that ratio
     when the text is not empty *)
  assert (Hs : _calculate_subject_match subject expanded text = qmin 1 (m / t)
               ∨ _calculate_subject_match subject expanded text = 0%Q).
  { unfold _calculate_subject_match. destruct (empty text); [by right|].
    rewrite Hsub. cbn [andb]. rewrite Hrun0, Hrun, Hz. by left. }
  rewrite Hs'. clear Hs' Hrun0 Hrun Hrun' Hrun2.
  assert (Hr : (m / t + 0.3 / t <= m' / t)%Q).
  { unfold Qdiv. rewrite <- Qmult_plus_distr_l.
    apply Qmult_le_compat_r; lra. }
  assert (Hd : (0 < 0.3 / t)%Q).
  { unfold Qdiv. apply Qmult_lt_0_compat; lra. }
  assert (Hq : (0 <= m / t)%Q).
  { unfold Qdiv. apply Qmult_le_0_compat; lra. }
  set (x := (m / t)%Q) in *. set (x' := (m' / t)%Q) in *.
  set (gain := (0.3 / t)%Q) in *. clearbody x x' gain.
  destruct (qmin_cases 1 x') as [[E' ->] | [E' ->]];
    destruct Hs as [-> | ->];
    try (destruct (qmin_cases 1 x) as [[E ->] | [E ->]]);
    (split; [lra | intros ?; lra]).
Qed.

Lemma subject_score_monotone_witness :
  let d := _decompose_query bare (u "courts") in
  let text := all_ds_text roads_ds in
  let text' := all_ds_text courts_roads_ds in
  extends_text text text'
  ∧ (u "courts" ∈ subject_tokens d)
  ∧ (u "courts" ∉ _tokenize_hebrew text false)
  ∧ (u "courts" ∈ _tokenize_hebrew text' false)
  ∧ (_calculate_subject_match (subject_tokens d) (expanded_subjects d) text
     <= _calculate_subject_match (subject_tokens d) (expanded_subjects d) text')%Q
  ∧ ((_calculate_subject_match (subject_tokens d) (expanded_subjects d) text < 1)%Q →
     (_calculate_subject_match (subject_tokens d) (expanded_subjects d) text
      < _calculate_subject_match (subject_tokens d) (expanded_subjects d) text')%Q).
Proof.
  cbv zeta.
  assert (H1 : extends_text (all_ds_text roads_ds) (all_ds_text courts_roads_ds))
    by apply (extends_text_prepend (u "courts") (all_ds_text roads_ds)).
  assert (H2 : u "courts" ∈ subject_tokens (_decompose_query bare (u "courts")))
    by (apply (bool_decide_unpack _); by vm_compute).
  assert (H3 : u "courts" ∉ _tokenize_hebrew (all_ds_text roads_ds) false)
    by (apply (bool_decide_unpack _); by vm_compute).
  assert (H4 : u "courts" ∈ _tokenize_hebrew (all_ds_text courts_roads_ds) false)
    by (apply (bool_decide_unpack _); by vm_compute).
  split; [exact H1|]. split; [exact H2|]. split; [exact H3|]. split; [exact H4|].
  exact (subject_score_monotone _ _ _ _ _ H1 H2 H3 H4).
Defined.

(** ** The aggregate calculator *)

Lemma round_half_even_comp x y : (x == y)%Q → round_half_even x = round_half_even y.
Proof.
  intros H. unfold round_half_even. rewrite (Qfloor_comp x y H).
  assert (Hd : (x - inject_Z (Qfloor y) == y - inject_Z (Qfloor y))%Q) by (by rewrite H).
  by rewrite (Qcompare_comp _ _ Hd (1 # 2)%Q (1 # 2)%Q (Qeq_refl _)).
Qed.

Lemma round_to_cents_comp s x y : (x == y)%Q → round_to_cents s x = round_to_cents s y.
Proof.
  intros H. unfold round_to_cents.
  rewrite (round_half_even_comp (x * 100) (y * 100)); [done|by rewrite H].
Qed.

Lemma py_int_comp x y : (x == y)%Q → py_int x = py_int y.
Proof.
  intros H. unfold py_int.
  rewrite (Qleb_comp 0%Q 0%Q (Qeq_refl 0%Q) x y H), (Qfloor_comp x y H), (Qceiling_comp x y H).
  done.
Qed.

Lemma integral_py_int x : integral x ↔ (x == inject_Z (py_int x))%Q.
Proof.
  unfold integral, py_int. destruct (Qle_bool 0 x) eqn:E; [done|].
  split; intros H.
  - rewrite (Qceiling_comp x _ H), Qceiling_Z. exact H.
  - rewrite (Qfloor_comp x _ H), Qfloor_Z. exact H.
Qed.

Lemma integral_comp x y : (x == y)%Q → integral x → integral y.
Proof. unfold integral. intros H Hx. by rewrite <- (Qfloor_comp x y H), <- H. Qed.

Lemma py_int_integral x : integral x → py_int x = Qfloor x.
Proof.
  intros H. pose proof H as H'. apply integral_py_int in H'.
  rewrite (py_int_comp x _ H) at 1. unfold py_int.
  destruct (Qle_bool 0 _); [apply Qfloor_Z|apply Qceiling_Z].
Qed.

(** The total is reported as an integer when it is a whole number, rounded
    to two decimals when it is another finite number, and not at all when
    it is an infinity or a nan. *)
Lemma reported_sum_spec (total : spec_float) :
  if Float.is_finite total
  then (integral (Float.value total) →
        reported_sum total = Some (NInt (Qfloor (Float.value total))))
       ∧ (¬ integral (Float.value total) →
          reported_sum total
          = Some (NFloat (round_to_cents (Float.sign total) (Float.value total))))
  else reported_sum total = None.
Proof.
  unfold reported_sum. destruct (Float.is_finite total); [|done]. cbv zeta.
  split; intros H.
  - pose proof H as H'. apply integral_py_int in H'.
    rewrite (Qeq_eq_bool _ _ H'). by rewrite py_int_integral.
  - destruct (Qeq_bool _ (inject_Z (py_int _))) eqn:E; [|done].
    apply Qeq_bool_iff, integral_py_int in E. done.
Qed.

(** A sum is finite only when both numbers are. *)
Lemma add_is_finite x y :
  Float.is_finite (Float.add x y) = true →
  Float.is_finite x = true ∧ Float.is_finite y = true.
Proof.
  destruct x as [sx|sx| |sx mx ex], y as [sy|sy| |sy my ey]; try (by split); try done.
  all: unfold Float.add, SFadd; cbn [Float.is_finite]; try done.
  all: by destruct sx, sy.
Qed.

Lemma running_total_is_finite (values : list spec_float) (acc : spec_float) :
  Float.is_finite (foldl Float.add acc values) = true →
  Float.is_finite acc = true ∧ Forall (fun x => Float.is_finite x = true) values.
Proof.
  revert acc. induction values as [|x values IH]; intros acc H; [by split|].
  cbn [foldl] in H. apply IH in H as [[Ha Hx]%add_is_finite Hv].
  split; [done|by constructor].
Qed.

Section AggregateFacts.
Variable float_of_str : pystr → option spec_float.
Variable str_of_float : spec_float → pystr.

Lemma numeric_values_cons r records fid :
  numeric_values float_of_str (r :: records) fid
  = match get_cell r fid with
    | Some c =>
        match float_of_cell float_of_str c with
        | Converted x => x :: numeric_values float_of_str records fid
        | _ => numeric_values float_of_str records fid
        end
    | None => numeric_values float_of_str records fid
    end.
Proof.
  unfold numeric_values. cbn [omap list_omap].
  destruct (get_cell r fid) as [c|]; cbn [mbind option_bind]; [|done].
  by destruct (float_of_cell float_of_str c).
Qed.

Lemma float_of_cell_overflowed c :
  float_of_cell float_of_str c = Overflowed ↔
  ∃ z, c = CInt z ∧ Float.is_finite (Float.of_Z z) = false.
Proof.
  split.
  - destruct c as [|z|x|s|b|]; cbn [float_of_cell]; try done.
    + unfold float_of_int. destruct (Float.is_finite (Float.of_Z z)) eqn:E; [done|].
      intros _. by exists z.
    + by destruct (float_of_str _).
  - intros (z & -> & H). cbn [float_of_cell]. unfold float_of_int. by rewrite H.
Qed.

Lemma overflows_cons r records fid :
  overflows (r :: records) fid ↔
  (∃ z, get_cell r fid = Some (CInt z) ∧ Float.is_finite (Float.of_Z z) = false)
  ∨ overflows records fid.
Proof.
  unfold overflows. split.
  - intros (r' & z & [->|Hin]%elem_of_cons & Hc & Hz).
    + left. by exists z.
    + right. by exists r', z.
  - intros [(z & Hc & Hz)|(r' & z & Hin & Hc & Hz)].
    + exists r, z. split; [left|done].
    + exists r', z. split; [by right|done].
Qed.

(** The loop over the records: it raises on an integer out of range, and
    otherwise adds up the counted cells from the left and counts them. *)
Lemma column_total_from records fid total count :
  let r := foldl (fun acc r => acc ≫= fun acc => add_cell float_of_str fid acc r)
                 (Some (total, count)) records in
  (overflows records fid ∧ r = None)
  ∨ (¬ overflows records fid
     ∧ r = Some (foldl Float.add total (numeric_values float_of_str records fid),
                 count + length (numeric_values float_of_str records fid))).
Proof.
  cbv zeta. revert total count.
  induction records as [|r records IH]; intros total count.
  - right. split; [by intros (? & ? & ?%not_elem_of_nil & _)|].
    simpl. do 2 f_equal. lia.
  - cbn [foldl mbind option_bind add_cell]. rewrite numeric_values_cons.
    assert (Hskip : ∀ c, get_cell r fid = c →
              (match c with
               | Some val => float_of_cell float_of_str val ≠ Overflowed
               | None => True
               end) →
              overflows (r :: records) fid ↔ overflows records fid).
    { intros c Hc Hno. rewrite overflows_cons. split; [|by right].
      intros [(z & Hz & Hf)|?]; [|done]. rewrite Hz in Hc. subst c.
      exfalso. apply Hno. apply float_of_cell_overflowed. by exists z. }
    destruct (get_cell r fid) as [val|] eqn:Hc.
    + destruct (float_of_cell float_of_str val) as [x| |] eqn:Hf.
      * destruct (IH (Float.add total x) (S count)) as [[Ho ->]|[Ho ->]].
        -- left. split; [|done]. apply (Hskip _ eq_refl); [by rewrite Hf|done].
        -- right. split; [by rewrite (Hskip _ eq_refl); [|by rewrite Hf]|].
           cbn [foldl length]. do 2 f_equal. lia.
      * destruct (IH total count) as [[Ho ->]|[Ho ->]].
        -- left. split; [|done]. apply (Hskip _ eq_refl); [by rewrite Hf|done].
        -- right. split; [by rewrite (Hskip _ eq_refl); [|by rewrite Hf]|done].
      * left. split.
        -- apply overflows_cons. left. apply float_of_cell_overflowed in Hf as (z & -> & Hz).
           by exists z.
        -- clear. induction records as [|r' records IH]; [done|]. exact IH.
    + destruct (IH total count) as [[Ho ->]|[Ho ->]].
      * left. split; [|done]. by apply (Hskip _ eq_refl).
      * right. split; [by rewrite (Hskip _ eq_refl)|done].
Qed.

Lemma column_total_spec records fid :
  (overflows records fid ∧ column_total float_of_str records fid = None)
  ∨ (¬ overflows records fid
     ∧ column_total float_of_str records fid
       = Some (running_total (numeric_values float_of_str records fid),
               length (numeric_values float_of_str records fid))).
Proof. apply (column_total_from records fid (S754_zero false) 0). Qed.

(** The entry of one field: the function raises, or the field has no
    counted cell and gets no entry, or it gets its entry. *)
Lemma add_field_spec records sums fid :
  let values := numeric_values float_of_str records fid in
  (raises float_of_str records fid ∧ add_field float_of_str records sums fid = None)
  ∨ (¬ raises float_of_str records fid
     ∧ add_field float_of_str records sums fid
       = Some (match values with
               | [] => sums
               | _ => match reported_sum (running_total values) with
                      | Some s => <[fid := {| agg_sum := s; agg_count := length values |}]> sums
                      | None => sums
                      end
               end)
     ∧ (values ≠ [] → Float.is_finite (running_total values) = true)).
Proof.
  cbv zeta. unfold add_field, raises.
  destruct (column_total_spec records fid) as [[Ho ->]|[Ho ->]].
  { left. split; [by left|done]. }
  cbn [mbind option_bind].
  destruct (numeric_values float_of_str records fid) as [|x values] eqn:Hv.
  { right. split; [|done]. intros [?|[? _]]; done. }
  change (0 <? length (x :: values)) with true. cbv iota.
  pose proof (reported_sum_spec (running_total (x :: values))) as Hr.
  destruct (Float.is_finite (running_total (x :: values))) eqn:Hfin.
  - right. split; [by intros [?|[_ ?]]|].
    split; [|done].
    unfold reported_sum in *. rewrite Hfin in *. cbv zeta.
    by destruct (Qeq_bool _ _).
  - left. rewrite Hr. split; [by right|done].
Qed.

(** The loop over the numeric fields: the function raises when one of
    them does; otherwise a field gets its entry when it is one of them
    and one cell at least was counted. *)
Lemma aggregate_loop_spec (records : list (gmap pystr cell)) (fids : list pystr)
    (sums : gmap pystr aggregate) :
  let r := foldl (fun sums fid => sums ≫= fun sums => add_field float_of_str records sums fid)
                 (Some sums) fids in
  ((∃ f, f ∈ fids ∧ raises float_of_str records f) ∧ r = None)
  ∨ ((∀ f, f ∈ fids → ¬ raises float_of_str records f)
     ∧ ∃ aggs, r = Some aggs
         ∧ ∀ fid,
             aggs !! fid
             = if decide (fid ∈ fids ∧ 0 < length (numeric_values float_of_str records fid))
               then (fun s => {| agg_sum := s;
                                 agg_count := length (numeric_values float_of_str records fid) |})
                    <$> reported_sum (running_total (numeric_values float_of_str records fid))
               else sums !! fid).
Proof.
  cbv zeta. revert sums. induction fids as [|f fids IH]; intros sums; cbn [foldl].
  - right. split; [by intros ? ?%not_elem_of_nil|].
    exists sums. split; [done|]. intros fid.
    rewrite decide_False; [done|]. by intros [?%not_elem_of_nil _].
  - cbn [mbind option_bind].
    destruct (add_field_spec records sums f) as [[Hr ->]|(Hr & -> & Hfin)].
    { left. split; [exists f; split; [left|done]|].
      clear. induction fids as [|f' fids IH]; [done|]. exact IH. }
    cbv zeta in Hfin.
    match goal with |- context [foldl _ (Some ?m) fids] => set (sums' := m) end.
    destruct (IH sums') as [[(f' & Hin & Hr') ->]|(Hall & aggs & -> & Hlook)].
    { left. split; [|done]. exists f'. split; [by right|done]. }
    right. split.
    { intros f' [->|?]%elem_of_cons; [done|by apply Hall]. }
    exists aggs. split; [done|]. intros fid. rewrite Hlook.
    destruct (decide (fid ∈ fids ∧ _)) as [[Hin Hc]|Hn].
    + rewrite decide_True; [done|]. split; [by right|done].
    + destruct (decide (f = fid)) as [->|Hne].
      * subst sums'.
        destruct (numeric_values float_of_str records fid) as [|x values] eqn:Hv.
        -- rewrite decide_False; [done|]. simpl. lia.
        -- rewrite decide_True; [|split; [left|simpl; lia]].
           specialize (Hfin ltac:(done)).
           pose proof (reported_sum_spec (running_total (x :: values))) as Hs.
           rewrite Hfin in Hs.
           destruct (reported_sum (running_total (x :: values))) as [s|] eqn:Es.
           ++ by rewrite lookup_insert_eq.
           ++ exfalso. unfold reported_sum in Es. rewrite Hfin in Es. cbv zeta in Es.
              by destruct (Qeq_bool _ _).
      * assert (Hsame : sums' !! fid = sums !! fid).
        { subst sums'. destruct (numeric_values float_of_str records f); [done|].
          destruct (reported_sum _); [by rewrite lookup_insert_ne|done]. }
        rewrite Hsame.
        destruct (decide (fid ∈ f :: fids ∧ _)) as [[Hin Hc]|]; [|done].
        apply elem_of_cons in Hin as [?|?]; [done|]. exfalso. by apply Hn.
Qed.

End AggregateFacts.

(** *** Sums of whole numbers *)

Lemma digits2_pos_size m : digits2_pos m = Pos.size m.
Proof. induction m as [m IH|m IH|]; simpl; congruence. Qed.

Lemma digits2_pos_log2 m : Zpos (digits2_pos m) = (Z.log2 (Zpos m) + 1)%Z.
Proof. rewrite digits2_pos_size. destruct m; simpl; lia. Qed.

Lemma pos_iter_xO m d : Zpos (Pos.iter xO m d) = (Zpos m * 2 ^ Zpos d)%Z.
Proof.
  rewrite <- Z.shiftl_mul_pow2 by lia. simpl Z.shiftl.
  by apply Pos.iter_swap_gen.
Qed.

Lemma shr_1_even M :
  (0 < M)%Z →
  shr_1 {| shr_m := 2 * M; shr_r := false; shr_s := false |}
  = {| shr_m := M; shr_r := false; shr_s := false |}.
Proof. destruct M; try lia. reflexivity. Qed.

(** Shifting out zeros loses nothing. *)
Lemma iter_shr_1_exact p M :
  (0 < M)%Z →
  SpecFloat.iter_pos shr_1 p {| shr_m := M * 2 ^ Zpos p; shr_r := false; shr_s := false |}
  = {| shr_m := M; shr_r := false; shr_s := false |}.
Proof.
  revert M. induction p as [p IH|p IH|]; intros M HM; cbn [SpecFloat.iter_pos].
  - assert (0 < M * 2 ^ Z.pos p)%Z as H1 by (apply Z.mul_pos_pos; [done|by apply Z.pow_pos_nonneg]).
    assert (0 < M * 2 ^ Z.pos p * 2 ^ Z.pos p)%Z as H2
      by (apply Z.mul_pos_pos; [done|by apply Z.pow_pos_nonneg]).
    replace (M * 2 ^ Z.pos p~1)%Z with (2 * (M * 2 ^ Z.pos p * 2 ^ Z.pos p))%Z.
    + rewrite shr_1_even by done. by rewrite IH, IH.
    + replace (Z.pos p~1) with (Z.pos p + Z.pos p + 1)%Z by lia.
      rewrite !Z.pow_add_r, Z.pow_1_r by lia. ring.
  - assert (0 < M * 2 ^ Z.pos p)%Z as H1 by (apply Z.mul_pos_pos; [done|by apply Z.pow_pos_nonneg]).
    replace (M * 2 ^ Z.pos p~0)%Z with (M * 2 ^ Z.pos p * 2 ^ Z.pos p)%Z.
    + by rewrite IH, IH.
    + replace (Z.pos p~0) with (Z.pos p + Z.pos p)%Z by lia.
      rewrite !Z.pow_add_r by lia. ring.
  - replace (M * 2 ^ 1)%Z with (2 * M)%Z by lia. by apply shr_1_even.
Qed.

(** A whole number below [2^53], given with zeros at its end, is rounded
    to itself. *)
Lemma binary_round_aux_whole s m e N :
  (0 < N < 2 ^ 53)%Z → (e ≤ Z.log2 N - 52)%Z → Zpos m = (N * 2 ^ (- e))%Z →
  ∃ m', Zpos m' = (N * 2 ^ (52 - Z.log2 N))%Z
        ∧ binary_round_aux Float.prec Float.emax s (Zpos m) e loc_Exact
          = S754_finite s m' (Z.log2 N - 52).
Proof.
  intros [HN0 HN] He Hm.
  assert (0 ≤ Z.log2 N < 53)%Z as Hlog.
  { split; [apply Z.log2_nonneg|by apply Z.log2_lt_pow2]. }
  set (e1 := (Z.log2 N - 52)%Z) in *.
  assert (0 < N * 2 ^ (52 - Z.log2 N))%Z as HM.
  { apply Z.mul_pos_pos; [done|]. apply Z.pow_pos_nonneg; lia. }
  destruct (N * 2 ^ (52 - Z.log2 N))%Z as [|m'|] eqn:HM'; try lia.
  exists m'. split; [done|].
  assert (Z.log2 (Zpos m) = Z.log2 N - e)%Z as Hlm.
  { rewrite Hm, Z.log2_mul_pow2 by lia. lia. }
  assert (Z.log2 (Zpos m') = 52)%Z as Hlm'.
  { rewrite <- HM', Z.log2_mul_pow2 by lia. lia. }
  assert (Zpos m = Zpos m' * 2 ^ (e1 - e))%Z as Hmm.
  { rewrite <- HM', Hm, <- Z.mul_assoc, <- Z.pow_add_r by lia.
    f_equal; f_equal; lia. }
  unfold binary_round_aux, shr_fexp. cbn [Zdigits2 shr_record_of_loc].
  rewrite digits2_pos_log2, Hlm.
  replace (fexp Float.prec Float.emax (Z.log2 N - e + 1 + e) - e)%Z with (e1 - e)%Z
    by (unfold fexp, emin, Float.prec, Float.emax; lia).
  assert (shr {| shr_m := Zpos m; shr_r := false; shr_s := false |} e (e1 - e)
          = ({| shr_m := Zpos m'; shr_r := false; shr_s := false |}, e1)) as ->.
  { unfold shr. destruct (e1 - e)%Z as [|p|p] eqn:Hd; try lia.
    - rewrite Z.pow_0_r, Z.mul_1_r in Hmm. rewrite Hmm. f_equal. lia.
    - rewrite Hmm, iter_shr_1_exact by lia. f_equal. lia. }
  cbn [shr_m loc_of_shr_record shr_r shr_s round_nearest_even Zdigits2 shr_record_of_loc].
  rewrite digits2_pos_log2, Hlm'.
  replace (fexp Float.prec Float.emax (52 + 1 + e1) - e1)%Z with 0%Z
    by (unfold fexp, emin, Float.prec, Float.emax; lia).
  cbn [shr shr_m].
  replace (e1 <=? Float.emax - Float.prec)%Z with true; [done|].
  symmetry. apply Z.leb_le. unfold Float.emax, Float.prec. lia.
Qed.

Lemma binary_round_whole s m e N :
  (0 < N < 2 ^ 53)%Z →
  (0 ≤ e → Zpos m * 2 ^ e = N)%Z → (e < 0 → Zpos m = N * 2 ^ (- e))%Z →
  ∃ m', Zpos m' = (N * 2 ^ (52 - Z.log2 N))%Z
        ∧ binary_round Float.prec Float.emax s m e = S754_finite s m' (Z.log2 N - 52).
Proof.
  intros [HN0 HN] Hpos Hneg.
  assert (0 ≤ Z.log2 N < 53)%Z as Hlog.
  { split; [apply Z.log2_nonneg|by apply Z.log2_lt_pow2]. }
  assert (Z.log2 (Zpos m) + e = Z.log2 N)%Z as Hlm.
  { destruct (Z.le_gt_cases 0 e) as [H|H].
    - rewrite <- (Hpos H), Z.log2_mul_pow2 by lia. lia.
    - rewrite (Hneg H), Z.log2_mul_pow2 by lia. lia. }
  unfold binary_round, shl_align. rewrite digits2_pos_log2.
  replace (fexp Float.prec Float.emax (Z.log2 (Zpos m) + 1 + e))%Z with (Z.log2 N - 52)%Z
    by (unfold fexp, emin, Float.prec, Float.emax; lia).
  destruct (Z.log2 N - 52 - e)%Z as [|d|d] eqn:Hd.
  - apply binary_round_aux_whole; [done|lia|].
    destruct (Z.le_gt_cases 0 e) as [H|H]; [|by apply Hneg].
    assert (e = 0)%Z as -> by lia. rewrite <- (Hpos H).
    change (- 0)%Z with 0%Z. rewrite Z.pow_0_r. lia.
  - apply binary_round_aux_whole; [done|lia|].
    destruct (Z.le_gt_cases 0 e) as [H|H]; [exfalso; lia|by apply Hneg].
  - apply binary_round_aux_whole; [done|lia|].
    rewrite pos_iter_xO.
    destruct (Z.le_gt_cases 0 e) as [H|H].
    + transitivity (Zpos m * 2 ^ e * 2 ^ (- (Z.log2 N - 52)))%Z; [|by rewrite (Hpos H)].
      rewrite <- Z.mul_assoc, <- Z.pow_add_r by lia. f_equal; f_equal; lia.
    + rewrite (Hneg H), <- Z.mul_assoc, <- Z.pow_add_r by lia.
      f_equal; f_equal; lia.
Qed.

Lemma stands_for_shift M e e' S :
  (e' ≤ e)%Z → stands_for M e S → stands_for (M * 2 ^ (e - e')) e' S.
Proof.
  intros He [Hpos Hneg]. split; intros He'.
  - rewrite <- (Hpos ltac:(lia)), <- !Z.mul_assoc, <- Z.pow_add_r by lia.
    f_equal; f_equal; lia.
  - destruct (Z.le_gt_cases 0 e) as [H|H].
    + transitivity (M * 2 ^ e * 2 ^ (- e'))%Z; [|by rewrite (Hpos H)].
      rewrite <- !Z.mul_assoc, <- Z.pow_add_r by lia. f_equal; f_equal; lia.
    + rewrite (Hneg H), <- !Z.mul_assoc, <- Z.pow_add_r by lia. f_equal; f_equal; lia.
Qed.

Lemma stands_for_add M1 M2 e S1 S2 :
  stands_for M1 e S1 → stands_for M2 e S2 → stands_for (M1 + M2) e (S1 + S2).
Proof.
  intros [Hp1 Hn1] [Hp2 Hn2]. split; intros He.
  - rewrite <- (Hp1 He), <- (Hp2 He). ring.
  - rewrite (Hn1 He), (Hn2 He). ring.
Qed.

Lemma stands_for_opp M e S : stands_for M e S → stands_for (- M) e (- S).
Proof.
  intros [Hp Hn]. split; intros He.
  - rewrite <- (Hp He). ring.
  - rewrite (Hn He). ring.
Qed.

Lemma stands_for_sign M e S : stands_for M e S → (0 < M ↔ 0 < S)%Z ∧ (M = 0 ↔ S = 0)%Z.
Proof.
  intros [Hp Hn]. destruct (Z.le_gt_cases 0 e) as [H|H].
  - specialize (Hp H). assert (0 < 2 ^ e)%Z by (by apply Z.pow_pos_nonneg). nia.
  - specialize (Hn H). assert (0 < 2 ^ (- e))%Z by (apply Z.pow_pos_nonneg; lia). nia.
Qed.

(** The value of a finite float whose mantissa stands for an integer. *)
Lemma value_stands_for s m e S :
  stands_for (cond_Zopp s (Zpos m)) e S →
  (Float.value (S754_finite s m e) == inject_Z S)%Q.
Proof.
  intros [Hp Hn]. unfold Float.value. cbv zeta.
  assert ((if s then Z.neg m else Z.pos m) = cond_Zopp s (Zpos m)) as -> by (by destruct s).
  destruct (0 <=? e)%Z eqn:He.
  - apply Z.leb_le in He. by rewrite (Hp He).
  - apply Z.leb_gt in He. rewrite (Hn He).
    assert (0 < 2 ^ (- e))%Z by (apply Z.pow_pos_nonneg; lia).
    unfold Qeq, inject_Z. cbn [Qnum Qden]. rewrite Z2Pos.id by done. ring.
Qed.

(** A finite float that is a whole number stands for an integer. *)
Lemma whole_stands_for s m e :
  whole (S754_finite s m e) →
  ∃ S, stands_for (cond_Zopp s (Zpos m)) e S.
Proof.
  intros [_ Hint]. unfold integral in Hint.
  set (F := Qfloor (Float.value (S754_finite s m e))) in *. clearbody F.
  unfold Float.value in Hint. cbv zeta in Hint.
  assert ((if s then Z.neg m else Z.pos m) = cond_Zopp s (Zpos m)) as Hs by (by destruct s).
  rewrite Hs in Hint.
  destruct (0 <=? e)%Z eqn:He.
  - apply Z.leb_le in He. exists (cond_Zopp s (Zpos m) * 2 ^ e)%Z. split; [done|lia].
  - apply Z.leb_gt in He. exists F. split; [lia|]. intros _.
    assert (0 < 2 ^ (- e))%Z by (apply Z.pow_pos_nonneg; lia).
    unfold Qeq, inject_Z in Hint. cbn [Qnum Qden] in Hint.
    rewrite Z2Pos.id in Hint by done. lia.
Qed.

Lemma shl_align_fst m e e' :
  (e' ≤ e)%Z → Zpos (fst (shl_align m e e')) = (Zpos m * 2 ^ (e - e'))%Z.
Proof.
  intros He. unfold shl_align. destruct (e' - e)%Z as [|d|d] eqn:Hd; cbn [fst].
  - replace (e - e')%Z with 0%Z by lia. rewrite Z.pow_0_r. lia.
  - exfalso. lia.
  - rewrite pos_iter_xO. f_equal; f_equal; lia.
Qed.

(** An integer below [2^53] is normalised without loss. *)
Lemma binary_normalize_whole M e S :
  stands_for M e S → (Z.abs S < 2 ^ 53)%Z →
  Float.is_finite (binary_normalize Float.prec Float.emax M e false) = true
  ∧ (Float.value (binary_normalize Float.prec Float.emax M e false) == inject_Z S)%Q.
Proof.
  intros Hrep HS. destruct (stands_for_sign _ _ _ Hrep) as [Hpos Hzero].
  destruct M as [|m|m]; cbn [binary_normalize].
  - split; [done|]. cbn [Float.value]. assert (S = 0%Z) as -> by (by apply Hzero). done.
  - assert (0 < S)%Z as HS0 by (by apply Hpos).
    destruct Hrep as [Hp Hn].
    destruct (binary_round_whole false m e S) as (m' & Hm' & ->); [lia|done|done|].
    split; [done|]. apply value_stands_for. split; intros He; cbn [cond_Zopp].
    + assert (Z.log2 S < 53)%Z by (apply Z.log2_lt_pow2; lia).
      assert (Z.log2 S = 52)%Z as Hl by lia.
      rewrite Hm', Hl. change (2 ^ (52 - 52))%Z with 1%Z. lia.
    + rewrite Hm'. f_equal; f_equal; lia.
  - apply stands_for_opp in Hrep. cbn [Z.opp] in Hrep.
    destruct (stands_for_sign _ _ _ Hrep) as [Hpos' _].
    assert (0 < - S)%Z as HS0 by (by apply Hpos').
    destruct Hrep as [Hp Hn].
    destruct (binary_round_whole true m e (- S)) as (m' & Hm' & ->); [lia|done|done|].
    split; [done|]. apply value_stands_for. split; intros He; cbn [cond_Zopp].
    + assert (Z.log2 (- S) < 53)%Z by (apply Z.log2_lt_pow2; lia).
      assert (Z.log2 (- S) = 52)%Z as Hl by lia.
      change (Z.neg m') with (- Z.pos m')%Z.
      rewrite Hm', Hl. change (2 ^ (52 - 52))%Z with 1%Z. lia.
    + change (Z.neg m') with (- Z.pos m')%Z. rewrite Hm'.
      replace (- (Z.log2 (- S) - 52))%Z with (52 - Z.log2 (- S))%Z by lia. ring.
Qed.

Lemma integral_inject_Z z : integral (inject_Z z).
Proof. unfold integral. by rewrite Qfloor_Z. Qed.

Lemma whole_zero s : whole (S754_zero s).
Proof. split; [done|]. apply (integral_inject_Z 0). Qed.

(** The sum of two whole numbers is exact when it is below [2^53]. *)
Lemma add_whole x y :
  whole x → whole y →
  (Qabs (Float.value x + Float.value y) < inject_Z (2 ^ 53))%Q →
  whole (Float.add x y)
  ∧ (Float.value (Float.add x y) == Float.value x + Float.value y)%Q.
Proof.
  intros Hx Hy Hlt.
  destruct x as [sx|sx| |sx mx ex]; [| by destruct Hx | by destruct Hx |];
    (destruct y as [sy|sy| |sy my ey]; [| by destruct Hy | by destruct Hy |]).
  - split; [|by destruct sx, sy]. destruct sx, sy; apply whole_zero.
  - split; [done|]. change (Float.add (S754_zero sx) (S754_finite sy my ey))
      with (S754_finite sy my ey). cbn [Float.value]. lra.
  - split; [done|]. change (Float.add (S754_finite sx mx ex) (S754_zero sy))
      with (S754_finite sx mx ex). cbn [Float.value]. lra.
  - destruct (whole_stands_for _ _ _ Hx) as [Sx HSx].
    destruct (whole_stands_for _ _ _ Hy) as [Sy HSy].
    pose proof (value_stands_for _ _ _ _ HSx) as Hvx.
    pose proof (value_stands_for _ _ _ _ HSy) as Hvy.
    rewrite Hvx, Hvy in *. rewrite <- inject_Z_plus in *.
    assert (Z.abs (Sx + Sy) < 2 ^ 53)%Z as Hbound.
    { unfold Qabs, inject_Z, Qlt in Hlt. cbn [Qnum Qden] in Hlt. lia. }
    set (ez := Z.min ex ey).
    assert (∀ s m e, (ez ≤ e)%Z →
              cond_Zopp s (Zpos (fst (shl_align m e ez)))
              = (cond_Zopp s (Zpos m) * 2 ^ (e - ez))%Z) as Hal.
    { intros s m e He. rewrite shl_align_fst by done. destruct s; cbn [cond_Zopp]; lia. }
    assert (stands_for (cond_Zopp sx (Zpos (fst (shl_align mx ex ez)))
                        + cond_Zopp sy (Zpos (fst (shl_align my ey ez)))) ez (Sx + Sy)) as Hrep.
    { apply stands_for_add; rewrite Hal by (unfold ez; lia);
        (apply stands_for_shift; [unfold ez; lia|done]). }
    destruct (binary_normalize_whole _ _ _ Hrep Hbound) as [Hfin Hval].
    change (Float.add (S754_finite sx mx ex) (S754_finite sy my ey))
      with (binary_normalize Float.prec Float.emax
              (cond_Zopp sx (Zpos (fst (shl_align mx ex ez)))
               + cond_Zopp sy (Zpos (fst (shl_align my ey ez)))) ez false).
    split; [|done]. split; [done|].
    apply (integral_comp (inject_Z (Sx + Sy))); [by symmetry|apply integral_inject_Z].
Qed.

Lemma abs_sum_nonneg values : (0 <= abs_sum values)%Q.
Proof.
  unfold abs_sum, Qsum. induction values as [|x values IH]; [done|].
  cbn [fmap list_fmap foldr]. pose proof (Qabs_nonneg (Float.value x)). lra.
Qed.

(** The running total of whole numbers is their arithmetic sum, when the
    absolute values add up to less than [2^53]. *)
Lemma running_total_whole_from (values : list spec_float) (acc : spec_float) :
  whole acc → Forall whole values →
  (Qabs (Float.value acc) + abs_sum values < inject_Z (2 ^ 53))%Q →
  whole (foldl Float.add acc values)
  ∧ (Float.value (foldl Float.add acc values) == Float.value acc + exact_sum values)%Q.
Proof.
  revert acc. induction values as [|x values IH]; intros acc Hacc Hall Hlt.
  { split; [done|]. unfold exact_sum, Qsum. simpl. lra. }
  apply Forall_cons in Hall as [Hx Hall].
  assert (abs_sum (x :: values) == Qabs (Float.value x) + abs_sum values)%Q as Habs
    by reflexivity.
  assert (exact_sum (x :: values) == Float.value x + exact_sum values)%Q as Hsum
    by reflexivity.
  rewrite Habs in Hlt. pose proof (abs_sum_nonneg values) as Hnn.
  pose proof (Qabs_triangle (Float.value acc) (Float.value x)) as Htri.
  destruct (add_whole acc x Hacc Hx) as [Hw Hv]; [lra|].
  cbn [foldl]. destruct (IH (Float.add acc x) Hw Hall) as [Hw' Hv'].
  { rewrite Hv. lra. }
  split; [done|]. rewrite Hv', Hv, Hsum. lra.
Qed.

Lemma running_total_whole (values : list spec_float) :
  Forall whole values → (abs_sum values < inject_Z (2 ^ 53))%Q →
  whole (running_total values)
  ∧ (Float.value (running_total values) == exact_sum values)%Q.
Proof.
  intros Hall Hlt.
  destruct (running_total_whole_from values (S754_zero false) (whole_zero false) Hall)
    as [Hw Hv].
  - cbn [Float.value]. change (Qabs 0) with 0%Q. lra.
  - split; [done|]. rewrite Hv. cbn [Float.value]. lra.
Qed.

Lemma reported_sum_finite (total : spec_float) :
  Float.is_finite total = true →
  ∃ s, reported_sum total = Some s
       ∧ (integral (Float.value total) → s = NInt (Qfloor (Float.value total)))
       ∧ (¬ integral (Float.value total) →
          s = NFloat (round_to_cents (Float.sign total) (Float.value total))).
Proof.
  intros Hfin. pose proof (reported_sum_spec total) as Hs. rewrite Hfin in Hs.
  destruct Hs as [Hi Hn].
  destruct (Qeq_dec (Float.value total) (inject_Z (Qfloor (Float.value total)))) as [H|H].
  - exists (NInt (Qfloor (Float.value total))). split; [by apply Hi|]. by split.
  - exists (NFloat (round_to_cents (Float.sign total) (Float.value total))).
    split; [by apply Hn|]. by split.
Qed.

(** What is reported for a total that carries no rounding error. *)
Lemma reported_sum_exact (total : spec_float) (q : Q) (s : number) :
  (Float.value total == q)%Q →
  (integral (Float.value total) → s = NInt (Qfloor (Float.value total))) →
  (¬ integral (Float.value total) →
   s = NFloat (round_to_cents (Float.sign total) (Float.value total))) →
  (integral q → s = NInt (Qfloor q))
  ∧ (¬ integral q → s = NFloat (round_to_cents (Float.sign total) q)).
Proof.
  intros Hq Hi Hn. split; intros H.
  - rewrite Hi; [by rewrite (Qfloor_comp _ _ Hq)|].
    apply (integral_comp q); [by symmetry|done].
  - rewrite Hn; [by rewrite (round_to_cents_comp _ _ _ Hq)|].
    intros Hint. apply H. by apply (integral_comp (Float.value total)).
Qed.

(** C9 fails as stated.  The total of a column is rounded to two decimals
    before it is reported, so the single value 0.001 is reported as the sum
    0.0; and the total is a binary64 number that rounds at every addition,
    so the column [10^16, 1.0, -10^16], whose arithmetic sum is 1, is
    reported with the sum 0. *)
Lemma aggregate_sum_counterexample :
  let milli := Float.nearest 1 1000 in
  let sum_of records :=
    _calculate_aggregates digits_float_of_str unused_str_of_float records milli_fields
    ≫= fun aggs => agg_sum <$> aggs !! u "x" in
  (numeric_values digits_float_of_str milli_records (u "x") = [milli]
   ∧ sum_of milli_records = Some (NFloat (S754_zero false))
   ∧ ¬ (Float.value (S754_zero false) == exact_sum [milli])%Q)
  ∧ (numeric_values digits_float_of_str cancelling_records (u "x")
     = [Float.of_Z (10 ^ 16); Float.of_Z 1; Float.of_Z (- 10 ^ 16)]
     ∧ (exact_sum [Float.of_Z (10 ^ 16); Float.of_Z 1; Float.of_Z (- 10 ^ 16)] == 1)%Q
     ∧ sum_of cancelling_records = Some (NInt 0)).
Proof. cbv zeta. split_and!; by vm_compute. Qed.

(** C9, amended.  [_calculate_aggregates] raises exactly when, for one of
    the numeric fields, [float] overflows on an integer cell or the total
    is an infinity or a nan.  When it returns, a column has an entry
    exactly when it is one of the numeric fields and one of its cells at
    least is neither null nor rejected by [float]; the count of the entry
    is the number of those cells; and its sum is made from their running
    total, the binary64 number that the additions give from the left:
    the total as an integer when it is a whole number, and the total
    rounded to two decimals otherwise.  The sum is made in the same way
    from the arithmetic sum of the cells when the running total carries
    no rounding error, and it is that arithmetic sum when the cells are
    whole numbers whose absolute values add up to less than [2^53]. *)
Theorem calculate_aggregates_sum (float_of_str : pystr → option spec_float)
    (str_of_float : spec_float → pystr) (records : list (gmap pystr cell))
    (fields : list field) (fid : pystr) :
  let values := numeric_values float_of_str records fid in
  let total := running_total values in
  match _calculate_aggregates float_of_str str_of_float records fields with
  | Some aggs =>
      (∀ f, f ∈ numeric_fields str_of_float records fields →
            ¬ raises float_of_str records f)
      ∧ match aggs !! fid with
        | Some a =>
            fid ∈ numeric_fields str_of_float records fields
            ∧ values ≠ []
            ∧ agg_count a = length values
            ∧ Forall (fun x => Float.is_finite x = true) values
            ∧ Float.is_finite total = true
            ∧ (integral (Float.value total) →
               agg_sum a = NInt (Qfloor (Float.value total)))
            ∧ (¬ integral (Float.value total) →
               agg_sum a = NFloat (round_to_cents (Float.sign total) (Float.value total)))
            ∧ ((Float.value total == exact_sum values)%Q →
               (integral (exact_sum values) → agg_sum a = NInt (Qfloor (exact_sum values)))
               ∧ (¬ integral (exact_sum values) →
                  agg_sum a = NFloat (round_to_cents (Float.sign total) (exact_sum values))))
            ∧ (Forall whole values → (abs_sum values < inject_Z (2 ^ 53))%Q →
               integral (exact_sum values)
               ∧ agg_sum a = NInt (Qfloor (exact_sum values)))
        | None => fid ∉ numeric_fields str_of_float records fields ∨ values = []
        end
  | None =>
      ∃ f, f ∈ numeric_fields str_of_float records fields
           ∧ raises float_of_str records f
  end.
Proof.
  cbv zeta. unfold _calculate_aggregates. destruct records as [|r records].
  { split.
    - intros f _ [(? & ? & ?%not_elem_of_nil & _)|[? _]]; done.
    - rewrite lookup_empty. by right. }
  set (rs := r :: records). clearbody rs.
  destruct (aggregate_loop_spec float_of_str rs
              (numeric_fields str_of_float rs fields) ∅)
    as [[Hex ->]|(Hall & aggs & -> & Hlook)]; [exact Hex|].
  split; [exact Hall|]. rewrite Hlook, lookup_empty.
  set (values := numeric_values float_of_str rs fid) in *.
  destruct (decide _) as [[Hin Hc]|Hn].
  - assert (values ≠ []) as Hne by (intros Hv; rewrite Hv in Hc; simpl in Hc; lia).
    assert (Float.is_finite (running_total values) = true) as Hfin.
    { destruct (Float.is_finite (running_total values)) eqn:E; [done|].
      exfalso. apply (Hall fid Hin). by right. }
    destruct (reported_sum_finite _ Hfin) as (s & -> & Hi & Hni).
    cbn [fmap option_fmap option_map agg_sum agg_count].
    split_and!; try done.
    + by apply (running_total_is_finite values (S754_zero false)).
    + intros Hq. by apply reported_sum_exact.
    + intros Hw Hlt. destruct (running_total_whole values Hw Hlt) as [[_ Hint] Hv].
      destruct (reported_sum_exact _ _ s Hv Hi Hni) as [He _].
      assert (integral (exact_sum values)) as Hint'
        by (by apply (integral_comp (Float.value (running_total values)))).
      split; [done|by apply He].
  - destruct (decide (fid ∈ numeric_fields str_of_float rs fields)); [|by left].
    right. destruct values; [done|]. exfalso. apply Hn. split; [done|]. simpl. lia.
Qed.

(** Text that is not a number, a null and a missing cell leave both the sum
    and the count alone; a number written with a comma counts. *)
Example calculate_aggregates_mixed :
  numeric_values digits_float_of_str mixed_records (u "n")
  = [Float.of_Z 40; Float.of_Z 15; Float.nearest 1 2]
  ∧ (_calculate_aggregates digits_float_of_str unused_str_of_float
                           mixed_records mixed_fields
     ≫= fun aggs => aggs !! u "n")
    = Some {| agg_sum := NFloat (Float.nearest 555 10); agg_count := 3 |}.
Proof. split; by vm_compute. Qed.

(** The text [nan] is a float for Python, and an integer of 400 digits is
    out of the range of [float]: on either the function raises. *)
Example calculate_aggregates_raises :
  _calculate_aggregates digits_float_of_str unused_str_of_float nan_records mixed_fields
  = None
  ∧ _calculate_aggregates digits_float_of_str unused_str_of_float huge_records mixed_fields
    = None.
Proof. split; by vm_compute. Qed.

(** ** Rephrasing and the vague-query signal *)

(** C4. [rephrase_query] returns at most three alternatives, and one of
    them can be the query itself: for the query [court], whose only
    synonym in ASCII is [court], the third strategy returns the query as
    its own alternative. *)
Theorem rephrase_query_returns_original :
  (∀ g query, length (rephrase_query g query) ≤ 3)
  ∧ rephrase_query bare (u "court") = [u "court"].
Proof.
  split; [|by vm_compute].
  intros g query. unfold rephrase_query.
  destruct (_tokenize_hebrew query false); [simpl; lia|].
  cbv zeta. rewrite length_take. lia.
Qed.

Lemma try_rephrased_confident g map_data alts calls alt_result alt_query :
  try_rephrased g map_data alts = (calls, Some (alt_result, alt_query)) →
  low_confidence (candidates alt_result) = false.
Proof.
  revert calls. induction alts as [|a alts IH]; intros calls; cbn [try_rephrased];
    [done|].
  destruct (low_confidence (candidates (suggest_for_query g a map_data 5))) eqn:Hlow;
    cbn [negb].
  - destruct (try_rephrased g map_data alts) as [calls' found].
    intros [= <- ->]. by eapply IH.
  - by intros [= <- <- <-].
Qed.

(** The loop over the rephrased queries searches them in order and stops
    at the first that is not of low confidence. *)
Lemma try_rephrased_spec (g : globals) (map_data : list dataset) (alts : list pystr) :
  match try_rephrased g map_data alts with
  | (calls, Some (alt_result, alt_query)) =>
      ∃ failed rest,
        alts = failed ++ alt_query :: rest
        ∧ calls = map SuggestForQuery (failed ++ [alt_query])
        ∧ (∀ alt, alt ∈ failed →
                  low_confidence (candidates (suggest_for_query g alt map_data 5)) = true)
        ∧ alt_result = suggest_for_query g alt_query map_data 5
        ∧ low_confidence (candidates alt_result) = false
  | (calls, None) =>
      calls = map SuggestForQuery alts
      ∧ ∀ alt, alt ∈ alts →
               low_confidence (candidates (suggest_for_query g alt map_data 5)) = true
  end.
Proof.
  induction alts as [|a alts IH]; cbn [try_rephrased].
  - split; [done|by intros ? ?%not_elem_of_nil].
  - destruct (low_confidence (candidates (suggest_for_query g a map_data 5))) eqn:Hlow;
      cbn [negb].
    + destruct (try_rephrased g map_data alts) as [calls [[alt_result alt_query]|]].
      * destruct IH as (failed & rest & -> & -> & Hf & -> & Hc).
        exists (a :: failed), rest. split_and!; [done..| |done|done].
        intros alt [->|?]%elem_of_cons; [done|by apply Hf].
      * destruct IH as [-> IH]. split; [done|].
        intros alt [->|?]%elem_of_cons; [done|by apply IH].
    + exists [], alts. split_and!; [done..|by intros ? ?%not_elem_of_nil|done|done].
Qed.

(** C5 fails as stated.  For the query [DD xx], which has no meaningful
    token, the engine asks for rephrasings and searches the rephrased query
    before it gives the vague-query signal; and for the query [zz], which
    has none either, it finds a confident match and gives no signal. *)
Lemma vague_query_counterexample :
  meaningful_tokens (u "DD xx") = []
  ∧ datagov_query_front bare (Some []) (u "DD xx")
    = ([SuggestForQuery (u "DD xx"); RephraseQuery (u "DD xx");
        SuggestForQuery (u "dd xx"); GetCategorySuggestion (u "DD xx")],
       StatusQueryTooVague VAGUE_SUGGESTION)
  ∧ meaningful_tokens (u "zz") = []
  ∧ (datagov_query_front bare (Some [zz_ds]) (u "zz")).1 = [SuggestForQuery (u "zz")]
  ∧ status (datagov_query_front bare (Some [zz_ds]) (u "zz")).2 = None.
Proof. cbv zeta. split_and!; by vm_compute. Qed.

(** C5, amended.  A query with no meaningful token gets a suggestion from
    [get_category_suggestion].  When the resource map is loaded and the
    query is not blank, [datagov_query] answers it with the vague-query
    status only after the search of the query and the searches of all its
    rephrasings have left no candidate of score 0.35 or more, with
    [get_category_suggestion] as its last call; otherwise the search ends
    with a candidate of score 0.35 or more and the request goes on.  It
    never answers it with the no-match status, which is a different one. *)
Theorem vague_query_signal (g : globals) (map_data : list dataset) (query : pystr) :
  meaningful_tokens query = [] →
  not_blank query →
  get_category_suggestion query = Some VAGUE_SUGGESTION
  ∧ (let calls := (datagov_query_front g (Some map_data) query).1 in
     let r := (datagov_query_front g (Some map_data) query).2 in
     (r = StatusQueryTooVague VAGUE_SUGGESTION
      ∧ RephraseQuery query ∈ calls
      ∧ last calls = Some (GetCategorySuggestion query)
      ∧ low_confidence (candidates (suggest_for_query g query map_data 5)) = true
      ∧ (∀ alt, alt ∈ rephrase_query g query →
                SuggestForQuery alt ∈ calls
                ∧ low_confidence (candidates (suggest_for_query g alt map_data 5)) = true))
     ∨ (∃ result used_rephrase,
          r = Continue result used_rephrase
          ∧ low_confidence (candidates result) = false))
  ∧ (∀ message d, status (StatusQueryTooVague message) ≠ status (StatusNotInDatagov d)).
Proof.
  intros Hvague Hblank.
  assert (Hsugg : get_category_suggestion query = Some VAGUE_SUGGESTION).
  { unfold get_category_suggestion. by rewrite Hvague. }
  split; [done|]. split; [|by intros message d].
  cbv zeta. unfold datagov_query_front.
  unfold not_blank in Hblank.
  destruct (filter (fun c => isspace_cp c = false) query) eqn:Hq; [done|]. simpl empty.
  cbv iota. clear Hq Hblank.
  set (initial := suggest_for_query g query map_data 5).
  destruct (low_confidence (candidates initial)) eqn:Hinit.
  - pose proof (try_rephrased_spec g map_data (rephrase_query g query)) as Hspec.
    destruct (try_rephrased g map_data (rephrase_query g query)) as [tried found] eqn:Htry.
    destruct found as [[alt_result alt_query]|].
    + apply try_rephrased_confident in Htry. rewrite Htry. right. by eexists _, _.
    + destruct Hspec as [-> Hall].
      rewrite Hinit, Hsugg. left. simpl. split; [done|]. split_and!.
      * right. left.
      * change (last ((RephraseQuery query
                         :: map SuggestForQuery (rephrase_query g query))
                        ++ [GetCategorySuggestion query])
                = Some (GetCategorySuggestion query)).
        apply last_snoc.
      * done.
      * intros alt Halt. split; [|by apply Hall].
        right. right. apply elem_of_app. left. apply list_elem_of_fmap. by exists alt.
  - rewrite Hinit. right. by eexists _, _.
Qed.

Lemma vague_query_signal_witness :
  meaningful_tokens (u "DD xx") = []
  ∧ not_blank (u "DD xx")
  ∧ get_category_suggestion (u "DD xx") = Some VAGUE_SUGGESTION
  ∧ (let calls := (datagov_query_front bare (Some []) (u "DD xx")).1 in
     let r := (datagov_query_front bare (Some []) (u "DD xx")).2 in
     (r = StatusQueryTooVague VAGUE_SUGGESTION
      ∧ RephraseQuery (u "DD xx") ∈ calls
      ∧ last calls = Some (GetCategorySuggestion (u "DD xx"))
      ∧ low_confidence (candidates (suggest_for_query bare (u "DD xx") [] 5)) = true
      ∧ (∀ alt, alt ∈ rephrase_query bare (u "DD xx") →
                SuggestForQuery alt ∈ calls
                ∧ low_confidence (candidates (suggest_for_query bare alt [] 5)) = true))
     ∨ (∃ result used_rephrase,
          r = Continue result used_rephrase
          ∧ low_confidence (candidates result) = false)).
Proof.
  assert (H1 : meaningful_tokens (u "DD xx") = []) by (by vm_compute).
  assert (H2 : not_blank (u "DD xx")) by (by vm_compute).
  split; [exact H1|]. split; [exact H2|].
  destruct (vague_query_signal bare [] (u "DD xx") H1 H2) as (H3 & H4 & _).
  split; [exact H3|exact H4].
Defined.

(** * Further properties *)

(** ** The tokenizer *)

Lemma lower_cp_idemp (c : N) : lower_cp (lower_cp c) = lower_cp c.
Proof.
  unfold lower_cp.
  destruct ((65 <=? c)%N && (c <=? 90)%N) eqn:H; [|by rewrite H].
  apply andb_true_iff in H as [H1%N.leb_le H2%N.leb_le].
  assert ((c + 32 <=? 90)%N = false) as -> by (apply N.leb_gt; lia).
  by rewrite andb_false_r.
Qed.

Lemma lower_idemp (s : pystr) : lower (lower s) = lower s.
Proof.
  unfold lower. rewrite map_map. apply map_ext. intros c. apply lower_cp_idemp.
Qed.

Lemma elem_of_rev {A} (l : list A) (x : A) : x ∈ rev l ↔ x ∈ l.
Proof. rewrite !list_elem_of_In. symmetry. apply in_rev. Qed.

(** The pieces [re.split] returns are made of characters of the text that
    are not separators. *)
Lemma re_split_go_chars (p : N → bool) (s cur : pystr) (in_run : bool) (x : pystr) (c : N) :
  x ∈ re_split_go p s cur in_run → c ∈ x →
  (c ∈ cur ∨ (c ∈ s ∧ p c = false)).
Proof.
  revert cur in_run. induction s as [|d s IH]; intros cur in_run; simpl.
  - intros ->%list_elem_of_singleton Hc. left. by apply elem_of_rev.
  - destruct (p d) eqn:Hd.
    + destruct in_run.
      * intros Hx Hc. destruct (IH _ _ Hx Hc) as [?|[? ?]]; [by left|].
        right. split; [by right|done].
      * intros [->|Hx]%elem_of_cons Hc.
        -- left. by apply elem_of_rev.
        -- destruct (IH _ _ Hx Hc) as [?%not_elem_of_nil|[? ?]]; [done|].
           right. split; [by right|done].
    + intros Hx Hc. destruct (IH _ _ Hx Hc) as [[->|?]%elem_of_cons|[? ?]].
      * right. split; [by left|done].
      * by left.
      * right. split; [by right|done].
Qed.

Lemma re_split_chars (p : N → bool) (s x : pystr) (c : N) :
  x ∈ re_split p s → c ∈ x → c ∈ s ∧ p c = false.
Proof.
  intros Hx Hc. by destruct (re_split_go_chars _ _ _ _ _ _ Hx Hc) as [?%not_elem_of_nil|?].
Qed.

(** What [_strip_hebrew_prefix] returns: the word itself, or the word
    without its first one or two characters. *)
Lemma strip_prefix_len_Some (word : pystr) (force : bool) (k : nat) (stripped : pystr) :
  strip_prefix_len word force k = Some stripped →
  stripped = drop k word ∧ take k word ∈ HEBREW_PREFIXES ∧ 3 ≤ len stripped
  ∧ k + 2 < len word
  ∧ (force = false → is_location_like (lower stripped) = true).
Proof.
  unfold strip_prefix_len.
  destruct (k + 2 <? len word) eqn:Hk; [|done]. apply Nat.ltb_lt in Hk.
  unfold mem. case_bool_decide as Hp; [|done].
  destruct (3 <=? len (drop k word)) eqn:Hl; [|done]. apply Nat.leb_le in Hl.
  destruct force; simpl.
  - intros [= <-]. done.
  - destruct (is_location_like (lower (drop k word))) eqn:Hloc; [|done].
    intros [= <-]. done.
Qed.

Lemma strip_hebrew_prefix_cases (word : pystr) (force : bool) :
  _strip_hebrew_prefix word force = word
  ∨ ∃ k, (k = 1 ∨ k = 2)
         ∧ _strip_hebrew_prefix word force = drop k word
         ∧ take k word ∈ HEBREW_PREFIXES
         ∧ 3 ≤ len (drop k word)
         ∧ has_hebrew word = true
         ∧ (force = false → is_location_like (lower (drop k word)) = true).
Proof.
  unfold _strip_hebrew_prefix.
  destruct (empty word || (len word <? 4)); [by left|].
  destruct (has_hebrew word) eqn:Hh; simpl; [|by left].
  destruct (strip_prefix_len word force 2) as [s2|] eqn:H2.
  - apply strip_prefix_len_Some in H2 as (-> & ? & ? & ? & ?).
    right. exists 2. split_and!; auto.
  - destruct (strip_prefix_len word force 1) as [s1|] eqn:H1; [|by left].
    apply strip_prefix_len_Some in H1 as (-> & ? & ? & ? & ?).
    right. exists 1. split_and!; auto.
Qed.

Lemma well_formed_drop (k : nat) (t : pystr) :
  (∀ c, c ∈ t → is_separator c = false) → lower t = t → 2 ≤ len (drop k t) →
  well_formed_token (drop k t).
Proof.
  intros Hsep Hlow Hlen. split; [done|]. split.
  - intros c Hc. apply Hsep. rewrite <- (take_drop k t). apply elem_of_app. by right.
  - unfold lower in *. rewrite <- Hlow at 2. by rewrite <- skipn_map.
Qed.

Lemma keep_token_well_formed (flag : bool) (pieces result : list pystr) :
  Forall (fun t => (∀ c, c ∈ t → is_separator c = false) ∧ lower t = t) pieces →
  Forall well_formed_token result →
  Forall well_formed_token (foldl (keep_token flag) result pieces).
Proof.
  intros Hp. revert result. induction Hp as [|t pieces [Hsep Hlow] _ IH]; intros result Hr;
    cbn [foldl]; [done|].
  apply IH. unfold keep_token.
  destruct (empty t || (len t <=? 1) || mem t STOP_WORDS) eqn:Hskip; [done|].
  apply orb_false_iff in Hskip as [[_ Hlen%Nat.leb_gt]%orb_false_iff _].
  assert (well_formed_token t) as Ht by (split; [unfold len in *; lia|done]).
  destruct flag.
  - destruct (negb (empty (_strip_hebrew_prefix t false))
              && (1 <? len (_strip_hebrew_prefix t false))) eqn:Hs.
    + apply Forall_app. split; [done|]. apply Forall_singleton.
      apply andb_true_iff in Hs as [_ Hs%Nat.ltb_lt].
      destruct (strip_hebrew_prefix_cases t false) as [->|(k & _ & Hk & _)]; [done|].
      rewrite Hk in *. apply well_formed_drop; [done..|lia].
    + destruct (negb (empty t) && (1 <? len t)); [|done].
      apply Forall_app. split; [done|]. by apply Forall_singleton.
  - destruct (1 <? len t); [|done].
    apply Forall_app. split; [done|]. by apply Forall_singleton.
Qed.

Lemma tokens_well_formed (text : pystr) (strip_prefixes : bool) :
  Forall well_formed_token (_tokenize_hebrew text strip_prefixes).
Proof.
  unfold _tokenize_hebrew.
  destruct (empty text); [done|].
  apply keep_token_well_formed; [|done].
  apply Forall_forall. intros x Hx. split.
  - intros c Hc. by destruct (re_split_chars _ _ _ _ Hx Hc).
  - unfold lower at 1. rewrite <- (map_id x) at 2. apply map_ext_in.
    intros c Hc%list_elem_of_In.
    destruct (re_split_chars _ _ _ _ Hx Hc) as [(d & -> & _)%list_elem_of_fmap _].
    apply lower_cp_idemp.
Qed.

(** X1.  Every token [_tokenize_hebrew] returns has at least two
    characters, holds no separator and is in lower case, with and without
    prefix stripping; without stripping, no token is a stop word. *)
Theorem tokenize_hebrew_well_formed (text : pystr) (strip_prefixes : bool) (t : pystr) :
  t ∈ _tokenize_hebrew text strip_prefixes →
  well_formed_token t ∧ (strip_prefixes = false → t ∉ STOP_WORDS).
Proof.
  intros Ht. split.
  - revert t Ht. apply Forall_forall, tokens_well_formed.
  - intros ->. apply tokenize_elem_of in Ht as (_ & _ & Hk).
    apply andb_true_iff in Hk as [_ Hk]. unfold mem in Hk.
    by apply negb_true_iff, bool_decide_eq_false in Hk.
Qed.

Lemma tokenize_hebrew_well_formed_witness :
  u "חולים" ∈ _tokenize_hebrew (u "בתי-חולים, של Haifa") false
  ∧ well_formed_token (u "חולים")
  ∧ (u "חולים" ∉ STOP_WORDS).
Proof.
  assert (u "חולים" ∈ _tokenize_hebrew (u "בתי-חולים, של Haifa") false) as H
    by (apply (bool_decide_unpack _); by vm_compute).
  split; [done|].
  destruct (tokenize_hebrew_well_formed _ _ _ H) as [H1 H2]. split; [done|by apply H2].
Defined.

(** Splitting what [join] has put together. *)
Lemma re_split_go_word (p : N → bool) (t s cur : pystr) :
  (∀ c, c ∈ t → p c = false) →
  re_split_go p (t ++ s) cur false = re_split_go p s (rev t ++ cur) false.
Proof.
  revert cur. induction t as [|c t IH]; intros cur Ht; [done|].
  simpl. rewrite (Ht c) by by left.
  rewrite IH by (intros d Hd; apply Ht; by right).
  by rewrite <- app_assoc.
Qed.

Lemma re_split_go_start (p : N → bool) (s cur : pystr) (in_run : bool) :
  (∃ c r, s = c :: r ∧ p c = false) →
  re_split_go p s cur in_run = re_split_go p s cur false.
Proof. intros (c & r & -> & Hc). simpl. by rewrite Hc. Qed.

Lemma join_cons_start (sep t : pystr) (rest : list pystr) (c : N) (r : pystr) :
  t = c :: r → ∃ r', join sep (t :: rest) = c :: r'.
Proof. intros ->. destruct rest; simpl; eauto. Qed.

Lemma re_split_join (p : N → bool) (sepc : N) (parts : list pystr) :
  p sepc = true → parts ≠ [] →
  Forall (fun t => t ≠ [] ∧ ∀ c, c ∈ t → p c = false) parts →
  re_split p (join [sepc] parts) = parts.
Proof.
  intros Hsep Hne Hparts. unfold re_split.
  induction Hparts as [|t rest [Ht Hc] Hrest IH]; [done|].
  destruct rest as [|t2 rest].
  - simpl. rewrite <- (app_nil_r t) at 1. rewrite re_split_go_word by done.
    simpl. by rewrite app_nil_r, rev_involutive.
  - change (join [sepc] (t :: t2 :: rest)) with (t ++ sepc :: join [sepc] (t2 :: rest)).
    rewrite re_split_go_word by done. cbn [re_split_go]. rewrite Hsep.
    rewrite app_nil_r, rev_involutive. f_equal.
    rewrite re_split_go_start; [by apply IH|].
    apply Forall_cons in Hrest as [[Ht2 Hc2] _].
    destruct t2 as [|c r]; [done|].
    destruct (join_cons_start [sepc] (c :: r) rest c r eq_refl) as [r' Hr'].
    exists c, r'. split; [done|]. apply Hc2. by left.
Qed.

Lemma lower_join (sep : pystr) (parts : list pystr) :
  lower (join sep parts) = join (lower sep) (map lower parts).
Proof.
  induction parts as [|t [|t2 rest] IH]; [done..|].
  change (join sep (t :: t2 :: rest)) with (t ++ sep ++ join sep (t2 :: rest)).
  unfold lower at 1. rewrite !map_app. fold (lower (join sep (t2 :: rest))).
  by rewrite IH.
Qed.

Lemma filter_all {A} (P : A → Prop) `{∀ x, Decision (P x)} (l : list A) :
  Forall P l → filter P l = l.
Proof.
  induction 1 as [|x l Hx _ IH]; [done|]. by rewrite filter_cons_True, IH.
Qed.

(** X2.  Tokenising is idempotent through [join]: the tokens of a text,
    joined by blanks as [rephrase_query] joins them, are tokenised into
    themselves. *)
Theorem tokenize_hebrew_join (text : pystr) :
  _tokenize_hebrew (join (u " ") (_tokenize_hebrew text false)) false
  = _tokenize_hebrew text false.
Proof.
  assert (Forall (fun t => well_formed_token t
                           ∧ (1 <? len t) && negb (mem t STOP_WORDS) = true)
                 (_tokenize_hebrew text false)) as Hall.
  { apply Forall_forall. intros t Ht. split.
    - revert t Ht. apply Forall_forall, tokens_well_formed.
    - by apply tokenize_elem_of in Ht as (_ & _ & ?). }
  destruct (_tokenize_hebrew text false) as [|t0 rest] eqn:Htok; [done|].
  unfold _tokenize_hebrew.
  assert (empty (join (u " ") (t0 :: rest)) = false) as ->.
  { apply Forall_cons in Hall as [[(Hlen & _) _] _].
    destruct t0 as [|c r]; [simpl in Hlen; lia|].
    by destruct (join_cons_start (u " ") (c :: r) rest c r eq_refl) as [r' ->]. }
  rewrite lower_join.
  assert (map lower (t0 :: rest) = t0 :: rest) as ->.
  { rewrite <- (map_id (t0 :: rest)) at 2. apply map_ext_in.
    intros t Ht%list_elem_of_In. rewrite Forall_forall in Hall.
    by destruct (Hall t Ht) as [(_ & _ & ?) _]. }
  change (lower (u " ")) with [32%N].
  rewrite re_split_join; [|done|done|].
  - rewrite tokenize_loop_spec. simpl app. apply filter_all.
    eapply Forall_impl; [exact Hall|]. by intros t [_ ?].
  - eapply Forall_impl; [exact Hall|]. intros t [(Hlen & Hc & _) _]. split; [|done].
    intros ->. simpl in Hlen. lia.
Qed.

(** ** Prefixes and morphological variants *)

(** X3.  [_strip_hebrew_prefix] returns the word itself, or the word
    without a first part of one or two characters that is a listed prefix;
    it cuts only words with a Hebrew letter, leaves at least three
    characters, and when it is not forced it cuts only down to something
    that looks like a place name. *)
Theorem strip_hebrew_prefix_sound (word : pystr) (force : bool) :
  _strip_hebrew_prefix word force = word
  ∨ ∃ k, (k = 1 ∨ k = 2)
         ∧ _strip_hebrew_prefix word force = drop k word
         ∧ take k word ∈ HEBREW_PREFIXES
         ∧ 3 ≤ len (_strip_hebrew_prefix word force)
         ∧ has_hebrew word = true
         ∧ (force = false
            → is_location_like (lower (_strip_hebrew_prefix word force)) = true).
Proof.
  destruct (strip_hebrew_prefix_cases word force) as [?|(k & ? & Hk & ? & ? & ? & ?)];
    [by left|].
  right. exists k. rewrite Hk. done.
Qed.

Lemma strip_first_prefix_cases (word : pystr) (prefixes : list pystr) :
  strip_first_prefix word prefixes = word
  ∨ ∃ prefix, prefix ∈ prefixes ∧ startswith word prefix = true
              ∧ len prefix + 1 < len word
              ∧ strip_first_prefix word prefixes = drop (len prefix) word.
Proof.
  induction prefixes as [|p rest IH]; [by left|]. simpl.
  destruct (startswith word p && (len p + 1 <? len word)) eqn:Hp.
  - apply andb_true_iff in Hp as [? ?%Nat.ltb_lt]. right. exists p.
    split_and!; [by left|done..].
  - destruct IH as [?|(q & ? & ? & ? & ?)]; [by left|].
    right. exists q. split_and!; [by right|done..].
Qed.

Lemma strip_first_prefix_len (word : pystr) (prefixes : list pystr) :
  2 ≤ len word → 2 ≤ len (strip_first_prefix word prefixes).
Proof.
  intros Hw. destruct (strip_first_prefix_cases word prefixes) as [->|(p & _ & _ & Hl & ->)];
    [done|].
  unfold len in *. rewrite length_drop. lia.
Qed.

(** [add_singulars] keeps the variants it is given, and adds only words of
    two characters or more. *)
Lemma add_singulars_spec (variants : gset pystr) (base v : pystr) :
  (v ∈ variants → v ∈ add_singulars variants base)
  ∧ (v ∈ add_singulars variants base → v ∈ variants ∨ 2 ≤ len v).
Proof.
  unfold add_singulars. revert variants.
  induction HEBREW_PLURAL_SUFFIXES as [|suffix rest IH]; intros variants; cbn [foldl];
    [by split; [|left]|].
  destruct (endswith base suffix && (len suffix + 1 <? len base)) eqn:Hs; [|apply IH].
  apply andb_true_iff in Hs as [_ Hs%Nat.ltb_lt].
  assert (2 ≤ len (take (len base - len suffix) base)) as Hlen
    by (unfold len in *; rewrite length_take; lia).
  set (singular := take (len base - len suffix) base) in *.
  destruct (eqb suffix (u "ים")).
  - destruct (IH (variants ∪ {[singular]} ∪ {[singular ++ u "ה"]})) as [IH1 IH2]. split.
    + intros Hv. apply IH1. set_solver.
    + intros Hv. destruct (IH2 Hv) as [Hin|?]; [|by right].
      apply elem_of_union in Hin as [[?| ->%elem_of_singleton]%elem_of_union
                                     | ->%elem_of_singleton].
      * by left.
      * by right.
      * right. unfold len in *. rewrite length_app. lia.
  - destruct (IH (variants ∪ {[singular]})) as [IH1 IH2]. split.
    + intros Hv. apply IH1. set_solver.
    + intros Hv. destruct (IH2 Hv) as [Hin|?]; [|by right].
      apply elem_of_union in Hin as [?| ->%elem_of_singleton]; [by left|by right].
Qed.

Lemma lower_length (s : pystr) : len (lower s) = len s.
Proof. apply length_map. Qed.

Lemma get_hebrew_variants_facts (word : pystr) :
  NoDup (get_hebrew_variants word)
  ∧ (∀ v, v ∈ get_hebrew_variants word → word ≠ [])
  ∧ (word ≠ [] → word ∈ get_hebrew_variants word)
  ∧ (2 ≤ len word → ∀ v, v ∈ get_hebrew_variants word → 2 ≤ len v)
  ∧ (2 ≤ len word → has_hebrew word = false →
     ∀ v, v ∈ get_hebrew_variants word ↔ v = word ∨ v = lower word)
  ∧ (len word = 1 → get_hebrew_variants word = [word]).
Proof.
  unfold get_hebrew_variants.
  destruct word as [|c [|c' w]].
  - simpl. split_and!; [constructor|by intros v ?%not_elem_of_nil|done|simpl; lia..].
  - simpl. split_and!; [apply NoDup_singleton|done|intros _; by left|lia|lia|done].
  - set (word := c :: c' :: w).
    assert (empty word || (len word <? 2) = false) as -> by done.
    assert (2 ≤ len word) as Hw by (simpl; lia).
    destruct (has_hebrew word) eqn:Hh; simpl negb; cbv iota.
    + cbn [foldl].
      set (stripped := strip_first_prefix word (sort_desc len_gt HEBREW_PREFIXES)).
      assert (2 ≤ len stripped) as Hst by by apply strip_first_prefix_len.
      split_and!; [apply NoDup_elements|done| | |done|simpl; lia].
      * intros _. apply elem_of_elements.
        apply add_singulars_spec, add_singulars_spec. set_solver.
      * intros _ v Hv%elem_of_elements.
        apply add_singulars_spec in Hv as [Hv|?]; [|done].
        apply add_singulars_spec in Hv as [Hv|?]; [|done].
        apply elem_of_union in Hv as [[->%elem_of_singleton
                                       | ->%elem_of_singleton]%elem_of_union
                                      | ->%elem_of_singleton]; [done| |done].
        by rewrite lower_length.
    + split_and!; [apply NoDup_elements|done| | | |simpl; lia].
      * intros _. apply elem_of_elements. set_solver.
      * intros _ v Hv%elem_of_elements.
        apply elem_of_union in Hv as [->%elem_of_singleton| ->%elem_of_singleton];
          [done|by rewrite lower_length].
      * intros _ _ v. rewrite elem_of_elements. set_solver.
Qed.

(** X4.  [get_hebrew_variants] returns the word among its variants (none
    for the empty word), without repetition; the variants of a word of two
    characters or more have two characters or more; a word of two
    characters or more without a Hebrew letter has itself and its
    lower-case form as its only variants; and a word of one character has
    itself as its only variant. *)
Theorem get_hebrew_variants_spec (word : pystr) :
  NoDup (get_hebrew_variants word)
  ∧ (∀ v, v ∈ get_hebrew_variants word → word ≠ [])
  ∧ (word ≠ [] → word ∈ get_hebrew_variants word)
  ∧ (2 ≤ len word → ∀ v, v ∈ get_hebrew_variants word → 2 ≤ len v)
  ∧ (2 ≤ len word → has_hebrew word = false →
     ∀ v, v ∈ get_hebrew_variants word ↔ v = word ∨ v = lower word)
  ∧ (len word = 1 → get_hebrew_variants word = [word]).
Proof. apply get_hebrew_variants_facts. Qed.

(** ** The expansion table and the indices *)

Lemma eqb_true (a b : pystr) : eqb a b = true ↔ a = b.
Proof. unfold eqb. apply bool_decide_eq_true. Qed.

Lemma dict_get_app {V} (a b : list (pystr * V)) (k : pystr) :
  dict_get (a ++ b) k
  = match dict_get a k with Some v => Some v | None => dict_get b k end.
Proof.
  induction a as [|[k' v] a IH]; [done|]. simpl. by destruct (eqb k' k).
Qed.

Lemma dict_get_merge {V} (a b : list (pystr * V)) (k : pystr) :
  dict_get (dict_merge a b) k
  = match dict_get b k with Some v => Some v | None => dict_get a k end.
Proof.
  unfold dict_merge. rewrite dict_get_app.
  assert (dict_get (map (fun kv => (kv.1, default kv.2 (dict_get b kv.1))) a) k
          = match dict_get a k with
            | Some v => Some (default v (dict_get b k))
            | None => None
            end) as ->.
  { induction a as [|[k' v] a IH]; [done|]. simpl.
    destruct (eqb k' k) eqn:Hk; [|done]. apply eqb_true in Hk as ->. done. }
  destruct (dict_get a k) as [v|] eqn:Ha.
  - by destruct (dict_get b k).
  - induction b as [|[k' w] b IH]; [done|].
    destruct (decide (dict_get a k' = None)) as [Hn|Hn].
    + rewrite filter_cons_True by done. simpl. by destruct (eqb k' k).
    + rewrite filter_cons_False by done. simpl.
      destruct (eqb k' k) eqn:Hk; [|done]. apply eqb_true in Hk as ->. done.
Qed.

(** X5.  In [SUBJECT_EXPANSIONS] an entry of the enterprise table replaces
    the entry of the base table with the same key, and every other entry of
    either table is kept. *)
Theorem subject_expansions_priority (e : env) (k : pystr) :
  dict_get (SUBJECT_EXPANSIONS (module_load e)) k
  = match dict_get (ENTERPRISE_SUBJECT_EXPANSIONS e) k with
    | Some expansions => Some expansions
    | None => dict_get _BASE_SUBJECT_EXPANSIONS k
    end.
Proof. apply dict_get_merge. Qed.

(** An entry of the index holds its own key. *)
Lemma index_group_self (idx : gmap pystr (gset pystr)) (group : gset pystr) :
  (∀ x s, idx !! x = Some s → x ∈ s) →
  ∀ x s, index_group idx group !! x = Some s → x ∈ s.
Proof.
  unfold index_group.
  assert (∀ terms : list pystr, (∀ t, t ∈ terms → t ∈ group) →
          ∀ idx : gmap pystr (gset pystr), (∀ x s, idx !! x = Some s → x ∈ s) →
          ∀ x s, foldl (fun idx term => <[term := synset idx term ∪ group]> idx) idx terms
                 !! x = Some s → x ∈ s) as H.
  { induction terms as [|t terms IH]; intros Hg idx' Hinv; [done|]. cbn [foldl].
    apply IH; [intros; apply Hg; by right|].
    intros x s. destruct (decide (t = x)) as [->|Hne].
    - rewrite lookup_insert_eq. intros [= <-]. apply elem_of_union. right.
      apply Hg. by left.
    - rewrite lookup_insert_ne by done. apply Hinv. }
  intros Hinv. apply H; [|done]. intros t. apply elem_of_elements.
Qed.

Lemma build_index_self_key (table : list (pystr * list pystr)) (x : pystr) (s : gset pystr) :
  _build_bidirectional_index table !! x = Some s → x ∈ s.
Proof.
  unfold _build_bidirectional_index. revert x s.
  assert (∀ idx : gmap pystr (gset pystr), (∀ x s, idx !! x = Some s → x ∈ s) →
          ∀ x s, foldl (fun idx kv => index_group idx (list_to_set kv.2 ∪ {[kv.1]})) idx table
                 !! x = Some s → x ∈ s) as H.
  { induction table as [|kv table IH]; intros idx Hinv; [done|]. cbn [foldl].
    apply IH. by apply index_group_self. }
  apply H. intros x s. by rewrite lookup_empty.
Qed.

(** X6.  What [_build_bidirectional_index] builds: a term has an entry
    exactly when it occurs in the raw table, as a key or as an expansion;
    its entry holds the term itself and the terms that share a raw entry
    with it, and nothing else. *)
Theorem bidirectional_index_entries (table : list (pystr * list pystr)) (x : pystr) :
  match _build_bidirectional_index table !! x with
  | Some s => x ∈ s ∧ ∀ y, y ∈ s ↔ share_group table x y
  | None => ∀ kv, kv ∈ table → x ∉ entry_group kv
  end.
Proof.
  pose proof (build_index_spec table x) as Hspec.
  destruct (_build_bidirectional_index table !! x) as [s|] eqn:Hx; simpl in Hspec.
  - split; [by eapply build_index_self_key|done].
  - intros kv Hkv Hin. apply (not_elem_of_empty (C := gset pystr) x).
    apply Hspec. by exists kv.
Qed.

(** X7.  The lookup folds the case of the term first: for a term whose
    lower-case form occurs in the raw table, [get_all_synonyms] returns,
    without repetition, the terms that share a raw entry with that
    lower-case form. *)
Theorem get_all_synonyms_case_folded (table : list (pystr * list pystr)) (t : pystr) :
  share_group table (lower t) (lower t) →
  NoDup (get_all_synonyms (_build_bidirectional_index table) t)
  ∧ ∀ y, y ∈ get_all_synonyms (_build_bidirectional_index table) t
         ↔ share_group table (lower t) y.
Proof.
  intros Hself. apply build_index_spec in Hself.
  unfold get_all_synonyms. cbv zeta.
  destruct (decide (synset (_build_bidirectional_index table) (lower t) = ∅)) as [He|Hne].
  { rewrite He in Hself. set_solver. }
  destruct (decide (synset (_build_bidirectional_index table) (lower t) = ∅)); [done|].
  split; [apply NoDup_elements|].
  intros y. rewrite elem_of_elements. apply build_index_spec.
Qed.

Lemma get_all_synonyms_case_folded_witness :
  share_group _BASE_SUBJECT_EXPANSIONS (lower (u "Court")) (lower (u "Court"))
  ∧ (u "משפט" ∈ get_all_synonyms (_build_bidirectional_index _BASE_SUBJECT_EXPANSIONS)
                                  (u "Court")
     ↔ share_group _BASE_SUBJECT_EXPANSIONS (lower (u "Court")) (u "משפט")).
Proof.
  assert (share_group _BASE_SUBJECT_EXPANSIONS (lower (u "Court")) (lower (u "Court"))) as H.
  { apply build_index_spec. apply (bool_decide_unpack _). by vm_compute. }
  split; [exact H|].
  apply (get_all_synonyms_case_folded _BASE_SUBJECT_EXPANSIONS (u "Court") H).
Defined.

(** ** The keyword index *)

Lemma extend_bucket_lookup (idx : gmap pystr (list pystr)) (key : pystr)
    (rids : list pystr) (x : pystr) :
  bucket (extend_bucket idx key rids) x
  = if decide (key = x) then bucket idx x ++ rids else bucket idx x.
Proof.
  unfold extend_bucket. case_decide as Hk.
  - subst. by rewrite lookup_insert_eq.
  - by rewrite lookup_insert_ne.
Qed.

(** Filing one list of resource ids under some of the keys of a list. *)
Lemma extend_buckets_elem_of {A} (key_of : A → option pystr) (rids : list pystr)
    (items : list A) (idx : gmap pystr (list pystr)) (x rid : pystr) :
  rid ∈ bucket (foldl (fun idx item => match key_of item with
                                       | Some key => extend_bucket idx key rids
                                       | None => idx
                                       end) idx items) x
  ↔ rid ∈ bucket idx x ∨ (rid ∈ rids ∧ ∃ item, item ∈ items ∧ key_of item = Some x).
Proof.
  revert idx. induction items as [|item items IH]; intros idx; cbn [foldl].
  - split; [by left|]. intros [?|[_ (? & ?%not_elem_of_nil & _)]]; done.
  - rewrite IH. destruct (key_of item) as [key|] eqn:Hkey.
    + rewrite extend_bucket_lookup. case_decide as Hk.
      * subst. rewrite elem_of_app. split.
        -- intros [[?|?]|[? (it & ? & ?)]]; [by left| |].
           ++ right. split; [done|]. exists item. split; [by left|done].
           ++ right. split; [done|]. exists it. split; [by right|done].
        -- intros [?|[? (it & [->|?]%elem_of_cons & ?)]].
           ++ by left; left.
           ++ by left; right.
           ++ right. split; [done|]. by exists it.
      * split.
        -- intros [?|[? (it & ? & ?)]]; [by left|].
           right. split; [done|]. exists it. split; [by right|done].
        -- intros [?|[? (it & [->|?]%elem_of_cons & ?)]]; [by left|congruence|].
           right. split; [done|]. by exists it.
    + split.
      * intros [?|[? (it & ? & ?)]]; [by left|].
        right. split; [done|]. exists it. split; [by right|done].
      * intros [?|[? (it & [->|?]%elem_of_cons & ?)]]; [by left|congruence|].
        right. split; [done|]. by exists it.
Qed.

Lemma foldl_ext_eq {A B} (f g : A → B → A) (l : list B) (a : A) :
  (∀ a b, f a b = g a b) → foldl f a l = foldl g a l.
Proof.
  intros H. revert a. induction l as [|b l IH]; intros a; [done|].
  cbn [foldl]. by rewrite H, IH.
Qed.

Lemma keyword_step_elem_of (ds : schema_dataset) (idx : gmap pystr (list pystr))
    (x rid : pystr) :
  let step := fun idx ds =>
    let title := lower (sd_title ds) in
    let resource_ids := resource_ids_of ds in
    match resource_ids with
    | [] => idx
    | _ =>
        let idx := foldl (fun idx kw => extend_bucket idx (lower kw) resource_ids)
                         idx (sd_keywords ds) in
        foldl (fun idx word =>
                 if (2 <? len word) then extend_bucket idx word resource_ids
                 else idx)
              idx (Py.split title)
    end in
  rid ∈ bucket (step idx ds) x
  ↔ rid ∈ bucket idx x ∨ (rid ∈ resource_ids_of ds ∧ keyword_of ds x).
Proof.
  cbv beta zeta. destruct (resource_ids_of ds) as [|r0 rids] eqn:Hr.
  { split; [by left|]. by intros [?|[?%not_elem_of_nil _]]. }
  rewrite (foldl_ext_eq _
             (fun idx word => match (if 2 <? len word then Some word else None) with
                              | Some key => extend_bucket idx key (r0 :: rids)
                              | None => idx
                              end))
    by (intros a w; by destruct (2 <? len w)).
  rewrite (extend_buckets_elem_of
             (fun word => if 2 <? len word then Some word else None) (r0 :: rids)).
  rewrite (extend_buckets_elem_of (fun kw => Some (lower kw)) (r0 :: rids)).
  unfold keyword_of. split.
    + intros [[?|[? (kw & ? & [= <-])]]|[? (w & ? & Hw)]]; [by left| |].
      * right. split; [done|]. left. apply list_elem_of_fmap. by exists kw.
      * right. split; [done|]. right.
        destruct (2 <? len w) eqn:Hl; [|done]. injection Hw as ->.
        by apply Nat.ltb_lt in Hl.
    + intros [?|[? [(kw & -> & ?)%list_elem_of_fmap|[? Hl]]]]; [by left; left| |].
      * left. right. split; [done|]. by exists kw.
      * right. split; [done|]. exists x. split; [done|].
        apply Nat.ltb_lt in Hl. by rewrite Hl.
Qed.

Lemma build_keyword_index_elem_of (dss : list schema_dataset) (x rid : pystr) :
  rid ∈ bucket (build_keyword_index dss) x
  ↔ ∃ ds, ds ∈ dss ∧ rid ∈ resource_ids_of ds ∧ keyword_of ds x.
Proof.
  unfold build_keyword_index.
  match goal with
  | |- context [foldl ?f ∅ dss] =>
      assert (∀ idx, rid ∈ bucket (foldl f idx dss) x
                     ↔ rid ∈ bucket idx x
                       ∨ ∃ ds, ds ∈ dss ∧ rid ∈ resource_ids_of ds ∧ keyword_of ds x) as H
  end.
  { induction dss as [|ds dss IH]; intros idx; cbn [foldl].
    - split; [by left|]. intros [?|(? & ?%not_elem_of_nil & _)]; done.
    - rewrite IH. rewrite (keyword_step_elem_of ds idx x rid). split.
      + intros [[?|[? ?]]|(ds' & ? & ? & ?)]; [by left| |].
        * right. exists ds. split; [by left|done].
        * right. exists ds'. split; [by right|done].
      + intros [?|(ds' & [->|?]%elem_of_cons & ? & ?)]; [by left; left|by left; right|].
        right. by exists ds'. }
  rewrite H, lookup_empty. simpl. split; [|by right].
  by intros [?%not_elem_of_nil|?].
Qed.

Lemma build_category_index_elem_of (dss : list schema_dataset) (x rid : pystr) :
  rid ∈ bucket (build_category_index dss) x
  ↔ ∃ ds, ds ∈ dss ∧ rid ∈ resource_ids_of ds ∧ x ∈ map lower (sd_categories ds).
Proof.
  unfold build_category_index.
  match goal with
  | |- context [foldl ?f ∅ dss] =>
      assert (∀ idx, rid ∈ bucket (foldl f idx dss) x
                     ↔ rid ∈ bucket idx x
                       ∨ ∃ ds, ds ∈ dss ∧ rid ∈ resource_ids_of ds
                               ∧ x ∈ map lower (sd_categories ds)) as H
  end.
  { induction dss as [|ds dss IH]; intros idx; cbn [foldl].
    - split; [by left|]. intros [?|(? & ?%not_elem_of_nil & _)]; done.
    - rewrite IH.
      assert (rid ∈ bucket (match resource_ids_of ds with
                            | [] => idx
                            | _ => foldl (fun idx cat =>
                                            extend_bucket idx (lower cat) (resource_ids_of ds))
                                         idx (sd_categories ds)
                            end) x
              ↔ rid ∈ bucket idx x
                ∨ (rid ∈ resource_ids_of ds ∧ x ∈ map lower (sd_categories ds))) as ->.
      { destruct (resource_ids_of ds) as [|r0 rids] eqn:Hr.
        { split; [by left|]. by intros [?|[?%not_elem_of_nil _]]. }
        rewrite (extend_buckets_elem_of (fun cat => Some (lower cat)) (r0 :: rids)).
        split.
        - intros [?|[? (cat & ? & [= <-])]]; [by left|].
          right. split; [done|]. apply list_elem_of_fmap. by exists cat.
        - intros [?|[? (cat & -> & ?)%list_elem_of_fmap]]; [by left|].
          right. split; [done|]. by exists cat. }
      split.
      + intros [[?|[? ?]]|(ds' & ? & ? & ?)]; [by left| |].
        * right. exists ds. split; [by left|done].
        * right. exists ds'. split; [by right|done].
      + intros [?|(ds' & [->|?]%elem_of_cons & ? & ?)]; [by left; left|by left; right|].
        right. by exists ds'. }
  rewrite H, lookup_empty. simpl. split; [|by right].
  by intros [?%not_elem_of_nil|?].
Qed.

Lemma resource_ids_of_elem_of (ds : schema_dataset) (rid : pystr) :
  rid ∈ resource_ids_of ds
  ↔ rid ≠ [] ∧ {| sr_resource_id := Some rid |} ∈ sd_resources ds.
Proof.
  unfold resource_ids_of. rewrite list_elem_of_omap. split.
  - intros ([[r|]] & Hin & Hr); simpl in Hr; [|done].
    destruct r as [|c r]; [done|]. injection Hr as <-. done.
  - intros [Hne Hin]. eexists. split; [exact Hin|]. simpl. by destruct rid.
Qed.

(** The entry of a resource id in the schema index: the data of the last
    dataset that lists it. *)
Lemma build_schema_index_lookup (dss : list schema_dataset) (rid : pystr) :
  match build_schema_index dss !! rid with
  | Some entry =>
      ∃ ds, ds ∈ dss ∧ rid ∈ resource_ids_of ds
            ∧ entry = {| se_categories := sd_categories ds;
                         se_keywords := sd_keywords ds;
                         se_field_availability := sd_field_availability ds |}
  | None => ∀ ds, ds ∈ dss → rid ∉ resource_ids_of ds
  end.
Proof.
  unfold build_schema_index.
  set (entry_of := fun ds => {| se_categories := sd_categories ds;
                                se_keywords := sd_keywords ds;
                                se_field_availability := sd_field_availability ds |}).
  set (inner := fun ds (idx : gmap pystr schema_entry) (rids : list pystr) =>
                  foldl (fun idx rid => <[rid := entry_of ds]> idx) idx rids).
  assert (Hinner : ∀ ds rids idx,
            inner ds idx rids !! rid
            = if decide (rid ∈ rids) then Some (entry_of ds) else idx !! rid).
  { intros ds rids. induction rids as [|r rids IH]; intros idx; unfold inner; cbn [foldl].
    - by rewrite decide_False by apply not_elem_of_nil.
    - fold (inner ds (<[r := entry_of ds]> idx) rids). rewrite IH.
      destruct (decide (rid ∈ rids)) as [Hin|Hin].
      + by rewrite decide_True by by right.
      + destruct (decide (r = rid)) as [->|Hne].
        * rewrite lookup_insert_eq. by rewrite decide_True by by left.
        * rewrite lookup_insert_ne by done. rewrite decide_False; [done|].
          by intros [?|?]%elem_of_cons. }
  change (foldl (fun idx ds => _) ∅ dss)
    with (foldl (fun idx ds => inner ds idx (resource_ids_of ds)) ∅ dss).
  assert (H : ∀ idx : gmap pystr schema_entry,
            match foldl (fun idx ds => inner ds idx (resource_ids_of ds)) idx dss !! rid with
            | Some entry =>
                idx !! rid = Some entry
                ∨ ∃ ds, ds ∈ dss ∧ rid ∈ resource_ids_of ds ∧ entry = entry_of ds
            | None => idx !! rid = None ∧ ∀ ds, ds ∈ dss → rid ∉ resource_ids_of ds
            end).
  { induction dss as [|ds dss IH]; intros idx; cbn [foldl].
    - destruct (idx !! rid); [by left|]. split; [done|].
      by intros ? ?%not_elem_of_nil.
    - specialize (IH (inner ds idx (resource_ids_of ds))).
      destruct (foldl _ _ dss !! rid) as [entry|].
      + destruct IH as [Hl|(ds' & ? & ? & ?)].
        * rewrite Hinner in Hl. destruct (decide (rid ∈ resource_ids_of ds)).
          -- right. exists ds. injection Hl as <-. split; [by left|done].
          -- by left.
        * right. exists ds'. split; [by right|done].
      + destruct IH as [Hl Hno]. rewrite Hinner in Hl.
        destruct (decide (rid ∈ resource_ids_of ds)); [done|].
        split; [done|]. intros ds' [->|?]%elem_of_cons; [done|by apply Hno]. }
  specialize (H ∅). destruct (foldl _ ∅ dss !! rid) as [entry|].
  - destruct H as [H|H]; [by rewrite lookup_empty in H|done].
  - by destruct H.
Qed.

(** X8.  [get_resources_by_keyword] returns a resource id exactly when the
    schemas are loaded and some dataset lists the resource, with an id that
    is not empty, and has the keyword, case folded, among its keywords or
    among the words of its title that are longer than two characters. *)
Theorem get_resources_by_keyword_spec (e : env) (keyword rid : pystr) :
  rid ∈ get_resources_by_keyword (module_load e) keyword
  ↔ ∃ dss ds, enterprise_schemas_json e = Some dss ∧ ds ∈ dss
              ∧ rid ≠ [] ∧ {| sr_resource_id := Some rid |} ∈ sd_resources ds
              ∧ keyword_of ds (lower keyword).
Proof.
  unfold get_resources_by_keyword.
  assert (rid ∈ (if decide (_keyword_to_resources (module_load e) = ∅) then []
                 else bucket (_keyword_to_resources (module_load e)) (lower keyword))
          ↔ rid ∈ bucket (_keyword_to_resources (module_load e)) (lower keyword)) as ->.
  { case_decide as He; [|done]. by rewrite He, lookup_empty. }
  simpl. destruct (enterprise_schemas_json e) as [dss|].
  - rewrite build_keyword_index_elem_of. split.
    + intros (ds & ? & [? ?]%resource_ids_of_elem_of & ?). by exists dss, ds.
    + intros (? & ds & [= <-] & ? & ? & ? & ?). exists ds.
      split; [done|]. split; [by apply resource_ids_of_elem_of|done].
  - rewrite lookup_empty. simpl. split; [by intros ?%not_elem_of_nil|].
    by intros (? & ? & ? & _).
Qed.

(** X9.  [get_resources_by_category] returns a resource id exactly when
    the schemas are loaded and some dataset lists the resource, with an id
    that is not empty, and has the category, case folded, among its
    categories. *)
Theorem get_resources_by_category_spec (e : env) (category rid : pystr) :
  rid ∈ get_resources_by_category e category
  ↔ ∃ dss ds, enterprise_schemas_json e = Some dss ∧ ds ∈ dss
              ∧ rid ≠ [] ∧ {| sr_resource_id := Some rid |} ∈ sd_resources ds
              ∧ lower category ∈ map lower (sd_categories ds).
Proof.
  unfold get_resources_by_category. destruct (enterprise_schemas_json e) as [dss|].
  - rewrite build_category_index_elem_of. split.
    + intros (ds & ? & [? ?]%resource_ids_of_elem_of & ?). by exists dss, ds.
    + intros (? & ds & [= <-] & ? & ? & ? & ?). exists ds.
      split; [done|]. split; [by apply resource_ids_of_elem_of|done].
  - split; [by intros ?%not_elem_of_nil|]. by intros (? & ? & ? & _).
Qed.

(** X10.  The two indices agree: every resource id the keyword index
    returns has a schema, and the schema of a resource holds the keywords
    and categories of a dataset of [enterprise_schemas.json] that lists
    the resource. *)
Theorem keyword_index_has_schema (e : env) (keyword rid : pystr) :
  rid ∈ get_resources_by_keyword (module_load e) keyword →
  ∃ schema ds dss,
    get_resource_schema (module_load e) rid = Some schema
    ∧ enterprise_schemas_json e = Some dss ∧ ds ∈ dss
    ∧ {| sr_resource_id := Some rid |} ∈ sd_resources ds
    ∧ se_keywords schema = sd_keywords ds
    ∧ se_categories schema = sd_categories ds
    ∧ se_field_availability schema = sd_field_availability ds.
Proof.
  unfold get_resources_by_keyword, get_resource_schema. simpl.
  destruct (enterprise_schemas_json e) as [dss|]; simpl.
  - intros Hin.
    assert (rid ∈ bucket (build_keyword_index dss) (lower keyword)) as Hb.
    { case_decide as He; [by apply not_elem_of_nil in Hin|done]. }
    apply build_keyword_index_elem_of in Hb as (ds0 & Hds0 & Hrid0 & _).
    pose proof (build_schema_index_lookup dss rid) as Hs.
    destruct (build_schema_index dss !! rid) as [schema|].
    + destruct Hs as (ds & ? & [? ?]%resource_ids_of_elem_of & ->).
      eexists _, ds, dss. by split_and!.
    + by destruct (Hs ds0 Hds0).
  - rewrite decide_True by done. by intros ?%not_elem_of_nil.
Qed.

Lemma keyword_index_has_schema_witness :
  u "r1" ∈ get_resources_by_keyword (module_load clinics_env) (u "CLINIC")
  ∧ ∃ schema ds dss,
      get_resource_schema (module_load clinics_env) (u "r1") = Some schema
      ∧ enterprise_schemas_json clinics_env = Some dss ∧ ds ∈ dss
      ∧ {| sr_resource_id := Some (u "r1") |} ∈ sd_resources ds
      ∧ se_keywords schema = sd_keywords ds
      ∧ se_categories schema = sd_categories ds
      ∧ se_field_availability schema = sd_field_availability ds.
Proof.
  assert (u "r1" ∈ get_resources_by_keyword (module_load clinics_env) (u "CLINIC")) as H
    by (apply (bool_decide_unpack _); by vm_compute).
  split; [exact H|].
  apply (keyword_index_has_schema clinics_env (u "CLINIC") (u "r1") H).
Defined.

(** ** Keyword matches *)

(** Every score is at least 0.5 and belongs to a resource that is
    reached. *)
Lemma add_score_sound (reached : pystr → Prop) (m : gmap pystr Q) (score : Q)
    (rids : list pystr) :
  (∀ rid s, m !! rid = Some s → (0.5 <= s)%Q ∧ reached rid) →
  (0.5 <= score)%Q → (∀ rid, rid ∈ rids → reached rid) →
  ∀ rid s, add_score m score rids !! rid = Some s → (0.5 <= s)%Q ∧ reached rid.
Proof.
  unfold add_score. revert m. induction rids as [|r rids IH]; intros m Hm Hs Hr; [done|].
  cbn [foldl]. apply IH; [|done|intros; apply Hr; by right].
  intros rid s. destruct (decide (r = rid)) as [->|Hne].
  - rewrite lookup_insert_eq. intros [= <-]. split; [|apply Hr; by left].
    destruct (m !! rid) as [s0|] eqn:H0; simpl.
    + destruct (Hm rid s0 H0) as [? _]. lra.
    + lra.
  - rewrite lookup_insert_ne by done. apply Hm.
Qed.

Lemma match_token_sound (g : globals) (reached : pystr → Prop)
    (m : gmap pystr Q) (token : pystr) :
  (∀ rid s, m !! rid = Some s → (0.5 <= s)%Q ∧ reached rid) →
  (∀ rid, reached_from g token rid → reached rid) →
  ∀ rid s, match_token g m token !! rid = Some s → (0.5 <= s)%Q ∧ reached rid.
Proof.
  intros Hm Hreach. unfold match_token. cbv zeta.
  set (variants := get_hebrew_variants token).
  assert (Hv : ∀ v, v ∈ variants → v ∈ get_hebrew_variants token) by done.
  clearbody variants.
  match goal with
  | |- context [foldl ?f (m, ∅) variants] => set (direct := f)
  end.
  assert (Hdirect : ∀ (vs : list pystr) (st : gmap pystr Q * gset pystr),
            (∀ v, v ∈ vs → v ∈ get_hebrew_variants token) →
            (∀ rid s, st.1 !! rid = Some s → (0.5 <= s)%Q ∧ reached rid) →
            ∀ rid s, (foldl direct st vs).1 !! rid = Some s → (0.5 <= s)%Q ∧ reached rid).
  { induction vs as [|v vs IH]; intros [m0 checked] Hvs H0; [done|]. cbn [foldl].
    apply IH; [intros; apply Hvs; by right|].
    unfold direct. destruct (decide (lower v ∈ checked)); [done|]. cbn [fst].
    apply add_score_sound; [done| |].
    - destruct (eqb (lower v) (lower token)); lra.
    - intros rid Hrid. apply Hreach. exists v, (lower v).
      split; [apply Hvs; by left|]. split; [by left|done]. }
  match goal with
  | |- context [foldl ?f (foldl direct (m, ∅) variants) variants] => set (outer := f)
  end.
  assert (Houter : ∀ (vs : list pystr) (st : gmap pystr Q * gset pystr),
            (∀ v, v ∈ vs → v ∈ get_hebrew_variants token) →
            (∀ rid s, st.1 !! rid = Some s → (0.5 <= s)%Q ∧ reached rid) →
            ∀ rid s, (foldl outer st vs).1 !! rid = Some s → (0.5 <= s)%Q ∧ reached rid).
  { induction vs as [|v vs IH]; intros st Hvs H0; [done|]. cbn [foldl].
    apply IH; [intros; apply Hvs; by right|].
    unfold outer.
    assert (Hsyn : ∀ syn, syn ∈ get_all_synonyms (_BIDIRECTIONAL_EXPANSIONS g) v →
                          syn ∈ get_all_synonyms (_BIDIRECTIONAL_EXPANSIONS g) v) by done.
    revert Hsyn. generalize (get_all_synonyms (_BIDIRECTIONAL_EXPANSIONS g) v) at 1 3.
    intros syns. revert st H0. induction syns as [|syn syns IHs]; intros [m0 checked] H0 Hsyn;
      [done|].
    cbn [foldl]. apply IHs; [|intros; apply Hsyn; by right].
    destruct (decide (lower syn ∈ checked)); [done|]. cbn [fst].
    apply add_score_sound; [done|lra|].
    intros rid Hrid. apply Hreach. exists v, (lower syn).
    split; [apply Hvs; by left|]. split; [|done].
    right. exists syn. split; [apply Hsyn; by left|done]. }
  apply Houter; [done|]. by apply Hdirect.
Qed.

Lemma find_matching_resources_reached (g : globals) (query_tokens : list pystr)
    (rid : pystr) (s : Q) :
  find_matching_resources g query_tokens !! rid = Some s →
  (0.5 <= s)%Q ∧ ∃ token, token ∈ query_tokens ∧ reached_from g token rid.
Proof.
  unfold find_matching_resources. case_decide as Hidx; [by rewrite lookup_empty|].
  clear Hidx. revert rid s.
  assert (∀ (tokens : list pystr) (m : gmap pystr Q),
            (∀ t, t ∈ tokens → t ∈ query_tokens) →
            (∀ rid s, m !! rid = Some s →
                      (0.5 <= s)%Q ∧ ∃ token, token ∈ query_tokens ∧ reached_from g token rid) →
            ∀ rid s, foldl (match_token g) m tokens !! rid = Some s →
                     (0.5 <= s)%Q ∧ ∃ token, token ∈ query_tokens ∧ reached_from g token rid)
    as Hloop.
  { induction tokens as [|t tokens IH]; intros m Ht Hm; [done|]. cbn [foldl].
    apply IH; [intros; apply Ht; by right|].
    apply match_token_sound; [done|].
    intros rid Hr. exists t. split; [apply Ht; by left|done]. }
  apply (Hloop query_tokens ∅); [done|]. intros rid s. by rewrite lookup_empty.
Qed.

(** X11.  Every resource [find_matching_resources] scores is filed in the
    keyword index under a variant of a query token or under a synonym of a
    variant, and its score is at least 0.5. *)
Theorem find_matching_resources_sound (g : globals) (query_tokens : list pystr)
    (rid : pystr) (s : Q) :
  find_matching_resources g query_tokens !! rid = Some s →
  (0.5 <= s)%Q ∧ ∃ token, token ∈ query_tokens ∧ reached_from g token rid.
Proof. apply find_matching_resources_reached. Qed.

Lemma find_matching_resources_sound_witness :
  find_matching_resources (module_load clinics_env) [u "clinics"] !! u "r1" = Some 1%Q
  ∧ (0.5 <= 1)%Q
  ∧ ∃ token, token ∈ [u "clinics"] ∧ reached_from (module_load clinics_env) token (u "r1").
Proof.
  assert (find_matching_resources (module_load clinics_env) [u "clinics"] !! u "r1"
          = Some 1%Q) as H by (by vm_compute).
  split; [exact H|].
  apply (find_matching_resources_sound (module_load clinics_env) [u "clinics"] (u "r1") 1 H).
Defined.

(** ** Scores *)

Lemma location_loop_count (tl : pystr) (toks : list pystr) (m0 : Q) :
  (foldl (fun matches lt => if contains tl lt then (matches + 1)%Q else matches) m0 toks
   == m0 + inject_Z (Z.of_nat (length (filter (fun lt => contains tl lt = true) toks))))%Q.
Proof.
  revert m0. induction toks as [|lt toks IH]; intros m0; cbn [foldl].
  - rewrite filter_nil. cbn [length]. change (inject_Z (Z.of_nat 0)) with 0%Q. lra.
  - rewrite IH. destruct (contains tl lt) eqn:Hc.
    + rewrite filter_cons_True by done. cbn [length].
      rewrite Nat2Z.inj_succ, <- Z.add_1_r, inject_Z_plus.
      change (inject_Z 1) with 1%Q. lra.
    + rewrite filter_cons_False by congruence. lra.
Qed.

Lemma filter_length_all {A} (P : A → Prop) `{∀ x, Decision (P x)} (l : list A) :
  length (filter P l) = length l ↔ Forall P l.
Proof.
  induction l as [|x l IH]; [done|].
  destruct (decide (P x)) as [Hx|Hx].
  - rewrite filter_cons_True by done. cbn [length]. rewrite Forall_cons.
    split; [intros [= ?]; split; [done|by apply IH]|intros [_ ?]; f_equal; by apply IH].
  - rewrite filter_cons_False by done. cbn [length]. rewrite Forall_cons.
    pose proof (length_filter P l). split; [lia|by intros [? _]].
Qed.

Lemma inject_Z_nat_le (a b : nat) :
  (inject_Z (Z.of_nat a) <= inject_Z (Z.of_nat b))%Q ↔ a ≤ b.
Proof. rewrite <- Zle_Qle. lia. Qed.

Lemma subject_match_range (subject expanded : list pystr) (text : pystr) :
  (0 <= _calculate_subject_match subject expanded text)%Q
  ∧ (_calculate_subject_match subject expanded text <= 1)%Q.
Proof.
  unfold _calculate_subject_match.
  destruct (empty text); [split; lra|].
  destruct ((length subject =? 0) && (length expanded =? 0)); [split; lra|].
  cbv zeta.
  destruct (subject_loop_checks (lower text) (_tokenize_hebrew text false) subject 0 0)
    as (Ha & _ & Hb).
  destruct (foldl (check_subject_token _ _) _ subject) as [m1 t1].
  destruct (expansion_loop_checks (lower text) expanded m1 t1) as (Hc & Hd).
  destruct (foldl (check_expansion _) _ expanded) as [m t].
  cbn [fst snd] in *.
  destruct (Qeq_bool t 0) eqn:Ht; [split; lra|].
  apply Qeq_bool_neq in Ht.
  split; [|apply qmin_le_l]. apply qmin_glb; [lra|].
  apply Qle_shift_div_l; [lra|]. specialize (Hb ltac:(lra)). specialize (Hd Hb). lra.
Qed.

Lemma location_match_range (location : list pystr) (text : pystr) :
  (0 <= _calculate_location_match location text)%Q
  ∧ (_calculate_location_match location text <= 1)%Q.
Proof.
  unfold _calculate_location_match.
  destruct ((length location =? 0) || empty text) eqn:He; [split; lra|].
  apply orb_false_iff in He as [Hl%Nat.eqb_neq _]. cbv zeta.
  split; [|apply qmin_le_l]. apply qmin_glb; [lra|].
  assert (0 < inject_Z (Z.of_nat (length location)))%Q as Hn.
  { change 0%Q with (inject_Z 0). rewrite <- Zlt_Qlt. lia. }
  apply Qle_shift_div_l; [done|].
  rewrite location_loop_count.
  assert (0 <= inject_Z (Z.of_nat (length (filter (fun lt => contains (lower text) lt = true)
                                                  location))))%Q.
  { change 0%Q with (inject_Z 0). rewrite <- Zle_Qle. lia. }
  lra.
Qed.

(** X12.  Both match scores lie between 0 and 1, and the location score of
    a text is 1 exactly when every location token occurs in it. *)
Theorem calculate_match_range (subject expanded location : list pystr) (text : pystr) :
  (0 <= _calculate_subject_match subject expanded text)%Q
  ∧ (_calculate_subject_match subject expanded text <= 1)%Q
  ∧ (0 <= _calculate_location_match location text)%Q
  ∧ (_calculate_location_match location text <= 1)%Q
  ∧ (location ≠ [] → text ≠ [] →
     ((_calculate_location_match location text == 1)%Q
      ↔ ∀ lt, lt ∈ location → contains (lower text) lt = true)).
Proof.
  destruct (subject_match_range subject expanded text).
  destruct (location_match_range location text).
  split_and!; [done..|].
  intros Hl Ht. unfold _calculate_location_match.
  assert ((length location =? 0) || empty text = false) as ->.
  { apply orb_false_iff. split; [by destruct location|by destruct text]. }
  cbv zeta.
  set (n := inject_Z (Z.of_nat (length location))).
  assert (0 < n)%Q as Hn.
  { unfold n. change 0%Q with (inject_Z 0). rewrite <- Zlt_Qlt. destruct location; [done|].
    simpl length. lia. }
  pose proof (location_loop_count (lower text) location 0) as Hcount.
  set (c := foldl _ 0%Q location) in *. clearbody c.
  rewrite <- Forall_forall,
    <- (filter_length_all (fun lt => contains (lower text) lt = true) location).
  pose proof (length_filter (fun lt => contains (lower text) lt = true) location) as Hk.
  revert Hcount Hk.
  generalize (length (filter (fun lt => contains (lower text) lt = true) location)).
  intros k Hcount Hk. split.
  - intros Hone. destruct (decide (k = length location)) as [|Hne]; [done|]. exfalso.
    assert (c / n < 1)%Q as Hlt.
    { apply Qlt_shift_div_r; [done|]. rewrite Hcount. unfold n.
      assert (inject_Z (Z.of_nat k) < inject_Z (Z.of_nat (length location)))%Q
        by (rewrite <- Zlt_Qlt; lia).
      lra. }
    destruct (qmin_cases 1 (c / n)) as [[? _]|[_ Heq]]; [lra|].
    rewrite Heq in Hone. lra.
  - intros Hall.
    assert (1 <= c / n)%Q as Hge.
    { apply Qle_shift_div_l; [done|]. rewrite Hcount, Hall. fold n. lra. }
    destruct (qmin_cases 1 (c / n)) as [[_ ->]|[? _]]; [reflexivity|lra].
Qed.

(** ** Candidates *)

Lemma category_bonus_ge (g : globals) (query_lower : pystr) (categories : list pystr)
    (rs : Q) :
  (rs <= category_bonus g query_lower rs categories)%Q.
Proof.
  revert rs. induction categories as [|cat rest IH]; intros rs; simpl; [lra|].
  destruct (contains query_lower (lower cat)); [lra|].
  destruct (existsb _ _).
  - specialize (IH (rs + 0.10)%Q). lra.
  - apply IH.
Qed.

(** The bonuses of a resource are never negative: its score is at least the
    base score of its dataset and the bonus of its format. *)
Lemma resource_score_ge (g : globals) (query : pystr) (d : decomposition)
    (krs : gmap pystr Q) (base_score : Q) (r : resource) :
  (∀ rid s, krs !! rid = Some s → (0 <= s)%Q) →
  (base_score + fmt_bonus (upper (or_str (r_format r) []))
   <= resource_score g query d krs base_score r)%Q.
Proof.
  intros Hk. unfold resource_score. cbv zeta.
  destruct (subject_match_range (subject_tokens d) (expanded_subjects d)
              (or_str (r_title r) (or_str (r_name r) []))) as [Hs _].
  set (s := _calculate_subject_match _ _ _) in *. clearbody s.
  set (f := fmt_bonus _). clearbody f.
  destruct (truthy_id (r_id r)) as [rid|]; [|lra].
  assert (Hschema : (base_score + f
            <= match get_resource_schema g rid with
               | Some schema_info =>
                   if 0 <? count_keyword_matches (lower query) 0
                             (take 25 (se_keywords schema_info))
                   then category_bonus g (lower query) (base_score + s * 0.15 + f)
                          (se_categories schema_info)
                        + qmin 0.10
                            (inject_Z (Z.of_nat (count_keyword_matches (lower query) 0
                                                   (take 25 (se_keywords schema_info))))
                             * 0.04)
                   else category_bonus g (lower query) (base_score + s * 0.15 + f)
                          (se_categories schema_info)
               | None => base_score + s * 0.15 + f
               end)%Q).
  { destruct (get_resource_schema g rid) as [info|]; [|lra].
    pose proof (category_bonus_ge g (lower query) (se_categories info)
                  (base_score + s * 0.15 + f)%Q) as Hc.
    destruct (0 <? _); [|lra].
    assert (0 <= qmin 0.10 (inject_Z (Z.of_nat (count_keyword_matches (lower query) 0
                                                  (take 25 (se_keywords info)))) * 0.04))%Q.
    { apply qmin_glb; [lra|].
      assert (0 <= inject_Z (Z.of_nat (count_keyword_matches (lower query) 0
                                         (take 25 (se_keywords info)))))%Q
        by (change 0%Q with (inject_Z 0); rewrite <- Zle_Qle; lia).
      lra. }
    lra. }
  destruct (krs !! rid) as [ks|] eqn:Hks; [|done].
  assert (0 <= qmin 0.25 (ks * 0.08))%Q.
  { apply qmin_glb; [lra|]. specialize (Hk rid ks Hks). lra. }
  lra.
Qed.

Lemma slice_to_all {A} (n : Z) (l : list A) :
  (Z.of_nat (length l) ≤ n)%Z → slice_to n l = l.
Proof.
  intros Hn. unfold slice_to. rewrite (proj2 (Z.leb_le 0 n)) by lia.
  apply take_ge. lia.
Qed.

Lemma omap_length_le {A B} (f : A → option B) (l : list A) :
  length (omap f l) ≤ length l.
Proof.
  induction l as [|x l IH]; [done|].
  change (omap f (x :: l))
    with (match f x with Some y => y :: omap f l | None => omap f l end).
  destruct (f x); cbn [length]; lia.
Qed.

Lemma dataset_candidates_length (g : globals) (query : pystr) (d : decomposition)
    (krs : gmap pystr Q) (ds : dataset) :
  length (dataset_candidates g query d krs ds) ≤ length (ds_resources ds).
Proof.
  unfold dataset_candidates. cbv zeta. destruct (_ && _); [simpl; lia|].
  apply omap_length_le.
Qed.

Lemma flat_map_candidates_length (g : globals) (query : pystr) (d : decomposition)
    (krs : gmap pystr Q) (map_data : list dataset) :
  length (flat_map (dataset_candidates g query d krs) map_data)
  ≤ length (flat_map ds_resources map_data).
Proof.
  induction map_data as [|ds map_data IH]; [done|]. simpl.
  rewrite !length_app. pose proof (dataset_candidates_length g query d krs ds). lia.
Qed.

(** X13.  The bonus of the format alone clears the threshold of 0.1: a
    resource in CSV or XLSX of a dataset that the subject filter does not
    skip is a candidate, whatever else it matches; so for a query without a
    subject token every CSV and XLSX resource of the corpus is one.  The
    limit is large enough to cut nothing. *)
Theorem format_bonus_makes_candidate (g : globals) (query : pystr)
    (map_data : list dataset) (limit : Z) (ds : dataset) (r : resource) :
  ds ∈ map_data → r ∈ ds_resources ds →
  upper (or_str (r_format r) []) ∈ [u "CSV"; u "XLSX"] →
  subject_tokens (_decompose_query g query) = []
  ∨ (0.15 <= dataset_subject_score g query ds)%Q →
  (Z.of_nat (length (flat_map ds_resources map_data)) ≤ limit)%Z →
  ∃ c, c ∈ candidates (suggest_for_query g query map_data limit)
       ∧ resource_id c = r_id r ∧ dataset_id c = ds_id ds
       ∧ format c = upper (or_str (r_format r) []).
Proof.
  intros Hds Hr Hfmt Hkeep Hlimit.
  unfold suggest_for_query. cbv zeta. cbn [candidates].
  set (d := _decompose_query g query) in *.
  set (krs := find_matching_resources g (subject_tokens d ++ expanded_subjects d)).
  rewrite slice_to_all
    by (rewrite sort_desc_length; pose proof (flat_map_candidates_length g query d krs map_data);
        lia).
  assert (Hk : ∀ rid s, krs !! rid = Some s → (0 <= s)%Q).
  { intros rid s Hs. apply find_matching_resources_reached in Hs as [? _]. lra. }
  assert (Hin : ∃ c, c ∈ dataset_candidates g query d krs ds
                     ∧ resource_id c = r_id r ∧ dataset_id c = ds_id ds
                     ∧ format c = upper (or_str (r_format r) [])).
  { unfold dataset_candidates. cbv zeta.
    change (dataset_subject_score g query ds)
      with (_calculate_subject_match (subject_tokens d) (expanded_subjects d)
              (all_ds_text ds)) in Hkeep.
    destruct (subject_match_range (subject_tokens d) (expanded_subjects d) (all_ds_text ds))
      as [Hs0 _].
    set (ss := _calculate_subject_match (subject_tokens d) (expanded_subjects d)
                 (all_ds_text ds)) in *.
    assert (negb (length (subject_tokens d) =? 0)
            && qlt ss (min_subject_threshold d) = false) as ->.
    { destruct Hkeep as [->|Hge]; [done|].
      apply andb_false_iff. right. apply qlt_false.
      unfold min_subject_threshold. destruct (subject_tokens d); lra. }
    destruct (location_match_range (location_tokens d) (all_ds_text ds)) as [Hl0 _].
    set (base := (ss * 0.7
                  + _calculate_location_match (location_tokens d) (all_ds_text ds) * 0.1)%Q).
    pose proof (resource_score_ge g query d krs base r Hk) as Hge.
    assert (0.12 <= fmt_bonus (upper (or_str (r_format r) [])))%Q as Hf.
    { apply elem_of_cons in Hfmt as [->| ->%list_elem_of_singleton]; by vm_compute. }
    assert (qlt 0.1 (resource_score g query d krs base r) = true) as Hq.
    { apply qlt_true. assert (0 <= base)%Q by (unfold base; lra). lra. }
    eexists. split.
    - apply list_elem_of_omap. exists r. split; [done|]. by rewrite Hq.
    - done. }
  destruct Hin as (c & Hc & ?). exists c. split; [|done].
  apply sort_desc_elem_of, list_elem_of_In, in_flat_map.
  exists ds. by rewrite <- !list_elem_of_In.
Qed.

Lemma format_bonus_makes_candidate_witness :
  hospitals_ds ∈ [hospitals_ds; roads_ds]
  ∧ csv_resource (u "r1") ∈ ds_resources hospitals_ds
  ∧ subject_tokens (_decompose_query bare (u "jerusalem")) = []
  ∧ ∃ c, c ∈ candidates (suggest_for_query bare (u "jerusalem") [hospitals_ds; roads_ds] 5)
         ∧ resource_id c = r_id (csv_resource (u "r1")) ∧ dataset_id c = ds_id hospitals_ds
         ∧ format c = upper (or_str (r_format (csv_resource (u "r1"))) []).
Proof.
  assert (subject_tokens (_decompose_query bare (u "jerusalem")) = []) as H
    by (by vm_compute).
  split; [by left|]. split; [by left|]. split; [exact H|].
  apply (format_bonus_makes_candidate bare (u "jerusalem") [hospitals_ds; roads_ds] 5
           hospitals_ds (csv_resource (u "r1"))).
  - by left.
  - by left.
  - by left.
  - by left.
  - simpl. lia.
Defined.

(** ** The order of the candidates *)

Lemma insert_desc_with_score (s : Q) (x : candidate) (l : list candidate) :
  with_score s (insert_desc score_gt x l) = with_score s (x :: l).
Proof.
  unfold with_score. induction l as [|y l IH]; [done|]. simpl.
  destruct (score_gt y x) eqn:Hgt; [|done].
  unfold score_gt in Hgt. apply qlt_true in Hgt.
  destruct (Qeq_bool (score y) s) eqn:Hy.
  - apply Qeq_bool_iff in Hy.
    assert (Qeq_bool (score x) s = false) as Hx.
    { destruct (Qeq_bool (score x) s) eqn:Hx; [|done].
      apply Qeq_bool_iff in Hx. lra. }
    rewrite filter_cons_True by (by apply Qeq_bool_iff).
    rewrite IH.
    rewrite (filter_cons_False _ x) by congruence.
    rewrite (filter_cons_False _ x) by congruence.
    by rewrite filter_cons_True by (by apply Qeq_bool_iff).
  - rewrite (filter_cons_False _ y) by congruence. rewrite IH.
    destruct (Qeq_bool (score x) s) eqn:Hx.
    + rewrite !(filter_cons_True _ x) by done.
      by rewrite (filter_cons_False _ y) by congruence.
    + rewrite !(filter_cons_False _ x) by congruence.
      by rewrite (filter_cons_False _ y) by congruence.
Qed.

Lemma sort_desc_with_score (s : Q) (l : list candidate) :
  with_score s (sort_desc score_gt l) = with_score s l.
Proof.
  induction l as [|x l IH]; [done|].
  change (sort_desc score_gt (x :: l)) with (insert_desc score_gt x (sort_desc score_gt l)).
  rewrite insert_desc_with_score. unfold with_score in *.
  destruct (Qeq_bool (score x) s) eqn:Hx.
  - rewrite !(filter_cons_True _ x) by done. by rewrite IH.
  - rewrite !(filter_cons_False _ x) by congruence. done.
Qed.

Lemma slice_to_take {A} (n : Z) (l : list A) : ∃ k, slice_to n l = take k l.
Proof. unfold slice_to. destruct (0 <=? n)%Z; eauto. Qed.

(** X14.  The sort of [suggest_for_query] is stable and the cut keeps the
    head of the list: the returned candidates with any one score are the
    first of the candidates with that score in the order of the corpus;
    [total_matched] counts the candidates before the cut, and for a limit
    that is not negative the number returned is the smaller of the limit
    and [total_matched]. *)
Theorem suggest_for_query_stable (g : globals) (query : pystr)
    (map_data : list dataset) (limit : Z) :
  let result := suggest_for_query g query map_data limit in
  total_matched result = length (matched_in_corpus_order g query map_data)
  ∧ (∀ s, with_score s (candidates result)
          `prefix_of` with_score s (matched_in_corpus_order g query map_data))
  ∧ ((0 ≤ limit)%Z →
     length (candidates result) = Nat.min (Z.to_nat limit) (total_matched result)).
Proof.
  cbv zeta. unfold suggest_for_query, matched_in_corpus_order, keyword_scores. cbv zeta.
  cbn [candidates total_matched].
  set (all := flat_map _ map_data).
  split_and!.
  - apply sort_desc_length.
  - intros s. destruct (slice_to_take limit (sort_desc score_gt all)) as [k ->].
    rewrite <- (sort_desc_with_score s all).
    rewrite <- (take_drop k (sort_desc score_gt all)) at 2.
    unfold with_score. rewrite filter_app. by eexists.
  - intros Hl. unfold slice_to. rewrite (proj2 (Z.leb_le 0 limit)) by done.
    by rewrite length_take.
Qed.

(** Rounding to [n] decimals does not go below a number with [n]
    decimals that its argument reaches. *)
Lemma round_ge (a : Z) (x : Q) (n : nat) :
  (inject_Z a <= x * inject_Z (10 ^ Z.of_nat n))%Q →
  (a # Z.to_pos (10 ^ Z.of_nat n) <= Py.round x n)%Q.
Proof.
  intros Ha. unfold Py.round. cbv zeta.
  destruct (round_half_even_bounds a (Qceiling (x * inject_Z (10 ^ Z.of_nat n)))
              (x * inject_Z (10 ^ Z.of_nat n))) as [Hl _]; [done|apply Qle_ceiling|].
  unfold Qle. simpl. nia.
Qed.

Lemma dataset_candidates_fields (g : globals) (query : pystr) (d : decomposition)
    (krs : gmap pystr Q) (ds : dataset) (c : candidate) :
  c ∈ dataset_candidates g query d krs ds →
  let ss := _calculate_subject_match (subject_tokens d) (expanded_subjects d)
              (all_ds_text ds) in
  let ls := _calculate_location_match (location_tokens d) (all_ds_text ds) in
  (subject_tokens d ≠ [] → (0.15 <= ss)%Q)
  ∧ subject_score c = Py.round ss 3
  ∧ location_score c = Py.round ls 3
  ∧ ∃ r, r ∈ ds_resources ds
         ∧ (0.1 < resource_score g query d krs (ss * 0.7 + ls * 0.1) r)%Q
         ∧ score c = Py.round (qmin 1 (resource_score g query d krs (ss * 0.7 + ls * 0.1) r)) 3.
Proof.
  unfold dataset_candidates. cbv zeta.
  destruct (negb _ && qlt _ _) eqn:Hskip; [by intros ?%not_elem_of_nil|].
  intros (r & Hr & Hc)%list_elem_of_omap.
  destruct (qlt 0.1 _) eqn:Hgt; [|done]. apply qlt_true in Hgt.
  injection Hc as <-. cbn [subject_score location_score score].
  split_and!; [|done|done|by exists r].
  intros Hne. apply andb_false_iff in Hskip as [Hskip|Hskip].
  - destruct (subject_tokens d); done.
  - apply qlt_false in Hskip. unfold min_subject_threshold in Hskip.
    by destruct (subject_tokens d).
Qed.

(** X15.  Every candidate [suggest_for_query] returns reports a score of
    at least 0.1, a subject score and a location score between 0 and 1,
    and, when the query has a subject token, a subject score of at least
    0.15. *)
Theorem candidate_reported_scores (g : globals) (query : pystr)
    (map_data : list dataset) (limit : Z) (c : candidate) :
  c ∈ candidates (suggest_for_query g query map_data limit) →
  (0.1 <= score c)%Q
  ∧ (0 <= subject_score c)%Q ∧ (subject_score c <= 1)%Q
  ∧ (0 <= location_score c)%Q ∧ (location_score c <= 1)%Q
  ∧ (subject_tokens (_decompose_query g query) ≠ [] → (0.15 <= subject_score c)%Q).
Proof.
  unfold suggest_for_query. cbv zeta. cbn [candidates]. intros Hc.
  apply slice_to_elem_of, sort_desc_elem_of in Hc.
  apply list_elem_of_In, in_flat_map in Hc as (ds & _ & Hc).
  apply list_elem_of_In, dataset_candidates_fields in Hc. cbv zeta in Hc.
  destruct Hc as (Hmin & -> & -> & r & _ & Hgt & ->).
  set (d := _decompose_query g query) in *.
  destruct (subject_match_range (subject_tokens d) (expanded_subjects d) (all_ds_text ds)).
  destruct (location_match_range (location_tokens d) (all_ds_text ds)).
  split_and!.
  - apply Qle_trans with (100 # Z.to_pos (10 ^ Z.of_nat 3)); [by vm_compute|].
    apply round_ge.
    assert (0.1 <= qmin 1 (resource_score g query d
               (find_matching_resources g (subject_tokens d ++ expanded_subjects d))
               (_calculate_subject_match (subject_tokens d) (expanded_subjects d)
                  (all_ds_text ds) * 0.7
                + _calculate_location_match (location_tokens d) (all_ds_text ds) * 0.1) r))%Q
      by (apply qmin_glb; lra).
    change (inject_Z (10 ^ Z.of_nat 3)) with 1000%Q. change (inject_Z 100) with 100%Q. lra.
  - by apply round_unit_interval.
  - by apply round_unit_interval.
  - by apply round_unit_interval.
  - by apply round_unit_interval.
  - intros Hne. specialize (Hmin Hne).
    apply Qle_trans with (150 # Z.to_pos (10 ^ Z.of_nat 3)); [by vm_compute|].
    apply round_ge.
    change (inject_Z (10 ^ Z.of_nat 3)) with 1000%Q. change (inject_Z 150) with 150%Q. lra.
Qed.

Lemma candidate_reported_scores_witness :
  ∃ c, c ∈ candidates (suggest_for_query bare (u "hospitals") [hospitals_ds; beds_ds] 5)
       ∧ (0.1 <= score c)%Q
       ∧ (0 <= subject_score c)%Q ∧ (subject_score c <= 1)%Q
       ∧ (0 <= location_score c)%Q ∧ (location_score c <= 1)%Q
       ∧ (subject_tokens (_decompose_query bare (u "hospitals")) ≠ []
          → (0.15 <= subject_score c)%Q).
Proof.
  destruct (candidates (suggest_for_query bare (u "hospitals") [hospitals_ds; beds_ds] 5))
    as [|c cs] eqn:H; [by vm_compute in H|].
  exists c. split; [by left|].
  apply (candidate_reported_scores bare (u "hospitals") [hospitals_ds; beds_ds] 5 c).
  rewrite H. by left.
Defined.

(** ** Query decomposition *)

Lemma found_synonyms_self (g : globals) (token : pystr) :
  token ≠ [] → token ∈ found_synonyms g token.
Proof.
  intros Hne. unfold found_synonyms. cbv zeta. apply elem_of_union. right.
  apply elem_of_list_to_set.
  destruct (get_hebrew_variants_facts token) as (_ & _ & H & _). by apply H.
Qed.

(** What the loop over the tokens keeps true of its four lists, for the
    tokens [seen] so far. *)
Lemma decompose_token_spec (g : globals) (seen : list pystr)
    (st : list pystr * list pystr * list pystr * list pystr) (token : pystr) :
  token ≠ [] →
  (let '(subject, location, location_original, expanded) := st in
   (∀ t, t ∈ seen → t ∈ subject ∨ t ∈ location_original)
   ∧ (∀ t, t ∈ subject → t ∈ seen ∧ t ∈ expanded ∧ is_known_location (lower t) = false)
   ∧ length location = length location_original
   ∧ (∀ t, t ∈ location_original → t ∈ seen)) →
  let '(subject, location, location_original, expanded) := decompose_token g st token in
  (∀ t, t ∈ seen ++ [token] → t ∈ subject ∨ t ∈ location_original)
  ∧ (∀ t, t ∈ subject → t ∈ seen ++ [token] ∧ t ∈ expanded
                        ∧ is_known_location (lower t) = false)
  ∧ length location = length location_original
  ∧ (∀ t, t ∈ location_original → t ∈ seen ++ [token]).
Proof.
  intros Hne. destruct st as [[[subject location] lorig] expanded].
  intros (H1 & H2 & H3 & H4). unfold decompose_token.
  destruct (is_known_location (lower token)) eqn:Hloc;
    [|destruct (negb (eqb (_strip_hebrew_prefix token true) token)
                && is_known_location (lower (_strip_hebrew_prefix token true)))].
  - split_and!.
    + intros t [?| ->%list_elem_of_singleton]%elem_of_app.
      * destruct (H1 t) as [?|?]; [done|by left|]. right. apply elem_of_app. by left.
      * right. apply elem_of_app. right. by left.
    + intros t Ht. destruct (H2 t Ht) as (? & ? & ?). split_and!; [|done..].
      apply elem_of_app. by left.
    + rewrite !length_app. simpl. lia.
    + intros t [?| ->%list_elem_of_singleton]%elem_of_app; apply elem_of_app;
        [left; by apply H4|right; by left].
  - split_and!.
    + intros t [?| ->%list_elem_of_singleton]%elem_of_app.
      * destruct (H1 t) as [?|?]; [done|by left|]. right. apply elem_of_app. by left.
      * right. apply elem_of_app. right. by left.
    + intros t Ht. destruct (H2 t Ht) as (? & ? & ?). split_and!; [|done..].
      apply elem_of_app. by left.
    + rewrite !length_app. simpl. lia.
    + intros t [?| ->%list_elem_of_singleton]%elem_of_app; apply elem_of_app;
        [left; by apply H4|right; by left].
  - assert (token ∈ (if decide (found_synonyms g token = ∅) then expanded
                     else expanded ++ elements (found_synonyms g token))) as Htok.
    { pose proof (found_synonyms_self g token Hne) as Hself.
      case_decide as He; [rewrite He in Hself; set_solver|].
      apply elem_of_app. right. by apply elem_of_elements. }
    split_and!.
    + intros t [?| ->%list_elem_of_singleton]%elem_of_app.
      * destruct (H1 t) as [?|?]; [done| |by right]. left. apply elem_of_app. by left.
      * left. apply elem_of_app. right. by left.
    + intros t [Ht| ->%list_elem_of_singleton]%elem_of_app.
      * destruct (H2 t Ht) as (? & ? & ?). split_and!; [apply elem_of_app; by left| |done].
        case_decide; [done|]. apply elem_of_app. by left.
      * split_and!; [apply elem_of_app; right; by left|done..].
    + done.
    + intros t Ht. apply elem_of_app. left. by apply H4.
Qed.

Lemma decompose_loop_spec (g : globals) (tokens seen : list pystr)
    (st : list pystr * list pystr * list pystr * list pystr) :
  Forall (fun t => t ≠ []) tokens →
  (let '(subject, location, location_original, expanded) := st in
   (∀ t, t ∈ seen → t ∈ subject ∨ t ∈ location_original)
   ∧ (∀ t, t ∈ subject → t ∈ seen ∧ t ∈ expanded ∧ is_known_location (lower t) = false)
   ∧ length location = length location_original
   ∧ (∀ t, t ∈ location_original → t ∈ seen)) →
  let '(subject, location, location_original, expanded) :=
    foldl (decompose_token g) st tokens in
  (∀ t, t ∈ seen ++ tokens → t ∈ subject ∨ t ∈ location_original)
  ∧ (∀ t, t ∈ subject → t ∈ seen ++ tokens ∧ t ∈ expanded
                        ∧ is_known_location (lower t) = false)
  ∧ length location = length location_original
  ∧ (∀ t, t ∈ location_original → t ∈ seen ++ tokens).
Proof.
  intros Hne. revert seen st. induction Hne as [|token tokens Htok _ IH]; intros seen st Hst.
  - cbn [foldl]. rewrite app_nil_r. done.
  - cbn [foldl]. pose proof (decompose_token_spec g seen st token Htok Hst) as Hstep.
    specialize (IH (seen ++ [token]) (decompose_token g st token) Hstep).
    by rewrite <- app_assoc in IH.
Qed.

Lemma add_multiword_locations_spec (query_lower : pystr) (location lorig : list pystr) :
  let '(location', lorig') := add_multiword_locations query_lower (location, lorig) in
  (length location = length lorig → length location' = length lorig')
  ∧ (∀ t, t ∈ lorig → t ∈ lorig')
  ∧ (∀ t, t ∈ lorig' → t ∈ lorig
                       ∨ (t ∈ ISRAELI_LOCATIONS ∧ contains query_lower (lower t) = true)).
Proof.
  unfold add_multiword_locations.
  assert (∀ (locs : list pystr) (location lorig : list pystr),
            (∀ loc, loc ∈ locs → loc ∈ ISRAELI_LOCATIONS) →
            let '(location', lorig') :=
              foldl (fun '(location, location_original) loc =>
                       let loc_lower := lower loc in
                       if contains query_lower loc_lower
                          && negb (mem loc location)
                          && negb (mem loc_lower (map lower location))
                       then (location ++ [loc], location_original ++ [loc])
                       else (location, location_original))
                    (location, lorig) locs in
            (length location = length lorig → length location' = length lorig')
            ∧ (∀ t, t ∈ lorig → t ∈ lorig')
            ∧ (∀ t, t ∈ lorig' → t ∈ lorig
                                 ∨ (t ∈ ISRAELI_LOCATIONS
                                    ∧ contains query_lower (lower t) = true))) as H.
  { induction locs as [|loc locs IH]; intros l lo Hlocs; cbn [foldl].
    - split_and!; [done|done|by left].
    - cbv zeta.
      destruct (contains query_lower (lower loc) && negb (mem loc l)
                && negb (mem (lower loc) (map lower l))) eqn:Hadd.
      + specialize (IH (l ++ [loc]) (lo ++ [loc]) ltac:(intros; apply Hlocs; by right)).
        destruct (foldl _ (l ++ [loc], lo ++ [loc]) locs) as [l' lo'].
        destruct IH as (I1 & I2 & I3). split_and!.
        * intros Hl. apply I1. rewrite !length_app. simpl. lia.
        * intros t Ht. apply I2, elem_of_app. by left.
        * intros t Ht. destruct (I3 t Ht) as [[?| ->%list_elem_of_singleton]%elem_of_app|?];
            [by left| |by right].
          right. split; [apply Hlocs; by left|].
          by apply andb_true_iff in Hadd as [[? _]%andb_true_iff _].
      + specialize (IH l lo ltac:(intros; apply Hlocs; by right)).
        by destruct (foldl _ (l, lo) locs) as [l' lo']. }
  by apply H.
Qed.

(** X16.  [_decompose_query] sorts every token of the query into the
    subject tokens or the location tokens; a subject token is a token of
    the query that is no known location, and is itself among the expanded
    subjects; the two lists of location tokens have the same length, and a
    location that is no token of the query is a gazetteer entry that occurs
    in the query; the expanded subjects hold no term twice. *)
Theorem decompose_query_partition (g : globals) (query : pystr) :
  let d := _decompose_query g query in
  all_tokens d = _tokenize_hebrew query false
  ∧ (∀ t, t ∈ all_tokens d → t ∈ subject_tokens d ∨ t ∈ location_tokens_original d)
  ∧ (∀ t, t ∈ subject_tokens d →
          t ∈ all_tokens d ∧ t ∈ expanded_subjects d
          ∧ is_known_location (lower t) = false)
  ∧ length (location_tokens d) = length (location_tokens_original d)
  ∧ (∀ t, t ∈ location_tokens_original d →
          t ∈ all_tokens d
          ∨ (t ∈ ISRAELI_LOCATIONS ∧ contains (lower query) (lower t) = true))
  ∧ NoDup (expanded_subjects d).
Proof.
  cbv zeta. unfold _decompose_query. cbv zeta.
  assert (Forall (fun t => t ≠ []) (_tokenize_hebrew query false)) as Hne.
  { eapply Forall_impl; [apply tokens_well_formed|].
    intros t (Hlen & _) ->. simpl in Hlen. lia. }
  pose proof (decompose_loop_spec g (_tokenize_hebrew query false) [] ([], [], [], []) Hne)
    as Hloop.
  destruct (foldl (decompose_token g) ([], [], [], []) (_tokenize_hebrew query false))
    as [[[subject location] lorig] expanded].
  pose proof (add_multiword_locations_spec (lower query) location lorig) as Hadd.
  destruct (add_multiword_locations (lower query) (location, lorig)) as [location' lorig'].
  cbn [all_tokens subject_tokens location_tokens location_tokens_original expanded_subjects].
  destruct Hloop as (L1 & L2 & L3 & L4).
  { split_and!; [by intros ? ?%not_elem_of_nil|by intros ? ?%not_elem_of_nil|done|
                 by intros ? ?%not_elem_of_nil]. }
  destruct Hadd as (A1 & A2 & A3). simpl app in *.
  split_and!; [done| | |by apply A1| |apply NoDup_elements].
  - intros t Ht. destruct (L1 t Ht) as [?|?]; [by left|right; by apply A2].
  - intros t Ht. destruct (L2 t Ht) as (? & ? & ?). split_and!; [done| |done].
    apply elem_of_elements, elem_of_list_to_set. done.
  - intros t Ht. destruct (A3 t Ht) as [?|?]; [left; by apply L4|by right].
Qed.

(** ** Rephrasing *)

Lemma is_separator_lower (c : N) : is_separator (lower_cp c) = is_separator c.
Proof.
  unfold lower_cp. destruct ((65 <=? c)%N && (c <=? 90)%N) eqn:H; [|done].
  apply andb_true_iff in H as [H1%N.leb_le H2%N.leb_le].
  assert (∀ d : N, (65 ≤ d ≤ 122)%N → d ≠ 91%N → d ≠ 93%N → is_separator d = false) as Hsep.
  { intros d Hd H91 H93. unfold is_separator, isspace_cp.
    rewrite !orb_false_iff, !andb_false_iff, !N.leb_gt, !N.eqb_neq, bool_decide_eq_false,
      !not_elem_of_cons.
    split_and!; try lia. apply not_elem_of_nil. }
  rewrite !Hsep by lia. done.
Qed.

Lemma add_singulars_chars (P : N → Prop) (variants : gset pystr) (base v : pystr) :
  (∀ c, c ∈ base → P c) → (∀ c, c ∈ u "ה" → P c) →
  v ∈ add_singulars variants base → v ∈ variants ∨ ∀ c, c ∈ v → P c.
Proof.
  intros Hbase Hhe. unfold add_singulars. revert variants.
  induction HEBREW_PLURAL_SUFFIXES as [|suffix rest IH]; intros variants; cbn [foldl];
    [by left|].
  destruct (endswith base suffix && (len suffix + 1 <? len base)); [|apply IH].
  set (singular := take (len base - len suffix) base).
  assert (∀ c, c ∈ singular → P c) as Hs.
  { intros c Hc. apply Hbase. by apply take_elem_of in Hc. }
  destruct (eqb suffix (u "ים")).
  - intros Hv. destruct (IH _ Hv) as [Hin|?]; [|by right].
    apply elem_of_union in Hin as [[?| ->%elem_of_singleton]%elem_of_union
                                   | ->%elem_of_singleton]; [by left|by right|].
    right. intros c [?|?]%elem_of_app; auto.
  - intros Hv. destruct (IH _ Hv) as [Hin|?]; [|by right].
    apply elem_of_union in Hin as [?| ->%elem_of_singleton]; [by left|by right].
Qed.

(** The variants of a word without a separator hold no separator. *)
Lemma get_hebrew_variants_clean (word v : pystr) :
  (∀ c, c ∈ word → is_separator c = false) →
  v ∈ get_hebrew_variants word → ∀ c, c ∈ v → is_separator c = false.
Proof.
  intros Hw. unfold get_hebrew_variants.
  assert (∀ c, c ∈ lower word → is_separator c = false) as Hlw.
  { intros c (d & -> & ?)%list_elem_of_fmap. rewrite is_separator_lower. by apply Hw. }
  destruct (empty word || (len word <? 2)).
  { destruct (empty word); [by intros ?%not_elem_of_nil|].
    by intros ->%list_elem_of_singleton. }
  destruct (has_hebrew word); simpl negb; cbv iota.
  - cbn [foldl].
    set (stripped := strip_first_prefix word (sort_desc len_gt HEBREW_PREFIXES)).
    assert (∀ c, c ∈ stripped → is_separator c = false) as Hst.
    { intros c Hc. unfold stripped in Hc.
      destruct (strip_first_prefix_cases word (sort_desc len_gt HEBREW_PREFIXES))
        as [Heq|(p & _ & _ & _ & Heq)]; rewrite Heq in Hc; [by apply Hw|].
      apply Hw. rewrite <- (take_drop (len p) word). apply elem_of_app. by right. }
    assert (∀ c, c ∈ u "ה" → is_separator c = false) as Hhe
      by (by intros c ->%list_elem_of_singleton).
    intros Hv%elem_of_elements.
    apply (add_singulars_chars _ _ _ _ Hst Hhe) in Hv as [Hv|?]; [|done].
    apply (add_singulars_chars _ _ _ _ Hw Hhe) in Hv as [Hv|?]; [|done].
    apply elem_of_union in Hv as [[->%elem_of_singleton
                                   | ->%elem_of_singleton]%elem_of_union
                                  | ->%elem_of_singleton]; done.
  - intros Hv%elem_of_elements.
    apply elem_of_union in Hv as [->%elem_of_singleton| ->%elem_of_singleton]; done.
Qed.

Lemma best_variant_elem_of (g : globals) (token : pystr) :
  best_variant g token = token ∨ best_variant g token ∈ get_hebrew_variants token.
Proof.
  unfold best_variant.
  assert (∀ (vs : list pystr) (st : pystr * nat),
            (st.1 = token ∨ st.1 ∈ get_hebrew_variants token) →
            (∀ v, v ∈ vs → v ∈ get_hebrew_variants token) →
            (foldl (fun '(best, best_score) v =>
                      if len v <? 2 then (best, best_score)
                      else
                        let synonyms := get_all_synonyms (_BIDIRECTIONAL_EXPANSIONS g) v in
                        if (1 <? length synonyms) && (best_score <? length synonyms)
                        then (v, length synonyms)
                        else (best, best_score)) st vs).1 = token
            ∨ (foldl (fun '(best, best_score) v =>
                      if len v <? 2 then (best, best_score)
                      else
                        let synonyms := get_all_synonyms (_BIDIRECTIONAL_EXPANSIONS g) v in
                        if (1 <? length synonyms) && (best_score <? length synonyms)
                        then (v, length synonyms)
                        else (best, best_score)) st vs).1 ∈ get_hebrew_variants token) as H.
  { induction vs as [|v vs IH]; intros [best n] Hst Hvs; [done|]. cbn [foldl].
    apply IH; [|intros; apply Hvs; by right].
    destruct (len v <? 2); [done|]. cbv zeta.
    destruct (_ && _); [|done]. right. apply Hvs. by left. }
  apply H; [by left|done].
Qed.

Lemma normalize_tokens_clean (g : globals) (tokens : list pystr) :
  Forall well_formed_token tokens →
  length (normalize_tokens g tokens) ≤ length tokens
  ∧ Forall (fun t => t ≠ [] ∧ ∀ c, c ∈ t → is_separator c = false)
           (normalize_tokens g tokens).
Proof.
  unfold normalize_tokens. intros Htok.
  assert (∀ (acc : list pystr),
            Forall (fun t => t ≠ [] ∧ ∀ c, c ∈ t → is_separator c = false) acc →
            length (foldl (fun normalized token =>
                             if (len token <? 2) || isdigit token then normalized
                             else normalized ++ [best_variant g token]) acc tokens)
            ≤ length acc + length tokens
            ∧ Forall (fun t => t ≠ [] ∧ ∀ c, c ∈ t → is_separator c = false)
                (foldl (fun normalized token =>
                          if (len token <? 2) || isdigit token then normalized
                          else normalized ++ [best_variant g token]) acc tokens)) as H.
  { induction Htok as [|token tokens (Hlen & Hsep & _) _ IH]; intros acc Hacc; cbn [foldl].
    - split; [lia|done].
    - destruct ((len token <? 2) || isdigit token).
      + destruct (IH acc Hacc). split; [simpl; lia|done].
      + destruct (IH (acc ++ [best_variant g token])) as [Hl Hf].
        * apply Forall_app. split; [done|]. apply Forall_singleton.
          destruct (best_variant_elem_of g token) as [Heq|Hv].
          -- rewrite Heq. split; [|done]. intros ->. simpl in Hlen. lia.
          -- split; [|by eapply get_hebrew_variants_clean].
             destruct (get_hebrew_variants_facts token) as (_ & _ & _ & Hl2 & _).
             specialize (Hl2 Hlen _ Hv). intros Hb. rewrite Hb in Hl2. simpl in Hl2. lia.
        * rewrite length_app in Hl. simpl in *. split; [lia|done]. }
  destruct (H [] ltac:(constructor)) as [? ?]. split; [simpl in *; lia|done].
Qed.

(** Joining words without separators and tokenising the result gives no
    more tokens than there were words. *)
Lemma tokenize_join_length (parts : list pystr) :
  Forall (fun t => t ≠ [] ∧ ∀ c, c ∈ t → is_separator c = false) parts →
  length (_tokenize_hebrew (join (u " ") parts) false) ≤ length parts.
Proof.
  intros Hparts. unfold _tokenize_hebrew.
  destruct (empty (join (u " ") parts)); [simpl; lia|].
  destruct parts as [|p0 rest]; [done|].
  rewrite lower_join. change (lower (u " ")) with [32%N].
  rewrite re_split_join; [|done|done|].
  - rewrite tokenize_loop_spec. simpl app.
    match goal with
    | |- length (filter ?P ?l) ≤ _ => pose proof (length_filter P l) as Hf
    end.
    cbn [length] in *. by rewrite length_map in Hf.
  - apply Forall_forall. intros t (t0 & -> & Ht0)%list_elem_of_fmap.
    rewrite Forall_forall in Hparts. destruct (Hparts t0 Ht0) as [Hne Hsep]. split.
    + by destruct t0.
    + intros c (d & -> & ?)%list_elem_of_fmap. rewrite is_separator_lower. by apply Hsep.
Qed.

Lemma category_keyword_spec (g : globals) (rephrased tokens : list pystr) :
  category_keyword g rephrased tokens = rephrased
  ∨ ∃ eng token,
      category_keyword g rephrased tokens = rephrased ++ [eng]
      ∧ eng ∉ rephrased ∧ isascii eng = true ∧ 2 < len eng
      ∧ token ∈ tokens
      ∧ eng ∈ get_all_synonyms (_BIDIRECTIONAL_EXPANSIONS g) token.
Proof.
  induction tokens as [|token rest IH]; [by left|]. simpl.
  assert (category_keyword g rephrased rest = rephrased
          ∨ ∃ eng token0,
              category_keyword g rephrased rest = rephrased ++ [eng]
              ∧ eng ∉ rephrased ∧ isascii eng = true ∧ 2 < len eng
              ∧ token0 ∈ token :: rest
              ∧ eng ∈ get_all_synonyms (_BIDIRECTIONAL_EXPANSIONS g) token0) as IH'.
  { destruct IH as [?|(eng & t0 & ? & ? & ? & ? & ? & ?)]; [by left|].
    right. exists eng, t0. split_and!; [done..|by right|done]. }
  destruct (1 <? length _); [|done].
  destruct (filter _ _) as [|eng engs] eqn:Hf; [done|].
  destruct (negb (mem eng rephrased)) eqn:Hm; [|done].
  right. exists eng, token.
  assert (eng ∈ filter (fun s => isascii s && (2 <? len s) = true)
                 (get_all_synonyms (_BIDIRECTIONAL_EXPANSIONS g) token)) as Hin
    by (rewrite Hf; by left).
  apply list_elem_of_filter in Hin as [[? ?%Nat.ltb_lt]%andb_true_iff ?].
  split_and!; [done| |done|done|by left|done].
  unfold mem in Hm. by apply negb_true_iff, bool_decide_eq_false in Hm.
Qed.

(** The alternatives [rephrase_query] builds, before the cut to three:
    those of the first two strategies, which differ from the query, and
    the one of the third, if there is one. *)
Lemma rephrase_query_shape (g : globals) (query : pystr) :
  ∃ front tail,
    rephrase_query g query = take 3 (front ++ tail)
    ∧ NoDup (front ++ tail)
    ∧ (∀ a, a ∈ front ++ tail → a ≠ [])
    ∧ (∀ a, a ∈ front → a ≠ query)
    ∧ (∀ a, a ∈ tail →
            isascii a = true ∧ 2 < len a
            ∧ ∃ token, token ∈ normalize_tokens g (_tokenize_hebrew query false)
                       ∧ is_core_subject token = true
                       ∧ a ∈ get_all_synonyms (_BIDIRECTIONAL_EXPANSIONS g) token).
Proof.
  unfold rephrase_query. cbv zeta.
  pose proof (tokens_well_formed query false) as Hwf.
  destruct (normalize_tokens_clean g _ Hwf) as [Hnlen Hnclean].
  destruct (_tokenize_hebrew query false) as [|t0 ts] eqn:Htok.
  { exists [], []. split_and!; [done|constructor|by intros ? ?%not_elem_of_nil..]. }
  set (tokens := t0 :: ts) in *.
  set (normalized := normalize_tokens g tokens) in *.
  set (r1 := match normalized with
             | [] => []
             | _ => if negb (eqb (join (u " ") normalized) query)
                       && negb (empty (filter (fun c => isspace_cp c = false)
                                              (join (u " ") normalized)))
                    then [join (u " ") normalized] else []
             end).
  assert (NoDup r1 ∧ ∀ a, a ∈ r1 → a ≠ [] ∧ a ≠ query) as [Hr1 Hr1'].
  { unfold r1. destruct normalized; [split; [constructor|by intros ? ?%not_elem_of_nil]|].
    destruct (negb _ && negb _) eqn:Hc; [|split; [constructor|by intros ? ?%not_elem_of_nil]].
    apply andb_true_iff in Hc as [Hq Hb]. split; [apply NoDup_singleton|].
    intros a ->%list_elem_of_singleton. split.
    - intros He. rewrite He in Hb. done.
    - intros He. rewrite He in Hq. unfold eqb in Hq. by rewrite bool_decide_eq_true_2 in Hq. }
  set (core := filter (fun t => is_core_subject t = true) normalized).
  set (r2 := if negb (length core =? 0) && (length core <? length normalized)
             then if negb (empty (join (u " ") (take 3 core)))
                     && negb (mem (join (u " ") (take 3 core)) r1)
                  then r1 ++ [join (u " ") (take 3 core)] else r1
             else r1).
  assert (NoDup r2 ∧ ∀ a, a ∈ r2 → a ≠ [] ∧ a ≠ query) as [Hr2 Hr2'].
  { unfold r2. destruct (negb _ && (_ <? _)) eqn:Hc; [|done].
    apply andb_true_iff in Hc as [_ Hlt%Nat.ltb_lt].
    destruct (negb (empty _) && negb (mem _ r1)) eqn:Hc2; [|done].
    apply andb_true_iff in Hc2 as [Hne Hnm]. split.
    - apply NoDup_app. split; [done|]. split; [|apply NoDup_singleton].
      intros a Ha ->%list_elem_of_singleton. unfold mem in Hnm.
      by apply negb_true_iff, bool_decide_eq_false in Hnm.
    - intros a [Ha| ->%list_elem_of_singleton]%elem_of_app; [by apply Hr1'|]. split.
      + intros He. rewrite He in Hne. done.
      + intros He.
        assert (Forall (fun t => t ≠ [] ∧ ∀ c, c ∈ t → is_separator c = false)
                       (take 3 core)) as Hclean.
        { apply Forall_take. unfold core. apply Forall_forall.
          intros t [_ Ht]%list_elem_of_filter. rewrite Forall_forall in Hnclean.
          by apply Hnclean. }
        pose proof (tokenize_join_length _ Hclean) as Hlen.
        rewrite He, Htok in Hlen. rewrite length_take in Hlen.
        fold tokens in Hlen. lia. }
  destruct (category_keyword_spec g r2 (take 2 core))
    as [->|(eng & token & -> & Hnin & Hascii & Hlen & Htoken & Hsyn)].
  - exists r2, []. rewrite app_nil_r. split_and!; [done|done| |by intros a [? ?]%Hr2'|].
    + by intros a [? ?]%Hr2'.
    + by intros ? ?%not_elem_of_nil.
  - exists r2, [eng]. split_and!; [done| | |by intros a [? ?]%Hr2'|].
    + apply NoDup_app. split; [done|]. split; [|apply NoDup_singleton].
      by intros a Ha ->%list_elem_of_singleton.
    + intros a [Ha| ->%list_elem_of_singleton]%elem_of_app; [by apply Hr2'|].
      intros ->. simpl in Hlen. lia.
    + intros a ->%list_elem_of_singleton. split_and!; [done..|].
      exists token. apply take_elem_of in Htoken.
      apply list_elem_of_filter in Htoken as [? ?]. done.
Qed.

(** X17.  [rephrase_query] returns no alternative twice and no empty
    alternative, and none at all for a query without tokens. *)
Theorem rephrase_query_distinct (g : globals) (query : pystr) :
  NoDup (rephrase_query g query)
  ∧ (∀ alt, alt ∈ rephrase_query g query → alt ≠ [])
  ∧ (_tokenize_hebrew query false = [] → rephrase_query g query = []).
Proof.
  destruct (rephrase_query_shape g query) as (front & tail & Heq & Hnd & Hne & _).
  split_and!.
  - rewrite Heq. eapply sublist_NoDup; [exact Hnd|apply sublist_take].
  - intros alt Halt. rewrite Heq in Halt. apply take_elem_of in Halt. by apply Hne.
  - unfold rephrase_query. by intros ->.
Qed.

(** X18.  Only the third strategy can give the query back: when
    [rephrase_query] returns the query itself among its alternatives, the
    query is an ASCII term of more than two characters that the index
    lists as a synonym of a core subject of the query. *)
Theorem rephrase_query_original_is_synonym (g : globals) (query : pystr) :
  query ∈ rephrase_query g query →
  isascii query = true ∧ 2 < len query
  ∧ ∃ token, token ∈ normalize_tokens g (_tokenize_hebrew query false)
             ∧ is_core_subject token = true
             ∧ query ∈ get_all_synonyms (_BIDIRECTIONAL_EXPANSIONS g) token.
Proof.
  destruct (rephrase_query_shape g query) as (front & tail & Heq & _ & _ & Hfront & Htail).
  rewrite Heq. intros [Hin|Hin]%take_elem_of%elem_of_app.
  - by destruct (Hfront query Hin).
  - by apply Htail.
Qed.

Lemma rephrase_query_original_is_synonym_witness :
  u "court" ∈ rephrase_query bare (u "court")
  ∧ isascii (u "court") = true ∧ 2 < len (u "court")
  ∧ ∃ token, token ∈ normalize_tokens bare (_tokenize_hebrew (u "court") false)
             ∧ is_core_subject token = true
             ∧ u "court" ∈ get_all_synonyms (_BIDIRECTIONAL_EXPANSIONS bare) token.
Proof.
  assert (u "court" ∈ rephrase_query bare (u "court")) as H
    by (apply (bool_decide_unpack _); by vm_compute).
  split; [exact H|].
  apply (rephrase_query_original_is_synonym bare (u "court") H).
Defined.

(** ** Field intents *)

Lemma intents_found_elem_of (query_lower intent : pystr) :
  intent ∈ intents_found query_lower
  ↔ ∃ patterns, (intent, patterns) ∈ FIELD_INTENT_MAPPING
                ∧ (contains query_lower intent = true
                   ∨ ∃ pattern, pattern ∈ patterns ∧ contains query_lower pattern = true).
Proof.
  unfold intents_found.
  assert (∀ (mapping : list (pystr * list pystr)) (acc : list pystr),
            intent ∈ foldl (fun intents '(intent, patterns) =>
                              let intents :=
                                if contains query_lower intent then intents ++ [intent]
                                else intents in
                              if existsb (fun pattern => contains query_lower pattern) patterns
                              then intents ++ [intent] else intents) acc mapping
            ↔ intent ∈ acc
              ∨ ∃ patterns, (intent, patterns) ∈ mapping
                            ∧ (contains query_lower intent = true
                               ∨ ∃ pattern, pattern ∈ patterns
                                            ∧ contains query_lower pattern = true)) as H.
  { induction mapping as [|[i ps] mapping IH]; intros acc; cbn [foldl].
    - split; [by left|]. intros [?|(? & ?%not_elem_of_nil & _)]; done.
    - rewrite IH. cbv zeta.
      assert (existsb (fun pattern => contains query_lower pattern) ps = true
              ↔ ∃ pattern, pattern ∈ ps ∧ contains query_lower pattern = true) as Hex.
      { rewrite existsb_exists. by setoid_rewrite list_elem_of_In. }
      split.
      + intros [Hin|(ps' & ? & ?)].
        * destruct (existsb _ ps) eqn:He.
          -- apply elem_of_app in Hin as [Hin| ->%list_elem_of_singleton].
             ++ destruct (contains query_lower i) eqn:Hc; [|by left].
                apply elem_of_app in Hin as [?| ->%list_elem_of_singleton]; [by left|].
                right. exists ps. split; [by left|by left].
             ++ right. exists ps. split; [by left|]. right. by apply Hex.
          -- destruct (contains query_lower i) eqn:Hc; [|by left].
             apply elem_of_app in Hin as [?| ->%list_elem_of_singleton]; [by left|].
             right. exists ps. split; [by left|by left].
        * right. exists ps'. split; [by right|done].
      + intros [Hin|(ps' & [[= -> ->]|?]%elem_of_cons & Hm)].
        * left. destruct (existsb _ ps); [apply elem_of_app; left|];
            (destruct (contains query_lower i); [apply elem_of_app; by left|done]).
        * left. destruct Hm as [Hc|Hp].
          -- rewrite Hc. destruct (existsb _ ps); [apply elem_of_app; left|];
               apply elem_of_app; right; by left.
          -- apply Hex in Hp. rewrite Hp. apply elem_of_app. right. by left.
        * right. by exists ps'. }
  rewrite H. split; [by intros [?%not_elem_of_nil|?]|by right].
Qed.

(** X19.  [extract_field_intents] returns, each once, the intents of
    [FIELD_INTENT_MAPPING] whose name or one of whose patterns occurs in
    the lower-case query. *)
Theorem extract_field_intents_spec (query : pystr) :
  NoDup (extract_field_intents query)
  ∧ ∀ intent,
      intent ∈ extract_field_intents query
      ↔ ∃ patterns, (intent, patterns) ∈ FIELD_INTENT_MAPPING
                    ∧ (contains (lower query) intent = true
                       ∨ ∃ pattern, pattern ∈ patterns
                                    ∧ contains (lower query) pattern = true).
Proof.
  unfold extract_field_intents. split; [apply NoDup_elements|].
  intros intent. rewrite elem_of_elements, elem_of_list_to_set.
  apply intents_found_elem_of.
Qed.

(** ** The field-availability filter *)

Lemma filter_by_field_availability_cases (g : globals) (cs : list candidate)
    (field_intents : list pystr) :
  filter_by_field_availability g cs field_intents = cs
  ∨ (filter_by_field_availability g cs field_intents
     = filter (fun c => all_available g (omap relevant_intent field_intents) c = true) cs
     ∧ filter_by_field_availability g cs field_intents ≠ []).
Proof.
  unfold filter_by_field_availability. destruct field_intents as [|i rest]; [by left|].
  destruct (omap relevant_intent (i :: rest)) as [|k ks]; [by left|].
  destruct (filter _ cs) as [|c cs'] eqn:Hf; [by left|]. by right.
Qed.

(** X20.  [filter_by_field_availability] keeps the order of the
    candidates it returns, and filtering twice is filtering once. *)
Theorem filter_by_field_availability_idempotent (g : globals) (cs : list candidate)
    (field_intents : list pystr) :
  filter_by_field_availability g cs field_intents `sublist_of` cs
  ∧ filter_by_field_availability g (filter_by_field_availability g cs field_intents)
      field_intents
    = filter_by_field_availability g cs field_intents.
Proof.
  destruct (filter_by_field_availability_cases g cs field_intents) as [Heq|[Heq Hne]].
  - rewrite Heq. split; [done|]. by rewrite Heq.
  - split; [rewrite Heq; apply sublist_filter|].
    destruct (filter_by_field_availability_cases g
                (filter_by_field_availability g cs field_intents) field_intents)
      as [Heq2|[Heq2 _]]; [done|].
    rewrite Heq2. rewrite Heq at 1 2.
    rewrite list_filter_filter. apply list_filter_iff. tauto.
Qed.

(** ** The front of [datagov_query] and the selection of a resource *)

Lemma rephrase_query_length (g : globals) (query : pystr) :
  length (rephrase_query g query) ≤ 3.
Proof.
  unfold rephrase_query. destruct (_tokenize_hebrew query false); [simpl; lia|].
  cbv zeta. rewrite length_take. lia.
Qed.

(** What the front does with a query that is not blank, when the map is
    loaded: the three ways it can end. *)
Lemma datagov_query_front_cases (g : globals) (map_data : list dataset) (query : pystr) :
  not_blank query →
  let initial := suggest_for_query g query map_data 5 in
  let calls := (datagov_query_front g (Some map_data) query).1 in
  let r := (datagov_query_front g (Some map_data) query).2 in
  (low_confidence (candidates initial) = false
   ∧ calls = [SuggestForQuery query] ∧ r = Continue initial None)
  ∨ (low_confidence (candidates initial) = true
     ∧ ∃ failed alt_query rest,
         rephrase_query g query = failed ++ alt_query :: rest
         ∧ calls = SuggestForQuery query :: RephraseQuery query
                     :: map SuggestForQuery (failed ++ [alt_query])
         ∧ (∀ alt, alt ∈ failed →
                   low_confidence (candidates (suggest_for_query g alt map_data 5)) = true)
         ∧ low_confidence (candidates (suggest_for_query g alt_query map_data 5)) = false
         ∧ r = Continue (suggest_for_query g alt_query map_data 5) (Some alt_query))
  ∨ (low_confidence (candidates initial) = true
     ∧ (∀ alt, alt ∈ rephrase_query g query →
               low_confidence (candidates (suggest_for_query g alt map_data 5)) = true)
     ∧ calls = SuggestForQuery query :: RephraseQuery query
                 :: map SuggestForQuery (rephrase_query g query)
                 ++ [GetCategorySuggestion query]
     ∧ ((meaningful_tokens query = [] ∧ r = StatusQueryTooVague VAGUE_SUGGESTION)
        ∨ (meaningful_tokens query ≠ []
           ∧ r = StatusNotInDatagov (sg_decomposition initial)))).
Proof.
  intros Hblank. cbv zeta. unfold datagov_query_front.
  unfold not_blank in Hblank.
  destruct (filter (fun c => isspace_cp c = false) query) eqn:Hq; [done|]. simpl empty.
  cbv iota. clear Hq Hblank.
  set (initial := suggest_for_query g query map_data 5).
  destruct (low_confidence (candidates initial)) eqn:Hinit.
  - pose proof (try_rephrased_spec g map_data (rephrase_query g query)) as Htry.
    destruct (try_rephrased g map_data (rephrase_query g query))
      as [tried [[alt_result alt_query]|]].
    + destruct Htry as (failed & rest & Heq & -> & Hf & -> & Hc).
      rewrite Hc. right. left. split; [done|].
      exists failed, alt_query, rest. by split_and!.
    + destruct Htry as [-> Hall]. rewrite Hinit. right. right.
      split; [done|]. split; [done|].
      unfold get_category_suggestion.
      destruct (meaningful_tokens query) as [|m ms] eqn:Hm; cbn [length Nat.ltb Nat.leb].
      * split; [done|]. by left.
      * split; [done|]. right. done.
  - rewrite Hinit. left. done.
Qed.

Lemma filter_is_search_map (alts : list pystr) :
  filter (fun c => is_search c = true) (map SuggestForQuery alts) = map SuggestForQuery alts.
Proof.
  induction alts as [|a alts IH]; [done|]. simpl map.
  by rewrite filter_cons_True, IH.
Qed.

(** X21.  The protocol of the front of [datagov_query] for a query that is
    not blank, when the map is loaded: the query itself is searched first;
    only the query and alternatives of [rephrase_query] are searched, at
    most four searches in all; the request goes on only with the result of
    a search whose best candidate reaches the minimum confidence, the
    first such in the order of the searches; and it ends with a status
    only after every search was of low confidence, with
    [get_category_suggestion] as the last call. *)
Theorem datagov_query_front_protocol (g : globals) (map_data : list dataset)
    (query : pystr) :
  not_blank query →
  let calls := (datagov_query_front g (Some map_data) query).1 in
  let r := (datagov_query_front g (Some map_data) query).2 in
  let low := fun q => low_confidence (candidates (suggest_for_query g q map_data 5)) in
  head calls = Some (SuggestForQuery query)
  ∧ length (filter (fun c => is_search c = true) calls) ≤ 4
  ∧ (∀ q, SuggestForQuery q ∈ calls → q = query ∨ q ∈ rephrase_query g query)
  ∧ match r with
    | Continue result used_rephrase =>
        result = suggest_for_query g (default query used_rephrase) map_data 5
        ∧ low (default query used_rephrase) = false
        ∧ last calls = Some (SuggestForQuery (default query used_rephrase))
        ∧ (∀ alt, used_rephrase = Some alt → alt ∈ rephrase_query g query ∧ low query = true)
    | StatusQueryTooVague _ | StatusNotInDatagov _ =>
        last calls = Some (GetCategorySuggestion query)
        ∧ low query = true
        ∧ (∀ alt, alt ∈ rephrase_query g query → low alt = true)
        ∧ (∀ alt, alt ∈ rephrase_query g query → SuggestForQuery alt ∈ calls)
    | ErrorQueryRequired | ErrorMapNotLoaded => False
    end.
Proof.
  intros Hblank. cbv zeta.
  pose proof (datagov_query_front_cases g map_data query Hblank) as Hcases.
  cbv zeta in Hcases.
  pose proof (rephrase_query_length g query) as Hlen.
  destruct (datagov_query_front g (Some map_data) query) as [calls r]. cbn [fst snd] in *.
  destruct Hcases as [(Hlow & -> & ->)
                     |[(Hlow & failed & alt & rest & Heq & -> & Hf & Ha & ->)
                      |(Hlow & Hall & -> & Hr)]].
  - split_and!; [done|simpl; lia| |done..|by intros ? [=]].
    intros q [[= ->]|?%not_elem_of_nil]%elem_of_cons; [by left|done].
  - rewrite Heq in *. split_and!; [done| | |done|done| |].
    + rewrite filter_cons_True by done. rewrite filter_cons_False by done.
      rewrite filter_is_search_map. cbn [length]. rewrite length_map.
      rewrite !length_app in *. simpl in *. lia.
    + intros q [[= ->]|[[=]|Hq]%elem_of_cons]%elem_of_cons; [by left|].
      right. apply list_elem_of_fmap in Hq as (a & [= ->] & Hin).
      apply elem_of_app in Hin as [?| ->%list_elem_of_singleton];
        apply elem_of_app; [by left|right; by left].
    + rewrite map_app. simpl. rewrite !app_comm_cons. apply last_snoc.
    + intros a [= <-]. split; [|done]. apply elem_of_app. right. by left.
  - split_and!; [done| | |].
    + rewrite filter_cons_True by done. rewrite filter_cons_False by done.
      rewrite filter_app, filter_is_search_map.
      rewrite filter_cons_False by done. rewrite filter_nil, app_nil_r.
      cbn [length]. rewrite length_map. lia.
    + intros q [[= ->]|[[=]|Hq]%elem_of_cons]%elem_of_cons; [by left|].
      right. apply elem_of_app in Hq as [Hq|[[=]|?%not_elem_of_nil]%elem_of_cons]; [|done].
      by apply list_elem_of_fmap in Hq as (a & [= ->] & Hin).
    + assert (last (SuggestForQuery query :: RephraseQuery query
                      :: map SuggestForQuery (rephrase_query g query)
                      ++ [GetCategorySuggestion query])
              = Some (GetCategorySuggestion query)) as Hlast
        by (rewrite !app_comm_cons; apply last_snoc).
      assert (∀ alt, alt ∈ rephrase_query g query →
                SuggestForQuery alt
                ∈ SuggestForQuery query :: RephraseQuery query
                    :: map SuggestForQuery (rephrase_query g query)
                    ++ [GetCategorySuggestion query]) as Hsearched.
      { intros alt Halt. right. right. apply elem_of_app. left.
        apply list_elem_of_fmap. by exists alt. }
      destruct Hr as [[_ ->]|[_ ->]]; by split_and!.
Qed.

Lemma datagov_query_front_protocol_witness :
  not_blank (u "DD xx")
  ∧ head (datagov_query_front bare (Some []) (u "DD xx")).1
    = Some (SuggestForQuery (u "DD xx"))
  ∧ length (filter (fun c => is_search c = true)
                   (datagov_query_front bare (Some []) (u "DD xx")).1) ≤ 4.
Proof.
  assert (not_blank (u "DD xx")) as H by (by vm_compute).
  split; [exact H|].
  pose proof (datagov_query_front_protocol bare [] (u "DD xx") H) as (H1 & H2 & _).
  split; [exact H1|exact H2].
Defined.

Lemma select_best_spec (cands : list candidate) :
  match select_best cands with
  | Some best => best ∈ cands
  | None => cands = []
  end.
Proof.
  unfold select_best.
  destruct (filter _ cands) as [|best rest] eqn:Hf.
  - by destruct cands as [|c cs]; [|left].
  - assert (best ∈ filter (fun c => mem (upper (format c)) [u "CSV"; u "JSON"; u "XLSX"]
                                    && qlt 0.1 (score c) = true) cands) as Hin
      by (rewrite Hf; by left).
    by apply list_elem_of_filter in Hin as [_ ?].
Qed.

Lemma suggest_for_query_resource_ids (g : globals) (query : pystr)
    (map_data : list dataset) (limit : Z) (c : candidate) :
  c ∈ candidates (suggest_for_query g query map_data limit) →
  ∃ ds r, ds ∈ map_data ∧ r ∈ ds_resources ds ∧ resource_id c = r_id r.
Proof.
  unfold suggest_for_query. cbv zeta. cbn [candidates]. intros Hc.
  apply slice_to_elem_of, sort_desc_elem_of in Hc.
  apply list_elem_of_In, in_flat_map in Hc as (ds & Hds & Hc).
  apply list_elem_of_In in Hds, Hc.
  apply dataset_candidates_elem_of in Hc as (r & ? & _ & _ & ? & _). by exists ds, r.
Qed.

(** X22.  After the front has decided to go on, the selection of the
    resource never runs into the [IndexError] of an empty candidate list:
    the field-availability filter leaves a candidate; and when every
    resource of the corpus has an id, a candidate of the suggestion is
    selected, with its id. *)
Theorem select_resource_after_front (g : globals) (map_data : list dataset)
    (query : pystr) (calls : list call) (result : suggestion)
    (used_rephrase : option pystr) :
  datagov_query_front g (Some map_data) query = (calls, Continue result used_rephrase) →
  select_resource g result query ≠ SelectionIndexError
  ∧ (resources_have_ids map_data →
     ∃ best rid, select_resource g result query = Selected best rid
                 ∧ best ∈ candidates result
                 ∧ resource_id best = Some rid ∧ rid ≠ []).
Proof.
  intros Hfront.
  assert (not_blank query) as Hblank.
  { unfold not_blank. intros Hq. unfold datagov_query_front in Hfront.
    by rewrite Hq in Hfront. }
  pose proof (datagov_query_front_cases g map_data query Hblank) as Hcases.
  cbv zeta in Hcases. rewrite Hfront in Hcases. cbn [fst snd] in Hcases.
  assert (low_confidence (candidates result) = false
          ∧ ∃ q, result = suggest_for_query g q map_data 5) as [Hlow [q Hres]].
  { destruct Hcases as [(? & _ & [= -> _])
                       |[(_ & ? & a & ? & _ & _ & _ & ? & [= -> _])
                        |(_ & _ & _ & [[_ [=]]|[_ [=]]])]].
    - split; [done|by eexists].
    - split; [done|by eexists]. }
  assert (candidates result ≠ []) as Hne by (by destruct (candidates result)).
  unfold select_resource. cbv zeta.
  set (cands := match extract_field_intents query with
                | [] => candidates result
                | _ => filter_by_field_availability g (candidates result)
                         (extract_field_intents query)
                end).
  assert (cands ≠ [] ∧ ∀ c, c ∈ cands → c ∈ candidates result) as [Hcne Hsub].
  { unfold cands. destruct (extract_field_intents query) as [|i rest]; [done|].
    destruct (filter_by_field_availability_cases g (candidates result) (i :: rest))
      as [->|[Heq Hn]]; [done|].
    split; [done|]. rewrite Heq. by intros c [_ ?]%list_elem_of_filter. }
  pose proof (select_best_spec cands) as Hbest.
  destruct (select_best cands) as [best|]; [|done].
  split; [by destruct (truthy_id (resource_id best))|].
  intros Hids.
  assert (best ∈ candidates result) as Hin by by apply Hsub.
  pose proof Hin as Hin'. rewrite Hres in Hin'.
  apply suggest_for_query_resource_ids in Hin' as (ds & r & Hds & Hr & Hrid).
  specialize (Hids ds r Hds Hr). rewrite <- Hrid in Hids.
  destruct (truthy_id (resource_id best)) as [rid|] eqn:Ht; [|done].
  exists best, rid. split_and!; [done|done| |].
  - unfold truthy_id in Ht. destruct (resource_id best) as [s|]; [|done].
    destruct (empty s); [done|]. by injection Ht as ->.
  - unfold truthy_id in Ht. destruct (resource_id best) as [s|]; [|done].
    destruct s; [done|]. by injection Ht as <-.
Qed.

Lemma select_resource_after_front_witness :
  ∃ calls result used_rephrase,
    datagov_query_front bare (Some [zz_ds]) (u "zz") = (calls, Continue result used_rephrase)
    ∧ select_resource bare result (u "zz") ≠ SelectionIndexError.
Proof.
  destruct (datagov_query_front bare (Some [zz_ds]) (u "zz")) as [calls r] eqn:H.
  destruct r as [| | | |result used]; try (by vm_compute in H).
  exists calls, result, used. split; [done|].
  apply (select_resource_after_front bare [zz_ds] (u "zz") calls result used H).
Defined.

(** ** The selection of the fields *)

Lemma match_single_intent (intent : pystr) (schema_fields : list pystr) :
  matched_fields (match_fields_to_schema [intent] schema_fields)
  = match match_intent intent schema_fields with
    | Some f => [f]
    | None => []
    end.
Proof.
  unfold match_fields_to_schema. rewrite match_loop_spec. cbn [matched_fields].
  simpl omap. destruct (match_intent intent schema_fields) as [f|]; simpl.
  - rewrite (right_id_L ∅ (∪)). apply elements_singleton.
  - apply elements_empty.
Qed.

Lemma get_semantic_field_name_Some (schema : option (list schema_field))
    (semantic_type name : pystr) :
  get_semantic_field_name schema semantic_type = Some name →
  ∃ fields f, schema = Some fields ∧ f ∈ fields
              ∧ fd_semantic f = Some semantic_type ∧ fd_name f = Some name.
Proof.
  unfold get_semantic_field_name. destruct schema as [fields|]; [|done].
  destruct (filter _ fields) as [|f rest] eqn:Hf; [done|]. intros Hn.
  assert (f ∈ filter (fun f => fd_semantic f = Some semantic_type) fields) as Hin
    by (rewrite Hf; by left).
  apply list_elem_of_filter in Hin as [? ?]. by exists fields, f.
Qed.

(** The step of the loop over the intents: what an intent adds. *)
Lemma match_field_intents_spec (schema : option (list schema_field))
    (field_intents schema_fields : list pystr) :
  let '(matched, missing) := match_field_intents schema field_intents schema_fields in
  (∀ f, f ∈ matched →
        f ∈ schema_fields
        ∧ ∃ intent, intent ∈ field_intents
                    ∧ (get_semantic_field_name schema intent = Some f
                       ∨ match_intent intent schema_fields = Some f))
  ∧ (∀ intent, intent ∈ missing →
               intent ∈ field_intents ∧ match_intent intent schema_fields = None
               ∧ (∀ name, get_semantic_field_name schema intent = Some name →
                            name = [] ∨ name ∉ schema_fields))
  ∧ (∀ intent, intent ∈ field_intents →
               intent ∈ missing
               ∨ ∃ f, f ∈ matched
                      ∧ (get_semantic_field_name schema intent = Some f
                         ∨ match_intent intent schema_fields = Some f)).
Proof.
  unfold match_field_intents.
  match goal with
  | |- context [foldl ?f ([], []) field_intents] => set (step := f)
  end.
  assert (∀ (todo seen : list pystr) (st : list pystr * list pystr),
            (let '(matched, missing) := st in
             (∀ f, f ∈ matched →
                   f ∈ schema_fields
                   ∧ ∃ intent, intent ∈ seen
                               ∧ (get_semantic_field_name schema intent = Some f
                                  ∨ match_intent intent schema_fields = Some f))
             ∧ (∀ intent, intent ∈ missing →
                          intent ∈ seen ∧ match_intent intent schema_fields = None
                          ∧ (∀ name, get_semantic_field_name schema intent = Some name →
                                       name = [] ∨ name ∉ schema_fields))
             ∧ (∀ intent, intent ∈ seen →
                          intent ∈ missing
                          ∨ ∃ f, f ∈ matched
                                 ∧ (get_semantic_field_name schema intent = Some f
                                    ∨ match_intent intent schema_fields = Some f))) →
            let '(matched, missing) := foldl step st todo in
            (∀ f, f ∈ matched →
                  f ∈ schema_fields
                  ∧ ∃ intent, intent ∈ seen ++ todo
                              ∧ (get_semantic_field_name schema intent = Some f
                                 ∨ match_intent intent schema_fields = Some f))
            ∧ (∀ intent, intent ∈ missing →
                         intent ∈ seen ++ todo ∧ match_intent intent schema_fields = None
                         ∧ (∀ name, get_semantic_field_name schema intent = Some name →
                                      name = [] ∨ name ∉ schema_fields))
            ∧ (∀ intent, intent ∈ seen ++ todo →
                         intent ∈ missing
                         ∨ ∃ f, f ∈ matched
                                ∧ (get_semantic_field_name schema intent = Some f
                                   ∨ match_intent intent schema_fields = Some f))) as H.
  { induction todo as [|intent todo IH]; intros seen [matched missing] Hst; cbn [foldl].
    - by rewrite app_nil_r.
    - specialize (IH (seen ++ [intent]) (step (matched, missing) intent)).
      rewrite <- app_assoc in IH. apply IH. clear IH.
      destruct Hst as (H1 & H2 & H3).
      (* the two ways the step can go *)
      assert (Hpattern :
        (∀ name, get_semantic_field_name schema intent = Some name →
                 name = [] ∨ name ∉ schema_fields) →
        let '(matched', missing') :=
          match matched_fields (match_fields_to_schema [intent] schema_fields) with
          | [] => (matched, missing ++ [intent])
          | _ => (matched
                    ++ matched_fields (match_fields_to_schema [intent] schema_fields),
                  missing)
          end in
        (∀ f, f ∈ matched' →
              f ∈ schema_fields
              ∧ ∃ i, i ∈ seen ++ [intent]
                     ∧ (get_semantic_field_name schema i = Some f
                        ∨ match_intent i schema_fields = Some f))
        ∧ (∀ i, i ∈ missing' →
                i ∈ seen ++ [intent] ∧ match_intent i schema_fields = None
                ∧ (∀ name, get_semantic_field_name schema i = Some name →
                             name = [] ∨ name ∉ schema_fields))
        ∧ (∀ i, i ∈ seen ++ [intent] →
                i ∈ missing'
                ∨ ∃ f, f ∈ matched'
                       ∧ (get_semantic_field_name schema i = Some f
                          ∨ match_intent i schema_fields = Some f))).
      { intros Hsemantic. rewrite match_single_intent.
        destruct (match_intent intent schema_fields) as [f0|] eqn:Hm.
        - split_and!.
          + intros f [Hf| ->%list_elem_of_singleton]%elem_of_app.
            * destruct (H1 f Hf) as [? (i & ? & ?)]. split; [done|].
              exists i. split; [apply elem_of_app; by left|done].
            * split; [by apply match_patterns_Some in Hm as [? _]|].
              exists intent. split; [apply elem_of_app; right; by left|by right].
          + intros i Hi. destruct (H2 i Hi) as (? & ? & ?).
            split_and!; [apply elem_of_app; by left|done|done].
          + intros i [Hi| ->%list_elem_of_singleton]%elem_of_app.
            * destruct (H3 i Hi) as [?|(f & ? & ?)]; [by left|].
              right. exists f. split; [apply elem_of_app; by left|done].
            * right. exists f0. split; [apply elem_of_app; right; by left|by right].
        - split_and!.
          + intros f Hf. destruct (H1 f Hf) as [? (i & ? & ?)]. split; [done|].
            exists i. split; [apply elem_of_app; by left|done].
          + intros i [Hi| ->%list_elem_of_singleton]%elem_of_app.
            * destruct (H2 i Hi) as (? & ? & ?).
              split_and!; [apply elem_of_app; by left|done|done].
            * split_and!; [apply elem_of_app; right; by left|done|done].
          + intros i [Hi| ->%list_elem_of_singleton]%elem_of_app.
            * destruct (H3 i Hi) as [?|(f & ? & ?)]; [left; apply elem_of_app; by left|].
              right. by exists f.
            * left. apply elem_of_app. right. by left. }
      unfold step. cbv zeta.
      destruct (get_semantic_field_name schema intent) as [name|] eqn:Hsem;
        [|by apply Hpattern].
      destruct (negb (empty name) && mem name schema_fields) eqn:Hc.
      2:{ apply Hpattern. intros ? [= <-].
          apply andb_false_iff in Hc as [Hc|Hc].
          - left. by destruct name.
          - right. unfold mem in Hc. by apply bool_decide_eq_false in Hc. }
      apply andb_true_iff in Hc as [_ Hmem]. unfold mem in Hmem.
      apply bool_decide_eq_true in Hmem. split_and!.
      + intros f [Hf| ->%list_elem_of_singleton]%elem_of_app.
        * destruct (H1 f Hf) as [? (i & ? & ?)]. split; [done|].
          exists i. split; [apply elem_of_app; by left|done].
        * split; [done|]. exists intent. split; [apply elem_of_app; right; by left|by left].
      + intros i Hi. destruct (H2 i Hi) as (? & ? & ?).
        split_and!; [apply elem_of_app; by left|done|done].
      + intros i [Hi| ->%list_elem_of_singleton]%elem_of_app.
        * destruct (H3 i Hi) as [?|(f & ? & ?)]; [by left|].
          right. exists f. split; [apply elem_of_app; by left|done].
        * right. exists name. split; [apply elem_of_app; right; by left|by left]. }
  apply (H field_intents [] ([], [])).
  split_and!; by intros ? ?%not_elem_of_nil.
Qed.

Lemma precomputed_field_names_elem_of (fields : list schema_field) (name : pystr) :
  name ∈ precomputed_field_names fields
  ↔ name ≠ [] ∧ name ≠ u "_id"
    ∧ ∃ f, f ∈ fields ∧ name = or_str (fd_name f) (or_str (fd_id f) []).
Proof.
  unfold precomputed_field_names. rewrite list_elem_of_omap. split.
  - intros (f & Hf & Hn).
    destruct (negb (empty _) && negb (eqb _ (u "_id"))) eqn:Hc; [|done].
    injection Hn as <-. apply andb_true_iff in Hc as [Hne Hid]. split_and!.
    + intros He. by rewrite He in Hne.
    + intros He. rewrite He in Hid. done.
    + by exists f.
  - intros (Hne & Hid & f & Hf & ->). exists f. split; [done|].
    destruct (or_str (fd_name f) (or_str (fd_id f) [])) as [|c s] eqn:Hs; [done|].
    simpl empty. simpl negb. unfold eqb. by rewrite bool_decide_eq_false_2.
Qed.

(** X23.  The fields [datagov_query] asks the datastore for, when the
    schema of the resource is found in [enterprise_schemas.json]: each is a
    named field of that schema other than [_id], found for one of the
    intents by its semantic tag or by the patterns; the list is never empty;
    and all fields are fetched only when there is no intent, the schema
    names no field, or no intent finds a field, neither by its semantic
    tag nor by the patterns. *)
Theorem selected_fields_sound (fields : list schema_field) (field_intents : list pystr) :
  let schema_fields := precomputed_field_names fields in
  match selected_fields (Some fields) field_intents schema_fields with
  | Some selected =>
      selected ≠ []
      ∧ ∀ f, f ∈ selected →
             f ∈ schema_fields ∧ f ≠ u "_id"
             ∧ ∃ intent, intent ∈ field_intents
                         ∧ (get_semantic_field_name (Some fields) intent = Some f
                            ∨ match_intent intent schema_fields = Some f)
  | None =>
      field_intents = [] ∨ schema_fields = []
      ∨ ∀ intent, intent ∈ field_intents →
                  match_intent intent schema_fields = None
                  ∧ ∀ name, get_semantic_field_name (Some fields) intent = Some name →
                            name = [] ∨ name ∉ schema_fields
  end.
Proof.
  cbv zeta. unfold selected_fields.
  destruct field_intents as [|i0 rest]; [by left|].
  destruct (precomputed_field_names fields) as [|n0 names] eqn:Hnames; [right; by left|].
  rewrite <- Hnames.
  pose proof (match_field_intents_spec (Some fields) (i0 :: rest)
                (precomputed_field_names fields)) as Hspec.
  destruct (match_field_intents (Some fields) (i0 :: rest) (precomputed_field_names fields))
    as [matched missing].
  destruct Hspec as (H1 & H2 & H3). cbn [fst].
  destruct matched as [|m ms].
  - right. right. intros intent Hi.
    destruct (H3 intent Hi) as [Hm|(f & ?%not_elem_of_nil & _)]; [|done].
    destruct (H2 intent Hm) as (_ & ? & ?). by split.
  - split; [done|]. intros f Hf. destruct (H1 f Hf) as [Hin Hintent].
    split; [done|]. split; [|done].
    by apply precomputed_field_names_elem_of in Hin as (_ & ? & _).
Qed.

(** ** Semantic field names *)

Lemma semantic_fields_loop (fields : list schema_field) (acc : gmap pystr (option pystr))
    (t : pystr) :
  t ≠ [] →
  foldl (fun result f =>
           match fd_semantic f with
           | Some semantic =>
               if empty semantic then result else <[semantic := fd_name f]> result
           | None => result
           end) acc fields !! t
  = match last (filter (fun f => fd_semantic f = Some t) fields) with
    | Some f => Some (fd_name f)
    | None => acc !! t
    end.
Proof.
  intros Ht. revert acc. induction fields as [|f fields IH]; intros acc; cbn [foldl]; [done|].
  rewrite IH. destruct (decide (fd_semantic f = Some t)) as [Hf|Hf].
  - rewrite filter_cons_True by done. rewrite Hf.
    assert (empty t = false) as -> by by destruct t.
    destruct (filter _ fields) as [|f' rest] eqn:Hfilter.
    + simpl. by rewrite lookup_insert_eq.
    + rewrite last_cons_cons. destruct (last (f' :: rest)) eqn:Hl; [done|].
      by apply last_None in Hl.
  - rewrite filter_cons_False by done.
    destruct (last (filter _ fields)); [done|].
    destruct (fd_semantic f) as [s|]; [|done].
    destruct (empty s); [done|]. rewrite lookup_insert_ne; [done|]. congruence.
Qed.

(** X24.  [get_semantic_field_name] answers with the first field of the
    schema that carries the tag, [get_all_semantic_fields] with the last
    one: the two agree on a tag that at most one field carries. *)
Theorem semantic_field_lookups (fields : list schema_field) (t : pystr) :
  t ≠ [] →
  let tagged := filter (fun f => fd_semantic f = Some t) fields in
  get_semantic_field_name (Some fields) t = head tagged ≫= fd_name
  ∧ get_all_semantic_fields (Some fields) !! t = fd_name <$> last tagged
  ∧ (length tagged ≤ 1 →
     get_semantic_field_name (Some fields) t
     = mjoin (get_all_semantic_fields (Some fields) !! t)).
Proof.
  intros Ht. cbv zeta.
  assert (get_all_semantic_fields (Some fields) !! t
          = fd_name <$> last (filter (fun f => fd_semantic f = Some t) fields)) as Hall.
  { unfold get_all_semantic_fields. rewrite semantic_fields_loop by done.
    destruct (last _); [done|]. by rewrite lookup_empty. }
  assert (get_semantic_field_name (Some fields) t
          = head (filter (fun f => fd_semantic f = Some t) fields) ≫= fd_name) as Hone.
  { unfold get_semantic_field_name. by destruct (filter _ fields). }
  split_and!; [done..|].
  rewrite Hall, Hone. destruct (filter _ fields) as [|f [|f' rest]]; simpl; [done|done|lia].
Qed.

Lemma semantic_field_lookups_witness :
  u "phone" ≠ []
  ∧ get_semantic_field_name
      (Some [ {| fd_name := Some (u "tel"); fd_id := None; fd_semantic := Some (u "phone") |} ])
      (u "phone")
    = mjoin (get_all_semantic_fields
               (Some [ {| fd_name := Some (u "tel"); fd_id := None;
                          fd_semantic := Some (u "phone") |} ]) !! u "phone").
Proof.
  assert (u "phone" ≠ []) as H by done.
  split; [exact H|].
  apply (semantic_field_lookups
           [ {| fd_name := Some (u "tel"); fd_id := None; fd_semantic := Some (u "phone") |} ]
           (u "phone") H).
  simpl. lia.
Defined.

(** ** The aggregates *)

(** Rounding half to even moves a number by a half at most. *)
Lemma round_half_even_error (y : Q) :
  (inject_Z (round_half_even y) - (1 # 2) <= y)%Q
  ∧ (y <= inject_Z (round_half_even y) + (1 # 2))%Q.
Proof.
  pose proof (Qfloor_le y) as Hlo. pose proof (Qlt_floor y) as Hhi.
  rewrite inject_Z_plus in Hhi. change (inject_Z 1) with 1%Q in Hhi.
  unfold round_half_even. cbv zeta.
  destruct (y - inject_Z (Qfloor y) ?= 1 # 2)%Q eqn:Hc.
  - apply Qeq_alt in Hc. destruct (Z.even (Qfloor y)).
    + split; lra.
    + rewrite inject_Z_plus. change (inject_Z 1) with 1%Q. split; lra.
  - apply Qlt_alt in Hc. split; lra.
  - apply Qgt_alt in Hc. rewrite inject_Z_plus. change (inject_Z 1) with 1%Q. split; lra.
Qed.

Lemma numeric_fields_elem_of (str_of_float : spec_float → pystr)
    (records : list (gmap pystr cell)) (fields : list field) (fid : pystr) :
  fid ∈ numeric_fields str_of_float records fields →
  fid ≠ u "_id" ∧ ∃ f, f ∈ fields ∧ f_id f = fid.
Proof.
  unfold numeric_fields.
  match goal with
  | |- context [foldl ?f [] fields] => set (step := f)
  end.
  assert (∀ (fs : list field) (acc : list pystr),
            (∀ x, x ∈ acc → x ≠ u "_id" ∧ ∃ f, f ∈ fields ∧ f_id f = x) →
            (∀ f, f ∈ fs → f ∈ fields) →
            ∀ x, x ∈ foldl step acc fs → x ≠ u "_id" ∧ ∃ f, f ∈ fields ∧ f_id f = x) as H.
  { induction fs as [|f fs IH]; intros acc Hacc Hfs; [done|]. cbn [foldl].
    apply IH; [|intros; apply Hfs; by right].
    assert (∀ x, x ∈ acc ++ [f_id f] → eqb (f_id f) (u "_id") = false →
                 x ≠ u "_id" ∧ ∃ f, f ∈ fields ∧ f_id f = x) as Hadd.
    { intros x [?| ->%list_elem_of_singleton]%elem_of_app Hid; [by apply Hacc|].
      split.
      - intros He. rewrite He in Hid. done.
      - exists f. split; [apply Hfs; by left|done]. }
    unfold step. cbv zeta.
    destruct (eqb (f_id f) (u "_id")) eqn:Hid; [done|].
    destruct (mem _ NUMERIC_TYPES); [intros x Hx; by apply Hadd|].
    destruct (existsb _ _); [intros x Hx; by apply Hadd|done]. }
  apply H; [by intros ? ?%not_elem_of_nil|done].
Qed.

(** An entry of the aggregates, read off the loops. *)
Lemma calculate_aggregates_entry (float_of_str : pystr → option spec_float)
    (str_of_float : spec_float → pystr) (records : list (gmap pystr cell))
    (fields : list field) (aggs : gmap pystr aggregate) (fid : pystr) (a : aggregate) :
  _calculate_aggregates float_of_str str_of_float records fields = Some aggs →
  aggs !! fid = Some a →
  let values := numeric_values float_of_str records fid in
  fid ∈ numeric_fields str_of_float records fields
  ∧ 0 < length values
  ∧ agg_count a = length values
  ∧ Float.is_finite (running_total values) = true
  ∧ reported_sum (running_total values) = Some (agg_sum a).
Proof.
  cbv zeta. unfold _calculate_aggregates. destruct records as [|r records].
  { intros [= <-]. by rewrite lookup_empty. }
  set (rs := r :: records). clearbody rs.
  destruct (aggregate_loop_spec float_of_str rs
              (numeric_fields str_of_float rs fields) ∅)
    as [[_ ->]|(Hall & aggs' & -> & Hlook)]; [done|].
  intros [= <-]. rewrite Hlook, lookup_empty.
  destruct (decide _) as [[Hin Hc]|Hn]; [|done].
  assert (Float.is_finite (running_total (numeric_values float_of_str rs fid)) = true)
    as Hfin.
  { destruct (Float.is_finite _) eqn:E; [done|].
    exfalso. apply (Hall fid Hin). right. split; [|done].
    intros Hv. rewrite Hv in Hc. simpl in Hc. lia. }
  destruct (reported_sum _) as [s|] eqn:Es; [|done].
  intros [= <-]. by cbn [agg_sum agg_count].
Qed.

(** X25.  Every column [_calculate_aggregates] reports is a field of the
    result other than [_id]; its count is at least 1 and at most the number
    of records; the running total of its counted cells is finite; and its
    reported sum is that total when it is reported as an integer, and
    otherwise the float nearest to a number of two decimals that lies
    within 0.005 of that total, a zero with the sign of the total when that
    number is 0. *)
Theorem calculate_aggregates_bounds (float_of_str : pystr → option spec_float)
    (str_of_float : spec_float → pystr) (records : list (gmap pystr cell))
    (fields : list field) (aggs : gmap pystr aggregate) (fid : pystr) (a : aggregate) :
  _calculate_aggregates float_of_str str_of_float records fields = Some aggs →
  aggs !! fid = Some a →
  let total := running_total (numeric_values float_of_str records fid) in
  fid ≠ u "_id"
  ∧ (∃ f, f ∈ fields ∧ f_id f = fid)
  ∧ 1 ≤ agg_count a ∧ agg_count a ≤ length records
  ∧ Float.is_finite total = true
  ∧ match agg_sum a with
    | NInt z => (Float.value total == inject_Z z)%Q
    | NFloat x =>
        ∃ z : Z,
          x = match z with
              | Z0 => S754_zero (Float.sign total)
              | _ => Float.nearest z 100
              end
          ∧ ((z # 100) - (1 # 200) <= Float.value total)%Q
          ∧ (Float.value total <= (z # 100) + (1 # 200))%Q
    end.
Proof.
  intros Hres Ha. cbv zeta.
  destruct (calculate_aggregates_entry _ _ _ _ _ _ _ Hres Ha)
    as (Hin & Hpos & Hcount & Hfin & Hsum).
  apply numeric_fields_elem_of in Hin as [Hid Hf].
  split_and!; [done|done|lia| |done|].
  - rewrite Hcount. unfold numeric_values. apply omap_length_le.
  - unfold reported_sum in Hsum. rewrite Hfin in Hsum. cbv zeta in Hsum.
    destruct (Qeq_bool _ _) eqn:E; injection Hsum as <-.
    + by apply Qeq_bool_iff in E.
    + exists (round_half_even
                (Float.value (running_total (numeric_values float_of_str records fid)) * 100)).
      split; [unfold round_to_cents; by destruct (round_half_even _)|].
      destruct (round_half_even_error
                  (Float.value (running_total (numeric_values float_of_str records fid)) * 100))
        as [Hlo Hhi].
      set (z := round_half_even _) in *. clearbody z.
      assert (z # 100 == inject_Z z * (1 # 100))%Q as Hz.
      { unfold Qeq, Qmult, inject_Z. simpl. lia. }
      rewrite Hz. split; lra.
Qed.

Lemma calculate_aggregates_bounds_witness :
  ∃ aggs a,
    _calculate_aggregates digits_float_of_str unused_str_of_float
      mixed_records mixed_fields = Some aggs
    ∧ aggs !! u "n" = Some a
    ∧ 1 ≤ agg_count a ∧ agg_count a ≤ length mixed_records.
Proof.
  destruct (_calculate_aggregates digits_float_of_str unused_str_of_float
              mixed_records mixed_fields) as [aggs|] eqn:Hres; [|by vm_compute in Hres].
  destruct (aggs !! u "n") as [a|] eqn:Ha.
  - exists aggs, a. split; [done|]. split; [done|].
    pose proof (calculate_aggregates_bounds digits_float_of_str unused_str_of_float
                  mixed_records mixed_fields aggs (u "n") a Hres Ha) as (_ & _ & H1 & H2 & _).
    split; [exact H1|exact H2].
  - exfalso. revert Ha. injection Hres as <-. by vm_compute.
Defined.

(** ** [server.py]: limits and the score of the helper *)

(** X26.  With a default and a maximum that are positive, [_clamp_limit]
    returns a limit between 1 and the maximum, leaves a limit in that range
    as it is, and is idempotent. *)
Theorem clamp_limit_range (DEFAULT_LIMIT MAX_LIMIT : Z) (value : option Z) :
  (0 < DEFAULT_LIMIT)%Z → (0 < MAX_LIMIT)%Z →
  (1 ≤ _clamp_limit DEFAULT_LIMIT MAX_LIMIT value ≤ MAX_LIMIT)%Z
  ∧ (∀ n, value = Some n → (1 ≤ n ≤ MAX_LIMIT)%Z →
          _clamp_limit DEFAULT_LIMIT MAX_LIMIT value = n)
  ∧ _clamp_limit DEFAULT_LIMIT MAX_LIMIT
      (Some (_clamp_limit DEFAULT_LIMIT MAX_LIMIT value))
    = _clamp_limit DEFAULT_LIMIT MAX_LIMIT value.
Proof.
  intros Hd Hm.
  assert (∀ v, (1 ≤ v ≤ MAX_LIMIT)%Z → _clamp_limit DEFAULT_LIMIT MAX_LIMIT (Some v) = v)
    as Hfix.
  { intros v Hv. unfold _clamp_limit. cbv zeta.
    rewrite (proj2 (Z.eqb_neq v 0)) by lia.
    rewrite (proj2 (Z.leb_gt v 0)) by lia.
    by rewrite (proj2 (Z.ltb_ge MAX_LIMIT v)) by lia. }
  assert (1 ≤ _clamp_limit DEFAULT_LIMIT MAX_LIMIT value ≤ MAX_LIMIT)%Z as Hrange.
  { unfold _clamp_limit. cbv zeta.
    repeat match goal with
           | |- context [match ?o with Some _ => _ | None => _ end] => destruct o
           | |- context [(?a =? ?b)%Z] => destruct (Z.eqb_spec a b)
           | |- context [(?a <=? ?b)%Z] => destruct (Z.leb_spec a b)
           | |- context [(?a <? ?b)%Z] => destruct (Z.ltb_spec a b)
           end; lia. }
  split_and!; [lia|lia| |by apply Hfix].
  intros n -> Hn. by apply Hfix.
Qed.

Lemma clamp_limit_range_witness :
  (0 < 500)%Z ∧ (0 < 1000)%Z
  ∧ (1 ≤ _clamp_limit 500 1000 (Some (-1)) ≤ 1000)%Z.
Proof.
  split; [lia|]. split; [lia|].
  apply (clamp_limit_range 500 1000 (Some (-1))%Z); lia.
Defined.

(** X27.  [_score_resource] lies between 0 and 1; without a query it is
    the bonus of the format; and it exceeds 0.5 only when the query occurs
    in the title of the dataset or of the resource: a tag and the format
    give 0.5 at most. *)
Theorem score_resource_range (query ds_title res_title fmt : option pystr)
    (tags : list (option pystr)) :
  let s := _score_resource query ds_title res_title fmt tags in
  (0 <= s)%Q ∧ (s <= 1)%Q
  ∧ (or_str query [] = [] → (s <= 0.3)%Q)
  ∧ ((0.5 < s)%Q →
     or_str query [] ≠ []
     ∧ (contains (lower (or_str ds_title [])) (lower (or_str query [])) = true
        ∨ contains (lower (or_str res_title [])) (lower (or_str query [])) = true)).
Proof.
  cbv zeta. unfold _score_resource. cbv zeta.
  set (q := lower (or_str query [])).
  set (fb := default 0%Q (dict_get _ (upper (or_str fmt [])))).
  assert ((0 <= fb)%Q ∧ (fb <= 0.3)%Q) as [Hf0 Hf1].
  { unfold fb. cbn [dict_get].
    repeat match goal with
           | |- context [if eqb ?a ?b then _ else _] => destruct (eqb a b)
           end; cbn [default id]; split; lra. }
  clearbody fb.
  destruct (empty q) eqn:Hq.
  - assert (or_str query [] = []) as Hempty.
    { unfold q in Hq. by destruct (or_str query []). }
    split_and!.
    + apply qmin_glb; lra.
    + apply qmin_le_l.
    + intros _. destruct (qmin_cases 1 (0 + fb)) as [[? ->]|[? ->]]; lra.
    + intros Hs. destruct (qmin_cases 1 (0 + fb)) as [[? Heq]|[? Heq]]; rewrite Heq in Hs; lra.
  - assert (or_str query [] ≠ []) as Hne.
    { intros He. unfold q in Hq. by rewrite He in Hq. }
    destruct (contains (lower (or_str ds_title [])) q) eqn:Hd;
      destruct (contains (lower (or_str res_title [])) q) eqn:Hr;
      destruct (existsb _ tags);
      match goal with
      | |- context [qmin 1 ?x] =>
          destruct (qmin_cases 1 x) as [[? Heq]|[? Heq]]; rewrite Heq
      end;
      (split_and!; [lra|lra|done|]); intros Hs;
      (split; [done|]); first [by left | by right | lra].
Qed.

(** ** The location filter *)

Lemma location_filter_values_from (location_tokens acc : list pystr) :
  foldl (fun values loc =>
           match dict_get LOCATION_FILTER_VALUES (lower loc) with
           | Some listed => values ++ listed
           | None => values ++ [loc]
           end) acc location_tokens
  = acc ++ location_filter_values location_tokens.
Proof.
  unfold location_filter_values. revert acc.
  induction location_tokens as [|loc rest IH]; intros acc; cbn [foldl].
  - by rewrite app_nil_r.
  - destruct (dict_get LOCATION_FILTER_VALUES (lower loc)) as [listed|].
    + rewrite IH, (IH ([] ++ listed)). cbn [app]. by rewrite app_assoc.
    + rewrite IH, (IH ([] ++ [loc])). cbn [app]. by rewrite <- app_assoc.
Qed.

Lemma location_filter_values_cons (loc : pystr) (rest : list pystr) :
  location_filter_values (loc :: rest)
  = default [loc] (dict_get LOCATION_FILTER_VALUES (lower loc))
    ++ location_filter_values rest.
Proof.
  unfold location_filter_values at 1. cbn [foldl]. rewrite location_filter_values_from.
  by destruct (dict_get LOCATION_FILTER_VALUES (lower loc)).
Qed.

Lemma dict_get_elem_of {V} (d : list (pystr * V)) (k : pystr) (v : V) :
  dict_get d k = Some v → (k, v) ∈ d.
Proof.
  induction d as [|[k' v'] d IH]; [done|]. simpl.
  destruct (eqb k' k) eqn:Hk.
  - apply eqb_true in Hk as ->. intros [= ->]. by left.
  - intros H. right. by apply IH.
Qed.

(** Every entry of the table starts with a name in Hebrew letters. *)
Lemma location_filter_entry_head (k : pystr) (listed : list pystr) :
  dict_get LOCATION_FILTER_VALUES k = Some listed →
  ∃ first others, listed = first :: others
                  ∧ existsb (fun c => (127 <? c)%N) first = true.
Proof.
  intros Hk%dict_get_elem_of.
  assert (forallb (fun kv : pystr * list pystr =>
                     match kv.2 with
                     | first :: _ => existsb (fun c => (127 <? c)%N) first
                     | [] => false
                     end) LOCATION_FILTER_VALUES = true) as Hall by (by vm_compute).
  rewrite forallb_forall in Hall. apply list_elem_of_In in Hk.
  specialize (Hall _ Hk). simpl in Hall.
  destruct listed as [|first others]; [done|]. by exists first, others.
Qed.

Lemma existsb_non_ascii (s : pystr) :
  existsb (fun c => (127 <? c)%N) s = negb (isascii s).
Proof.
  unfold isascii. induction s as [|c s IH]; [done|]. simpl. rewrite IH.
  destruct (127 <? c)%N eqn:H1; destruct (c <? 128)%N eqn:H2; try done.
  - apply N.ltb_lt in H1, H2. lia.
  - apply N.ltb_ge in H1, H2. lia.
Qed.

Lemma head_filter_Some {A} (P : A → Prop) `{∀ x, Decision (P x)} (l : list A) (h : A) :
  head (filter P l) = Some h →
  ∃ before after, l = before ++ h :: after ∧ P h ∧ ∀ x, x ∈ before → ¬ P x.
Proof.
  induction l as [|a l IH]; [done|].
  destruct (decide (P a)) as [Ha|Ha].
  - rewrite filter_cons_True by done. intros [= ->].
    exists [], l. split_and!; [done|done|by intros ? ?%not_elem_of_nil].
  - rewrite filter_cons_False by done. intros (before & after & -> & Hh & Hb)%IH.
    exists (a :: before), after. split_and!; [done|done|].
    intros x [->|?]%elem_of_cons; [done|by apply Hb].
Qed.

(** X28.  The location filter of [datagov_query]: the metadata report a
    filter exactly when the query has a location token; the full-text
    parameter [q] is one value only, the first with a character beyond
    ASCII; for a first location token that the table lists it is the
    Hebrew name of the place; and for location tokens in ASCII that the
    table does not list no [q] is sent. *)
Theorem location_filter_spec (location_tokens : list pystr) :
  (filter_applied location_tokens = true ↔ location_tokens ≠ [])
  ∧ (∀ val, q_param location_tokens = Some val →
            val ∈ location_filter_values location_tokens ∧ isascii val = false
            ∧ ∃ before after,
                location_filter_values location_tokens = before ++ val :: after
                ∧ ∀ v, v ∈ before → isascii v = true)
  ∧ (∀ loc rest listed,
       location_tokens = loc :: rest →
       dict_get LOCATION_FILTER_VALUES (lower loc) = Some listed →
       q_param location_tokens = head listed)
  ∧ ((∀ loc, loc ∈ location_tokens →
             isascii loc = true ∧ dict_get LOCATION_FILTER_VALUES (lower loc) = None) →
     q_param location_tokens = None).
Proof.
  split_and!.
  - unfold filter_applied. destruct location_tokens as [|loc rest]; [done|].
    rewrite location_filter_values_cons.
    destruct (dict_get LOCATION_FILTER_VALUES (lower loc)) as [listed|] eqn:Hl; [|done].
    by destruct (location_filter_entry_head _ _ Hl) as (first & others & -> & _).
  - intros val. unfold q_param, hebrew_location.
    destruct (location_filter_values location_tokens) as [|v vs] eqn:Hv; [done|].
    destruct (filter _ (v :: vs)) as [|h hs] eqn:Hf; [done|]. cbn [head].
    destruct (empty h); [done|]. intros [= <-].
    assert (head (filter (fun val => existsb (fun c => (127 <? c)%N) val = true) (v :: vs))
            = Some h) as Hhead by (by rewrite Hf).
    apply head_filter_Some in Hhead as (before & after & Heq & Hh & Hbefore).
    rewrite existsb_non_ascii in Hh. apply negb_true_iff in Hh.
    split_and!; [rewrite Heq; apply elem_of_app; right; by left|done|].
    exists before, after. split; [done|]. intros x Hx%Hbefore.
    rewrite existsb_non_ascii in Hx. by destruct (isascii x).
  - intros loc rest listed -> Hl. unfold q_param, hebrew_location.
    rewrite location_filter_values_cons, Hl. cbn [default id].
    destruct (location_filter_entry_head _ _ Hl) as (first & others & -> & Hfirst).
    cbn [app]. rewrite filter_cons_True by done. cbn [head].
    by destruct first.
  - intros Hall. unfold q_param, hebrew_location.
    assert (filter (fun val => existsb (fun c => (127 <? c)%N) val = true)
                   (location_filter_values location_tokens) = []) as Hnone.
    { induction location_tokens as [|loc rest IH]; [done|].
      rewrite location_filter_values_cons.
      destruct (Hall loc ltac:(by left)) as [Hascii ->]. cbn [default id app].
      rewrite filter_cons_False; [apply IH; intros; apply Hall; by right|].
      rewrite existsb_non_ascii, Hascii. done. }
    destruct (location_filter_values location_tokens); [done|]. by rewrite Hnone.
Qed.

(** ** A subject score of zero *)

Lemma startswith_refl (s : pystr) : startswith s s = true.
Proof. induction s as [|c s IH]; [done|]. simpl. by rewrite N.eqb_refl. Qed.

Lemma contains_middle (a x b : pystr) : contains (a ++ x ++ b) x = true.
Proof.
  apply contains_app_r.
  assert (startswith (x ++ b) x = true) as H by apply startswith_app, startswith_refl.
  destruct (x ++ b); simpl in *; by rewrite H.
Qed.

(** A piece that [re.split] returns is a part of the text. *)
Lemma re_split_go_substring (p : N → bool) (s cur pre : pystr) (in_run : bool) (x : pystr) :
  (in_run = true → cur = []) →
  x ∈ re_split_go p s cur in_run → ∃ a b, pre ++ rev cur ++ s = a ++ x ++ b.
Proof.
  revert cur pre in_run. induction s as [|c r IH]; intros cur pre in_run Hrun; simpl.
  - intros ->%list_elem_of_singleton. exists pre, []. done.
  - destruct (p c).
    + destruct in_run.
      * rewrite (Hrun eq_refl). intros Hx.
        destruct (IH [] (pre ++ [c]) true ltac:(done) Hx) as (a & b & Hab).
        exists a, b. rewrite <- Hab. simpl. by rewrite <- app_assoc.
      * intros [->|Hx]%elem_of_cons.
        -- exists pre, (c :: r). done.
        -- destruct (IH [] (pre ++ rev cur ++ [c]) true ltac:(done) Hx) as (a & b & Hab).
           exists a, b. rewrite <- Hab. simpl. by rewrite <- !app_assoc.
    + intros Hx. destruct (IH (c :: cur) pre false ltac:(done) Hx) as (a & b & Hab).
      exists a, b. rewrite <- Hab. simpl. by rewrite <- !app_assoc.
Qed.

Lemma token_is_substring (text t : pystr) :
  t ∈ _tokenize_hebrew text false → contains (lower text) t = true.
Proof.
  intros (_ & Hin & _)%tokenize_elem_of.
  destruct (re_split_go_substring is_separator (lower text) [] [] false t ltac:(done) Hin)
    as (a & b & Hab).
  simpl in Hab. rewrite Hab. apply contains_middle.
Qed.

Lemma subject_loop_zero (tl : pystr) (tt l : list pystr) (m t : Q) :
  (0 <= m)%Q →
  ((foldl (check_subject_token tl tt) (m, t) l).1 == 0)%Q
  ↔ (m == 0)%Q ∧ ∀ st, st ∈ l → mem st tt = false ∧ contains tl st = false.
Proof.
  revert m t. induction l as [|st l IH]; intros m t Hm; cbn [foldl].
  - cbn [fst]. split; [intros ?; split; [done|by intros ? ?%not_elem_of_nil]|by intros [? _]].
  - unfold check_subject_token at 2.
    destruct (mem st tt) eqn:Hmem; [|destruct (contains tl st) eqn:Hc].
    + rewrite IH by lra. split; [intros [? _]; lra|].
      intros [_ Hall]. destruct (Hall st ltac:(by left)). congruence.
    + rewrite IH by lra. split; [intros [? _]; lra|].
      intros [_ Hall]. destruct (Hall st ltac:(by left)). congruence.
    + rewrite IH by lra. split.
      * intros [? Hall]. split; [done|]. intros s [->|?]%elem_of_cons; [done|by apply Hall].
      * intros [? Hall]. split; [done|]. intros s Hs. apply Hall. by right.
Qed.

Lemma expansion_matches (tl exp : pystr) :
  (contains tl (lower exp) = false
   ∧ existsb (fun word => (2 <? len word) && contains tl word) (Py.split (lower exp)) = false)
  ↔ ¬ expansion_occurs tl exp.
Proof.
  unfold expansion_occurs. split.
  - intros [Hc Hw] [?|(w & Hin & Hl & Hcw)]; [congruence|].
    assert (existsb (fun word => (2 <? len word) && contains tl word)
                    (Py.split (lower exp)) = true) as Ht; [|congruence].
    apply existsb_exists. exists w. split; [by apply list_elem_of_In|].
    apply andb_true_iff. split; [by apply Nat.ltb_lt|done].
  - intros Hn. split.
    + destruct (contains tl (lower exp)) eqn:Hc; [|done]. exfalso. apply Hn. by left.
    + destruct (existsb _ _) eqn:He; [|done]. exfalso. apply Hn. right.
      apply existsb_exists in He as (w & Hin%list_elem_of_In & [Hl%Nat.ltb_lt ?]%andb_true_iff).
      by exists w.
Qed.

Lemma expansion_loop_zero (tl : pystr) (l : list pystr) (m t : Q) :
  (0 <= m)%Q →
  ((foldl (check_expansion tl) (m, t) l).1 == 0)%Q
  ↔ (m == 0)%Q ∧ ∀ exp, exp ∈ l → ¬ expansion_occurs tl exp.
Proof.
  revert m t. induction l as [|exp l IH]; intros m t Hm; cbn [foldl].
  - cbn [fst]. split; [intros ?; split; [done|by intros ? ?%not_elem_of_nil]|by intros [? _]].
  - unfold check_expansion at 2. cbv zeta.
    pose proof (expansion_matches tl exp) as Hexp.
    destruct (contains tl (lower exp)) eqn:Hc; [|destruct (existsb _ _) eqn:Hw].
    + rewrite IH by lra. split; [intros [? _]; lra|].
      intros [_ Hall]. exfalso. apply (Hall exp); [by left|]. by left.
    + rewrite IH by lra. split; [intros [? _]; lra|].
      intros [_ Hall]. specialize (Hall exp ltac:(by left)).
      apply Hexp in Hall as [_ ?]. congruence.
    + rewrite IH by lra. split.
      * intros [? Hall]. split; [done|]. intros s [->|?]%elem_of_cons; [|by apply Hall].
        by apply Hexp.
      * intros [? Hall]. split; [done|]. intros s Hs. apply Hall. by right.
Qed.

Lemma expansion_loop_checks_nonempty (tl : pystr) (l : list pystr) (m t : Q) :
  l ≠ [] → (t + 0.5 <= (foldl (check_expansion tl) (m, t) l).2)%Q.
Proof.
  destruct l as [|exp l]; [done|]. intros _. cbn [foldl].
  destruct (check_expansion tl (m, t) exp) as [m1 t1] eqn:Hs.
  destruct (expansion_loop_checks tl l m1 t1) as [H _].
  unfold check_expansion in Hs. injection Hs as _ <-. lra.
Qed.

(** X29.  The subject score of a text is 0 exactly when nothing of the
    query matches it: no subject token occurs in its lower-case form, and
    no expansion does, as it is or through one of its words. *)
Theorem subject_match_zero (subject expanded : list pystr) (text : pystr) :
  text ≠ [] → subject ≠ [] ∨ expanded ≠ [] →
  (_calculate_subject_match subject expanded text == 0)%Q
  ↔ (∀ st, st ∈ subject → contains (lower text) st = false)
    ∧ (∀ exp, exp ∈ expanded → ¬ expansion_occurs (lower text) exp).
Proof.
  intros Htext Hne. unfold _calculate_subject_match.
  assert (empty text = false) as -> by (by destruct text).
  assert ((length subject =? 0) && (length expanded =? 0) = false) as ->.
  { destruct Hne; [destruct subject|destruct expanded; [|apply andb_false_r]]; done. }
  cbv zeta.
  set (tl := lower text). set (tt := _tokenize_hebrew text false).
  pose proof (subject_loop_zero tl tt subject 0 0 ltac:(lra)) as Hsub.
  destruct (subject_loop_checks tl tt subject 0 0) as (Ht1 & Ht1' & Hm1).
  destruct (foldl (check_subject_token tl tt) (0%Q, 0%Q) subject) as [m1 t1].
  cbn [fst snd] in *. specialize (Hm1 ltac:(lra)).
  pose proof (expansion_loop_zero tl expanded m1 t1 Hm1) as Hex.
  destruct (expansion_loop_checks tl expanded m1 t1) as (Ht & Hm).
  pose proof (expansion_loop_checks_nonempty tl expanded m1 t1) as Ht'.
  destruct (foldl (check_expansion tl) (m1, t1) expanded) as [m t].
  cbn [fst snd] in *. specialize (Hm Hm1).
  assert (0 < t)%Q as Hpos.
  { destruct Hne as [Hs|He]; [specialize (Ht1' Hs)|specialize (Ht' He)]; lra. }
  assert (Qeq_bool t 0 = false) as ->.
  { destruct (Qeq_bool t 0) eqn:E; [|done]. apply Qeq_bool_iff in E. lra. }
  assert ((qmin 1 (m / t) == 0)%Q ↔ (m == 0)%Q) as ->.
  { split.
    - intros Hz. destruct (qmin_cases 1 (m / t)) as [[_ Heq]|[_ Heq]]; rewrite Heq in Hz;
        [lra|].
      assert (m == (m / t) * t)%Q as -> by (field; lra). rewrite Hz. lra.
    - intros Hz. assert (m / t == 0)%Q as Hd by (rewrite Hz; field; lra).
      destruct (qmin_cases 1 (m / t)) as [[? _]|[_ ->]]; [lra|done]. }
  rewrite Hex, Hsub. split.
  - intros [[_ Hs] He]. split; [|done]. intros st Hst. by destruct (Hs st Hst).
  - intros [Hs He]. split; [|done]. split; [reflexivity|].
    intros st Hst. split; [|by apply Hs].
    unfold mem. apply bool_decide_eq_false. intros Hin%token_is_substring.
    fold tl in Hin. rewrite (Hs st Hst) in Hin. done.
Qed.

Lemma subject_match_zero_witness :
  all_ds_text roads_ds ≠ []
  ∧ ((_calculate_subject_match [u "hospitals"] [] (all_ds_text roads_ds) == 0)%Q
     ↔ (∀ st, st ∈ [u "hospitals"] → contains (lower (all_ds_text roads_ds)) st = false)
       ∧ (∀ exp, exp ∈ [] → ¬ expansion_occurs (lower (all_ds_text roads_ds)) exp)).
Proof.
  assert (all_ds_text roads_ds ≠ []) as H by (by vm_compute).
  split; [exact H|].
  apply (subject_match_zero [u "hospitals"] [] (all_ds_text roads_ds) H). by left.
Defined.
